(** * DROID-Splat: the bundle-adjustment engine and the process orchestrator

    A shallow embedding of [src/geom/ba.py] (the sparse accumulators, the
    four solve functions [MoBA], [BA], [BA_prior], [BA_prior_no_motion] and
    the entry point [bundle_adjustment]) and of the backend part of
    [src/slam.py] ([ram_safeguard_backend], [global_ba], [sanity_checks],
    [__init__] with [create_out_dirs], [update_cam] and [load_pretrained],
    and [run]).

    Conventions of the model.
    - A tensor is a list along its node (or edge) dimension; the trailing
      dimensions of one node are flattened into a [row] of numbers.  The
      batch dimension is dropped: [bundle_adjustment] always adds a batch of
      size one with [unsqueeze(0)].
    - Numbers are exact rationals ([Qc]); the precision casts [.double()],
      [.float()] are therefore identities.  Only the result of the dense
      solvers of [MoBA], which the source inspects with [torch.isnan], keeps
      the value classes of an IEEE number ([f64]); its cast [.float()]
      takes a number beyond the range of [float32] to infinity.
    - The numbers of the camera configuration are Python numbers: integers
      and IEEE doubles ([spec_float]) with their rounding.
    - Index tensors are [int64]: lists of [Z], with the wrap-around written
      out where the source computes with them.
    - A Python exception is the outcome [Raise]; the keyframe store it
      leaves behind is part of the outcome. *)

From Stdlib Require Import ZArith QArith Qcanon Lia String SpecFloat.
From stdpp Require Import base list option numbers sorting gmap.

Open Scope Z_scope.

(** ** Numbers *)

Definition row := list Qc.

(** Elementwise [+] of two rows of the same shape. *)
Definition radd (x y : row) : row := zip_with Qcplus x y.

Definition rzero (k : nat) : row := replicate k (Q2Qc 0).

(** The value classes of an IEEE double, as [torch.isnan] and
    [torch.isfinite] see them. *)
Inductive f64 :=
| Fin (q : Qc)
| PInf
| NInf
| NaN.

Definition isnan (x : f64) : bool :=
  match x with NaN => true | _ => false end.


(** The numbers from [2^128 - 2^103] on round to infinity in [float32]:
    that is half a unit in the last place beyond the largest [float32]. *)
Definition float32_overflow : Qc := Q2Qc (inject_Z (2 ^ 128 - 2 ^ 103)).

(** [x.float()] on the value classes of a double: a finite number that is
    too large for a [float32] becomes infinite. *)
Definition to_float32 (x : f64) : f64 :=
  match x with
  | Fin q =>
      if bool_decide (float32_overflow ≤ q)%Qc then PInf
      else if bool_decide (q ≤ - float32_overflow)%Qc then NInf
      else Fin q
  | _ => x
  end.

(** Integer tensors wrap around; the integer type of an index tensor decides
    how its products wrap. *)
Definition wrap64 (z : Z) : Z := (z + 2 ^ 63) mod 2 ^ 64 - 2 ^ 63.
Definition wrap32 (z : Z) : Z := (z + 2 ^ 31) mod 2 ^ 32 - 2 ^ 31.

Inductive dtype := int32 | int64.

Definition wrap (t : dtype) (z : Z) : Z :=
  match t with int32 => wrap32 z | int64 => wrap64 z end.

(** ** Tensor helpers *)

(** [x[:, v]] for a boolean mask [v] (the caller checks the lengths). *)
Fixpoint mask {B : Type} (v : list bool) (l : list B) : list B :=
  match v, l with
  | b :: v', x :: l' => if b then x :: mask v' l' else mask v' l'
  | _, _ => []
  end.

(** ** Sparse accumulators *)

Section Scatter.
Context {A : Type} (zero : A) (add : A → A → A).

(** [self.scatter_add_(1, index, src)]: [self[index[e]] += src[e]] for every
    entry [e] of [index]; an index outside [0, len(self)) raises, and so does
    an [index] longer than [src]. *)
Fixpoint scatter_add_ (self : list A) (index : list Z) (src : list A)
  : option (list A) :=
  match index, src with
  | [], _ => Some self
  | i :: index', s :: src' =>
      if bool_decide (0 ≤ i < Z.of_nat (length self))
      then scatter_add_ (alter (λ x, add x s) (Z.to_nat i) self) index' src'
      else None
  | _ :: _, [] => None
  end.

(** [torch_scatter]'s [broadcast(index, src, dim)]: an index of length one is
    expanded to the length of [src]; any other length has to agree. *)
Definition broadcast (index : list Z) (src : list A) : option (list Z) :=
  match index with
  | [i] => Some (replicate (length src) i)
  | _ => if decide (length index = length src) then Some index else None
  end.

(** [scatter_sum(src, index, dim=1, dim_size=n)]: scatter into fresh zeros. *)
Definition scatter_sum (src : list A) (index : list Z) (dim_size : Z)
  : option (list A) :=
  if bool_decide (0 ≤ dim_size)
  then index' ← broadcast index src;
       scatter_add_ (replicate (Z.to_nat dim_size) zero) index' src
  else None.

(** [safe_scatter_add_mat(A, ii, jj, n, m)].  The mask [v] and the masked
    reads [A[:, v]], [ii[v]], [jj[v]] need the three lengths to agree.  [t]
    is the integer type of [ii] ([jj] is [int64] at every call): the product
    [ii[v] * m] has that type, the sum with [jj[v]] is [int64]. *)
Definition safe_scatter_add_mat (t : dtype) (a : list A) (ii jj : list Z)
    (n m : Z) : option (list A) :=
  if decide (length ii = length jj ∧ length a = length ii)
  then
    let v := zip_with (λ i j, (0 <=? i) && (0 <=? j) && (i <? n) && (j <? m))
               ii jj in
    scatter_sum (mask v a)
      (zip_with (λ i j, wrap64 (wrap t (i * m) + j)) (mask v ii) (mask v jj))
      (n * m)
  else None.

(** [safe_scatter_add_vec(b, ii, n)]. *)
Definition safe_scatter_add_vec (b : list A) (ii : list Z) (n : Z)
  : option (list A) :=
  if decide (length b = length ii)
  then
    let v := (λ i, (0 <=? i) && (i <? n)) <$> ii in
    scatter_sum (mask v b) (mask v ii) n
  else None.

(** [safe_scatter_add_mat_inplace(H, data, ii, jj, B, M, D)]: the new content
    of the buffer [H], or an exception.  Only negative indices are masked. *)
Definition safe_scatter_add_mat_inplace (H data : list A) (ii jj : list Z)
    (M : Z) : option (list A) :=
  if decide (length ii = length jj ∧ length data = length ii)
  then
    let v := zip_with (λ i j, (0 <=? i) && (0 <=? j)) ii jj in
    scatter_add_ H
      (zip_with (λ i j, wrap64 (i * M + j)) (mask v ii) (mask v jj))
      (mask v data)
  else None.

(** [safe_scatter_add_vec_inplace(b, data, ii, B, M, D)]. *)
Definition safe_scatter_add_vec_inplace (b data : list A) (ii : list Z)
  : option (list A) :=
  if decide (length data = length ii)
  then
    let v := (λ i, 0 <=? i) <$> ii in
    scatter_add_ b (mask v ii) (mask v data)
  else None.

End Scatter.

(** ** More tensor helpers *)

(** [x[:, k]] for one integer [k]: a negative index counts from the end, an
    index outside [-len, len) raises. *)
Definition index_at {B : Type} (l : list B) (k : Z) : option B :=
  if bool_decide (0 ≤ k) then l !! Z.to_nat k
  else if bool_decide (- Z.of_nat (length l) ≤ k)
       then l !! Z.to_nat (Z.of_nat (length l) + k)
       else None.

(** [x[:, kx]] for an index tensor [kx]. *)
Definition gather {B : Type} (l : list B) (kx : list Z) : option (list B) :=
  mapM (index_at l) kx.

(** [torch.unique(ii, return_inverse=True)]: the sorted distinct values
    [kx], and for every entry of [ii] its position [kk] in [kx]. *)
Fixpoint insert_unique (x : Z) (l : list Z) : list Z :=
  match l with
  | [] => [x]
  | y :: l' =>
      if x <? y then x :: l
      else if x =? y then l
      else y :: insert_unique x l'
  end.

Fixpoint index_of (x : Z) (l : list Z) : Z :=
  match l with
  | [] => 0
  | y :: l' => if x =? y then 0 else 1 + index_of x l'
  end.

Definition unique (ii : list Z) : list Z * list Z :=
  let kx := foldr insert_unique [] ii in
  (kx, (λ i, index_of i kx) <$> ii).

(** [torch.arange(t0, t1)]. *)
Definition arange (t0 t1 : nat) : list Z := Z.of_nat <$> seq t0 (t1 - t0).

(** [torch.isin(xs, ys)]. *)
Definition isin (xs ys : list Z) : list bool :=
  (λ x, bool_decide (x ∈ ys)) <$> xs.

(** [dst[:, v] = src] for a boolean mask [v]: the number of selected
    positions has to be the length of [src]. *)
Fixpoint mask_assign {B : Type} (v : list bool) (dst src : list B)
  : option (list B) :=
  match v, dst with
  | true :: v', _ :: dst' =>
      match src with
      | s :: src' => (s ::.) <$> mask_assign v' dst' src'
      | [] => None
      end
  | false :: v', x :: dst' => (x ::.) <$> mask_assign v' dst' src
  | [], [] => match src with [] => Some [] | _ => None end
  | _, _ => None
  end.

(** Elementwise binary operations broadcast a dimension of size one and
    raise on any other disagreement of shapes. *)
Definition bzip {B1 B2 B3 : Type} (f : B1 → B2 → option B3)
    (x : list B1) (y : list B2) : option (list B3) :=
  match x, y with
  | [a], _ => mapM (f a) y
  | _, [b] => mapM (λ a, f a b) x
  | _, _ =>
      if decide (length x = length y)
      then mapM id (zip_with f x y)
      else None
  end.

Definition rop (f : Qc → Qc → Qc) (x y : row) : option row :=
  bzip (λ a b, Some (f a b)) x y.

Definition top (f : Qc → Qc → Qc) (x y : list row) : option (list row) :=
  bzip (rop f) x y.

Definition tmap (f : Qc → Qc) (x : list row) : list row :=
  (λ r : list Qc, f <$> r) <$> x.

(** [rearrange(x, "b (n k) -> b n k", n=n, k=k)]: [n] chunks of [k]
    entries; a tensor of another size raises. *)
Fixpoint chunks {B : Type} (n k : nat) (l : list B) : list (list B) :=
  match n with
  | O => []
  | S n' => take k l :: chunks n' k (drop k l)
  end.

Definition rearrange {B : Type} (n k : nat) (l : list B)
  : option (list (list B)) :=
  if decide (length l = (n * k)%nat) then Some (chunks n k l) else None.

(** Dense matrices, one [row] per matrix row. *)
Definition mat := list row.

Definition dot (x y : row) : Qc := foldr Qcplus (Q2Qc 0) (zip_with Qcmult x y).

Definition col (k : nat) (a : mat) : row := (λ r, default (Q2Qc 0) (r !! k)) <$> a.

Definition ncols (a : mat) : nat := match a with r :: _ => length r | [] => O end.

(** [a.mT] of an [r x c] matrix ([c] is kept apart: an empty matrix has no
    row to read it from). *)
Definition transpose (c : nat) (a : mat) : mat := (λ k, col k a) <$> seq 0 c.

(** [torch.matmul(a, b)] of an [r x k] and a [k x c] matrix. *)
Definition matmul (c : nat) (a b : mat) : mat :=
  (λ r, (λ k, dot r (col k b)) <$> seq 0 c) <$> a.

Definition mscale (s : Qc) (a : mat) : mat := tmap (Qcmult s) a.

(** [torch.cat([a, b], dim=2)] and [torch.cat([a, b], dim=1)]. *)
Definition hcat (a b : mat) : mat := zip_with app a b.
Definition vcat (a b : mat) : mat := a ++ b.

(** ** External collaborators of [ba.py] *)

(** The per-edge dense blocks returned by [get_hessian_and_rhs]: one entry
    per edge, each block flattened. *)
Record blocks := {
  Hii : list row; Hij : list row; Hji : list row; Hjj : list row;
  Eik : list row; Ejk : list row;
  Ck : list row;
  vi : list row; vj : list row;
  wk : list row;
}.

(** What [ba.py] imports: the pose type of [lietorch], the projection of
    [projective_ops.py] and the solvers of [chol.py]. *)
Class Externals := {
  (** An element of [lietorch.SE3]. *)
  pose : Type;
  (** [g.retr(dx)] on one element: [exp(dx) * g]. *)
  retr : pose → list f64 → pose;
  (** [projective_transform(poses, disps, intrinsics, ii, jj, jacobian=True)]
      followed by [get_hessian_and_rhs] on [target] and [weight]: sums and
      products of numbers that no property below looks into.  [MoBA] asks for
      the pose blocks only ([with_structure=False]); they are the same. *)
  linearize : list pose → list row → list row → list Z → list Z →
              list row → list row → option blocks;
  (** [CholeskySolver.apply(H, v)] and [LUSolver.apply(H, v)]: a solver that
      fails says so through NaN entries of its result. *)
  CholeskySolver_apply : mat → row → list f64;
  LUSolver_apply : mat → row → list f64;
  (** [schur_block_solve(H, E, C, v, w, ep=ep, lm=lm)]: the pose update, one
      tangent per free pose, and the flat disparity update. *)
  schur_block_solve : list row → list row → row → list row → row → Qc → Qc →
                      option (list row * row);
  (** [schur_block_solve(..., structure_only=True)]. *)
  schur_block_solve_structure_only :
    list row → list row → row → list row → row → Qc → Qc → option row;
  (** [schur_solve(H, E, C, v, w, ep=ep, lm=lm, solver=...)]; [None] is the
      default solver. *)
  schur_solve : mat → mat → row → row → row → Qc → Qc → option string →
                option (row * row);
}.

(** [poses.manifold_dim]: the entry point always builds [SE3] poses. *)
Definition manifold_dim : nat := 6.

(** [disps.clamp(min=lo)]: a new tensor; the argument is left as it is. *)
Definition clamp (lo : Qc) (x : list row) : list row :=
  tmap (λ d, if bool_decide (d < lo)%Qc then lo else d) x.

(** [rearrange(H, "b n1 n2 d1 d2 -> b (n1 d1) (n2 d2)")] of the [m * m]
    blocks of size [d x d]. *)
Definition to_dense (m d : nat) (H : list row) : mat :=
  (λ r, (λ c, default (Q2Qc 0)
               ((H !! (r / d * m + c / d)%nat) ≫=
                  (λ blk : list Qc, blk !! (r mod d * d + c mod d)%nat)))
        <$> seq 0 (m * d))
  <$> seq 0 (m * d).

(** [H + (ep + lm * H) * torch.eye(H.shape[1])]. *)
Definition damp (ep lm : Qc) (H : mat) : mat :=
  imap (λ r : nat, imap (λ (c : nat) (h : Qc),
     h + (ep + lm * h) * (if decide (r = c) then 1 else Q2Qc 0))%Qc) H.

(** [rearrange(E, "b m (n hw) d 1 -> b (d m) (n hw)")] of the [m * n] blocks
    of size [hw x d]. *)
Definition E_dense (m n hw d : nat) (E : list row) : mat :=
  (λ r, (λ c, default (Q2Qc 0)
               ((E !! (r mod m * n + c / hw)%nat) ≫=
                  (λ blk : list Qc, blk !! (c mod hw * d + r / m)%nat)))
        <$> seq 0 (n * hw))
  <$> seq 0 (d * m).

(** The exceptions that the properties below tell apart; every other one
    (an index out of range, a shape mismatch, ...) is [OtherError]. *)
Inductive exn :=
| AssertionError
| NotImplementedError
| OtherError
| ZeroDivisionError
| OverflowError
| KeyError.

(** A call that returns or raises, outside the keyframe store. *)
Global Instance exn_bind : MBind (sum exn) := λ A B f x,
  match x with inl e => inl e | inr a => f a end.

Section Engine.
Context `{Ext : Externals}.

(** ** The keyframe store and the effects on it *)

(** The tensors a solve mutates in place.  [scales] and [shifts] are
    optional arguments of the entry point. *)
Record store := {
  all_poses : list pose;
  all_disps : list row;
  all_scales : option (list Qc);
  all_shifts : option (list Qc);
}.

(** A call returns, or raises; either way it leaves a store behind. *)
Inductive outcome (R : Type) :=
| Return (r : R) (s : store)
| Raise (e : exn) (s : store).
Arguments Return {R} r s.
Arguments Raise {R} e s.

Definition final {R : Type} (o : outcome R) : store :=
  match o with Return _ s => s | Raise _ s => s end.

Definition M (R : Type) : Type := store → outcome R.

Definition ret {R : Type} (r : R) : M R := λ st, Return r st.

Definition bind {R S : Type} (m : M R) (k : R → M S) : M S :=
  λ st, match m st with
        | Return r st' => k r st'
        | Raise e st' => Raise e st'
        end.

(** A pure computation that may raise. *)
Definition lift {R : Type} (o : option R) : M R :=
  λ st, match o with Some r => Return r st | None => Raise OtherError st end.

(** [assert b, "..."]. *)
Definition assert_ (b : bool) : M unit :=
  λ st, if b then Return tt st else Raise AssertionError st.

Definition get : M store := λ st, Return st st.

(** [x[:, :t1] = new]: the value has to have the shape of the slice. *)
Definition set_window {B : Type} (t1 : nat) (new all : list B)
  : option (list B) :=
  if decide (length new = length (take t1 all))
  then Some (new ++ drop t1 all)
  else None.

Definition write_poses (t1 : nat) (new : list pose) : M unit :=
  λ st, match set_window t1 new (all_poses st) with
        | Some p => Return tt {| all_poses := p; all_disps := all_disps st;
                                 all_scales := all_scales st;
                                 all_shifts := all_shifts st |}
        | None => Raise OtherError st
        end.

Definition write_disps (t1 : nat) (new : list row) : M unit :=
  λ st, match set_window t1 new (all_disps st) with
        | Some p => Return tt {| all_poses := all_poses st; all_disps := p;
                                 all_scales := all_scales st;
                                 all_shifts := all_shifts st |}
        | None => Raise OtherError st
        end.

Definition write_scales (t1 : nat) (new : list Qc) : M unit :=
  λ st, match all_scales st ≫= set_window t1 new with
        | Some p => Return tt {| all_poses := all_poses st;
                                 all_disps := all_disps st;
                                 all_scales := Some p;
                                 all_shifts := all_shifts st |}
        | None => Raise OtherError st
        end.

Definition write_shifts (t1 : nat) (new : list Qc) : M unit :=
  λ st, match all_shifts st ≫= set_window t1 new with
        | Some p => Return tt {| all_poses := all_poses st;
                                 all_disps := all_disps st;
                                 all_scales := all_scales st;
                                 all_shifts := Some p |}
        | None => Raise OtherError st
        end.

End Engine.

Arguments Return {_ R} r s.
Arguments Raise {_ R} e s.

Notation "x <~ m ;; k" := (bind m (λ x, k))
  (at level 100, m at next level, right associativity,
   format "'[v' x  <~  m  ;;  '/' k ']'").

(** ** The solve functions of [ba.py] *)

(** The small floor added to the structure diagonal. *)
Definition eps_floor : Qc := Q2Qc (1 # 10000000).

(** The positive floor of the disparities, [0.001]. *)
Definition disp_floor : Qc := Q2Qc (1 # 1000).

(** [additive_retr(disps, dz, ii)]:
    [disps + scatter_sum(dz, ii, dim=1, dim_size=disps.shape[1])]. *)
Definition additive_retr {A : Type} (zero : A) (add : A → A → A)
    (disps dz : list A) (ii : list Z) : option (list A) :=
  s ← scatter_sum zero add dz ii (Z.of_nat (length disps));
  Some (zip_with add disps s).

(** [get_regularizor_jacobians(disps_sens, bs, n, ht, wd)], with [hw] for
    [ht * wd]: the Jacobians [Js], [Jo] of the prior residual, each an
    [(n * hw) x n] matrix. *)
Definition scatter_jacobian (a : list Qc) (ii jj : list Z) (n m : nat)
  : option mat :=
  b ← safe_scatter_add_mat (Q2Qc 0) Qcplus int32 a (wrap32 <$> ii) jj
        (Z.of_nat n) (Z.of_nat m);
  rearrange n m b.

Definition get_regularizor_jacobians (disps_sens : list row) (n hw : nat)
  : option (mat * mat) :=
  let flat := concat disps_sens in
  if decide (length flat = (n * hw)%nat) then
    let Jsi := (λ s, - s * 1)%Qc <$> flat in
    let Joi := replicate (n * hw) (- 1)%Qc in
    let jsii := concat ((λ k, replicate hw k) <$> arange 0 n) in
    let jsjj := concat (replicate n (arange 0 hw)) in
    let jjk := (λ k, Z.of_nat hw * k) <$> jsii in
    let jsjj := zip_with Z.add jsjj jjk in
    Js ← scatter_jacobian Jsi jsjj jsii (n * hw) n;
    Jo ← scatter_jacobian Joi jsjj jsii (n * hw) n;
    Some (Js, Jo)
  else None.

(** [get_regularizor_hessians(Js, Jo, res, alpha, bs, n, ht, wd)]: the blocks
    [F, K, D, G, L] and the right-hand sides [vs, vo]. *)
Definition get_regularizor_hessians (Js Jo : mat) (res : list row)
    (alpha : Qc) (n hw : nat)
  : option (mat * mat * mat * mat * mat * row * row) :=
  let r := concat res in
  if decide (length r = (n * hw)%nat) then
    let JsT := transpose n Js in
    let JoT := transpose n Jo in
    let F := mscale alpha JsT in
    let K := mscale alpha JoT in
    let D := mscale alpha (matmul n JsT Js) in
    let G := mscale alpha (matmul n JoT Jo) in
    let L := mscale alpha (matmul n JsT Jo) in
    let vs := (λ x, dot x r) <$> mscale (- alpha) JsT in
    let vo := (λ x, dot x r) <$> mscale (- alpha) JoT in
    Some (F, K, D, G, L, vs, vo)
  else None.

(** [get_augmented_hessian_and_rhs_full(H, E, C, D, G, F, L, K, v, w, vs,
    vo)] for [m] free poses and [n] structure nodes. *)
Definition get_augmented_hessian_and_rhs_full (m n hw d : nat)
    (H E : list row) (C : row) (D G F L K : mat) (v : list row) (w vs vo : row)
  : mat * mat * row * row * row :=
  let zeros_pose_so := replicate (d * m) (rzero (2 * n)) in
  let H := to_dense m d H in
  let H_top := hcat H zeros_pose_so in
  let DL := hcat D L in
  let LG := hcat (transpose n L) G in
  let DLG := vcat DL LG in
  let H_bot := hcat (transpose (2 * n) zeros_pose_so) DLG in
  let H_aug := vcat H_top H_bot in
  let E := E_dense m n hw d E in
  let E_aug := vcat (vcat E F) K in
  let v := concat v in
  let v_aug := v ++ vs ++ vo in
  (H_aug, E_aug, C, v_aug, w).

Section Solve.
Context `{Ext : Externals}.

(** [poses.retr(dx)] on a batch: one tangent per pose. *)
Definition retr_batch (poses : list pose) (dx : list (list f64))
  : option (list pose) :=
  if decide (length poses = length dx)
  then Some (zip_with retr poses dx)
  else None.

(** [get_keyframe_window]: the windows [x[:, :t1]]; the prior and the
    scale and shift windows are there when the tensors are. *)
Definition get_keyframe_window (poses : list pose) (intrinsics disps : list row)
    (t1 : nat) (disps_sens : option (list row))
    (scales shifts : option (list Qc)) :=
  (take t1 disps, take t1 poses, take t1 intrinsics,
   take t1 <$> disps_sens,
   match scales, shifts with
   | Some s, Some o => Some (take t1 s, take t1 o)
   | _, _ => None
   end).

(** Unpacking the returned list into six names raises when the list is
    shorter. *)
Definition unpack_window
    (r : list row * list pose * list row * option (list row) *
         option (list Qc * list Qc))
  : option (list row * list pose * list row * list row * list Qc * list Qc) :=
  let '(disps, poses, intrinsics, sens, so) := r in
  sens ← sens;
  so ← so;
  Some (disps, poses, intrinsics, sens, so.1, so.2).

(** [scatter_pose_structure]: the assembled blocks [H, E, C, v, w] for [m]
    free poses and [n] structure nodes. *)
Definition scatter_pose_structure (b : blocks) (ii jj kk : list Z)
    (m n : Z) (d hw : nat)
  : option (list row * list row * list row * list row * list row) :=
  let H := replicate (Z.to_nat (m * m)) (rzero (d * d)) in
  H ← safe_scatter_add_mat_inplace radd H (Hii b) ii ii m;
  H ← safe_scatter_add_mat_inplace radd H (Hij b) ii jj m;
  H ← safe_scatter_add_mat_inplace radd H (Hji b) jj ii m;
  H ← safe_scatter_add_mat_inplace radd H (Hjj b) jj jj m;
  (* H.reshape(bs, m, m, d, d) *)
  if decide (0 ≤ m) then
    v1 ← safe_scatter_add_vec (rzero d) radd (vi b) ii m;
    v2 ← safe_scatter_add_vec (rzero d) radd (vj b) jj m;
    v ← top Qcplus v1 v2;
    E1 ← safe_scatter_add_mat (rzero (hw * d)) radd int64 (Eik b) ii kk m n;
    E2 ← safe_scatter_add_mat (rzero (hw * d)) radd int64 (Ejk b) jj kk m n;
    E ← top Qcplus E1 E2;
    C ← safe_scatter_add_vec (rzero hw) radd (Ck b) kk n;
    w ← safe_scatter_add_vec (rzero hw) radd (wk b) kk n;
    Some (H, E, C, v, w)
  else None.

(** *** Motion-only *)

(** Step 3 of [MoBA]: Cholesky, then LU, then a zero update. *)
Definition MoBA_solve (H : mat) (v : row) : list f64 :=
  let dx := CholeskySolver_apply H v in
  if existsb isnan dx then
    let dx := LUSolver_apply H v in
    if existsb isnan dx then replicate (length dx) (Fin (Q2Qc 0)) else dx
  else dx.

(** The system [MoBA] assembles, and the update it solves for.  [rig] is
    left at its default [1] by the entry point, so [ii / rig - fixedp] is
    [ii - fixedp]. *)
Definition MoBA_system (target weight all_intrinsics : list row)
    (ii jj : list Z) (t0 t1 : nat) (ep lm : Qc) (st : store)
  : option (Z * mat * row) :=
  let disps := take t1 (all_disps st) in
  let poses := take t1 (all_poses st) in
  let intrinsics := take t1 all_intrinsics in
  let fixedp := Nat.max t0 1 in
  let d := manifold_dim in
  b ← linearize poses disps intrinsics ii jj target weight;
  let m := Z.of_nat (length disps) - Z.of_nat fixedp in
  let ii := (λ i, i - Z.of_nat fixedp) <$> ii in
  let jj := (λ j, j - Z.of_nat fixedp) <$> jj in
  let H := replicate (Z.to_nat (m * m)) (rzero (d * d)) in
  H ← safe_scatter_add_mat_inplace radd H (Hii b) ii ii m;
  H ← safe_scatter_add_mat_inplace radd H (Hij b) ii jj m;
  H ← safe_scatter_add_mat_inplace radd H (Hji b) jj ii m;
  H ← safe_scatter_add_mat_inplace radd H (Hjj b) jj jj m;
  (* H.reshape(bs, m, m, d, d) and torch.zeros(bs, m, d) *)
  if decide (0 ≤ m) then
    let v := replicate (Z.to_nat m) (rzero d) in
    v ← safe_scatter_add_vec_inplace radd v (vi b) ii;
    v ← safe_scatter_add_vec_inplace radd v (vj b) jj;
    let H := damp ep lm (to_dense (Z.to_nat m) d H) in
    let v := concat v in
    Some (m, H, v)
  else None.

Definition MoBA (target weight all_intrinsics : list row) (ii jj : list Z)
    (t0 t1 : nat) (ep lm : Qc) : M unit :=
  st <~ get ;;
  let poses := take t1 (all_poses st) in
  let fixedp := Nat.max t0 1 in
  sys <~ lift (MoBA_system target weight all_intrinsics ii jj t0 t1 ep lm st) ;;
  let '(m, H, v) := sys in
  let dx := MoBA_solve H v in
  dx <~ lift (rearrange (Z.to_nat m) manifold_dim dx) ;;
  let dx := (λ tangent : list f64, to_float32 <$> tangent) <$> dx in
  (* Update only un-fixed poses *)
  let poses1 := take fixedp poses in
  poses2 <~ lift (retr_batch (drop fixedp poses) dx) ;;
  write_poses t1 (poses1 ++ poses2).

(** *** Joint and structure-only *)

(** The damping of the structure diagonal in [BA].  With a prior:
    [m = (disps_sens[:, kx] > 0).int()],
    [C = C + alpha * m + (1 - m) * eta + 1e-7] and
    [w = w - m * alpha * (disps[:, kx] - disps_sens[:, kx])];
    without: [C = C + eta + 1e-7]. *)
Definition BA_damping (disps : list row) (disps_sens : option (list row))
    (kx : list Z) (alpha : Qc) (eta C w : list row)
  : option (list row * list row) :=
  match disps_sens with
  | Some disps_sens =>
      sk ← gather disps_sens kx;
      let m := tmap (λ s, if bool_decide (Q2Qc 0 < s)%Qc then 1%Qc
                          else Q2Qc 0) sk in
      c1 ← top Qcplus C (tmap (λ x, alpha * x)%Qc m);
      e ← top Qcmult (tmap (λ x, 1 - x)%Qc m) eta;
      c2 ← top Qcplus c1 e;
      dk ← gather disps kx;
      r ← top Qcminus dk sk;
      t ← top Qcmult (tmap (λ x, x * alpha)%Qc m) r;
      w' ← top Qcminus w t;
      Some (tmap (λ c, c + eps_floor)%Qc c2, w')
  | None =>
      c ← top Qcplus C eta;
      Some (tmap (λ c, c + eps_floor)%Qc c, w)
  end.

(** Steps 1 and 2 of [BA]: the nodes [kx] to update and the system. *)
Definition BA_system (target weight all_intrinsics : list row)
    (ii jj : list Z) (t0 t1 : nat) (eta : list row)
    (all_disps_sens : option (list row)) (alpha : Qc) (st : store)
  : option (list Z * list row * list row * row * list row * row) :=
  let disps := take t1 (all_disps st) in
  let poses := take t1 (all_poses st) in
  let intrinsics := take t1 all_intrinsics in
  let disps_sens := take t1 <$> all_disps_sens in
  let fixedp := Nat.max t0 1 in
  let hw := ncols disps in
  b ← linearize poses disps intrinsics ii jj target weight;
  let '(kx, kk) := unique ii in
  let N := Z.of_nat (length kx) in
  let M' := Z.of_nat (length disps) - Z.of_nat fixedp in
  let ii := (λ i, i `div` 1 - Z.of_nat fixedp) <$> ii in
  let jj := (λ j, j `div` 1 - Z.of_nat fixedp) <$> jj in
  sys ← scatter_pose_structure b ii jj kk M' N manifold_dim hw;
  let '(H, E, C, v, w) := sys in
  Cw ← BA_damping disps disps_sens kx alpha eta C w;
  Some (kx, H, E, concat Cw.1, v, concat Cw.2).

Definition BA (target weight all_intrinsics : list row) (ii jj : list Z)
    (t0 t1 : nat) (eta : list row) (all_disps_sens : option (list row))
    (alpha ep lm : Qc) (structure_only : bool) : M unit :=
  st <~ get ;;
  let disps := take t1 (all_disps st) in
  let poses := take t1 (all_poses st) in
  let fixedp := Nat.max t0 1 in
  let hw := ncols disps in
  sys <~ lift (BA_system target weight all_intrinsics ii jj t0 t1 eta
                 all_disps_sens alpha st) ;;
  let '(kx, H, E, C, v, w) := sys in
  let N := length kx in
  if structure_only then
    dz <~ lift (schur_block_solve_structure_only H E C v w ep lm) ;;
    dz <~ lift (rearrange N hw dz) ;;
    new <~ lift (additive_retr (rzero hw) radd disps dz kx) ;;
    write_disps t1 new
  else
    sol <~ lift (schur_block_solve H E C v w ep lm) ;;
    let '(dx, dz) := sol in
    dz <~ lift (rearrange N hw dz) ;;
    (* Update only un-fixed poses *)
    let poses1 := take fixedp poses in
    poses2 <~ lift (retr_batch (drop fixedp poses)
                      ((λ x : list Qc, Fin <$> x) <$> dx)) ;;
    (* Update global poses and disparities *)
    _ <~ write_poses t1 (poses1 ++ poses2) ;;
    new <~ lift (additive_retr (rzero hw) radd disps dz kx) ;;
    write_disps t1 new.

(** *** Prior-regularized joint *)

(** [x * scales[:, kx, None] + shifts[:, kx, None]] on the rows of [x]. *)
Definition scale_shift (x : list row) (s o : list Qc) : list row :=
  zip_with (λ (r : list Qc) (so : Qc * Qc), (λ p, p * so.1 + so.2)%Qc <$> r)
    x (zip s o).

Definition BA_prior_system (target weight all_intrinsics : list row)
    (ii jj : list Z) (t0 t1 : nat) (eta all_disps_sens : list row)
    (alpha : Qc) (st : store)
  : option (list Z * nat * mat * mat * row * row * row) :=
  win ← unpack_window
          (get_keyframe_window (all_poses st) all_intrinsics (all_disps st) t1
             (Some all_disps_sens) (all_scales st) (all_shifts st));
  let '(disps, poses, intrinsics, disps_sens, scales, shifts) := win in
  let fixedp := Nat.max t0 1 in
  let hw := ncols disps in
  let d := manifold_dim in
  b ← linearize poses disps intrinsics ii jj target weight;
  let '(kx, kk) := unique ii in
  let n := length kx in
  let m := Z.of_nat (length disps) - Z.of_nat fixedp in
  let ii := (λ i, i - Z.of_nat fixedp) <$> ii in
  let jj := (λ j, j - Z.of_nat fixedp) <$> jj in
  sys ← scatter_pose_structure b ii jj kk m (Z.of_nat n) d hw;
  let '(H, E, C, v, w) := sys in
  C ← top Qcplus (tmap (λ c, c + alpha * 1)%Qc C) eta;
  let C := concat C in
  sk ← gather disps_sens kx;
  s ← gather scales kx;
  o ← gather shifts kx;
  let scaled_prior := scale_shift sk s o in
  dk ← gather disps kx;
  r2 ← top Qcminus dk scaled_prior;
  w ← top Qcminus w (tmap (λ x, alpha * x)%Qc r2);
  let w := concat w in
  J ← get_regularizor_jacobians sk n hw;
  hs ← get_regularizor_hessians J.1 J.2 r2 alpha n hw;
  let '(F, K, D, G, L, vs, vo) := hs in
  let '(H_aug, E_aug, C, v_aug, w) :=
    get_augmented_hessian_and_rhs_full (Z.to_nat m) n hw d
      H E C D G F L K v w vs vo in
  Some (kx, Z.to_nat m, H_aug, E_aug, C, v_aug, w).

Definition BA_prior (target weight all_intrinsics : list row)
    (ii jj : list Z) (t0 t1 : nat) (eta all_disps_sens : list row)
    (ep lm alpha : Qc) : M unit :=
  st <~ get ;;
  win <~ lift (unpack_window
          (get_keyframe_window (all_poses st) all_intrinsics (all_disps st) t1
             (Some all_disps_sens) (all_scales st) (all_shifts st))) ;;
  let '(disps, poses, intrinsics, disps_sens, scales, shifts) := win in
  let fixedp := Nat.max t0 1 in
  let hw := ncols disps in
  let d := manifold_dim in
  sys <~ lift (BA_prior_system target weight all_intrinsics ii jj t0 t1 eta
                 all_disps_sens alpha st) ;;
  let '(kx, m, H_aug, E_aug, C, v_aug, w) := sys in
  let n := length kx in
  sol <~ lift (schur_solve H_aug E_aug C v_aug w ep lm (Some "lu"%string)) ;;
  let '(dxso, dz) := sol in
  let dx := take (d * m) dxso in
  let ds := take n (drop (d * m) dxso) in
  let do := drop (d * m + n) dxso in
  dz <~ lift (rearrange n hw dz) ;;
  dx <~ lift (rearrange m d dx) ;;
  (* Update only un-fixed poses *)
  let poses1 := take fixedp poses in
  poses2 <~ lift (retr_batch (drop fixedp poses)
                    ((λ x : list Qc, Fin <$> x) <$> dx)) ;;
  (* Update global poses, disparities, scales and shifts *)
  _ <~ write_poses t1 (poses1 ++ poses2) ;;
  new <~ lift (additive_retr (rzero hw) radd disps dz kx) ;;
  _ <~ write_disps t1 new ;;
  new <~ lift (additive_retr (Q2Qc 0) Qcplus scales ds kx) ;;
  _ <~ write_scales t1 new ;;
  new <~ lift (additive_retr (Q2Qc 0) Qcplus shifts do kx) ;;
  write_shifts t1 new.

(** *** Prior-regularized structure-only *)

(** [J[:, :, ~keep] = zeros]: the columns outside [keep] are overwritten by
    zeros. *)
Definition zero_columns (keep : list bool) (J : mat) : mat :=
  (λ r : list Qc,
     imap (λ (c : nat) (x : Qc),
             match keep !! c with Some false => Q2Qc 0 | _ => x end) r)
  <$> J.

(** [x[:, v] = x[:, v] - alpha * r2[:, v]]. *)
Definition sub_scaled_where (v : list bool) (alpha : Qc) (x r2 : list row)
  : option (list row) :=
  upd ← top Qcminus (mask v x) (tmap (λ y, alpha * y)%Qc (mask v r2));
  mask_assign v x upd.

(** What [BA_prior_no_motion] assembles before it solves. *)
Record prior_system := {
  (** the expanded nodes [kx_exp] and which of them some edge leaves *)
  ps_kx_exp : list Z;
  ps_non_empty : list bool;
  (** [C_exp] and [w_exp] as padded, before damping and prior are added *)
  ps_C_pad : list row;
  ps_w_pad : list row;
  (** [C_exp], [w_exp] and [r2] as handed on *)
  ps_C_exp : list row;
  ps_w_exp : list row;
  ps_r2 : list row;
  (** the Jacobians of the prior residual *)
  ps_Js_exp : mat;
  ps_Jo_exp : mat;
}.

Definition BA_prior_no_motion_system (target weight all_intrinsics : list row)
    (ii jj : list Z) (t0 t1 : nat) (eta all_disps_sens : list row)
    (alpha : Qc) (st : store) : option prior_system :=
  win ← unpack_window
          (get_keyframe_window (all_poses st) all_intrinsics (all_disps st) t1
             (Some all_disps_sens) (all_scales st) (all_shifts st));
  let '(disps, poses, intrinsics, disps_sens, scales, shifts) := win in
  let hw := ncols disps in
  b ← linearize poses disps intrinsics ii jj target weight;
  let '(kx, kk) := unique ii in
  let ts := arange t0 t1 in
  let '(kx_exp, kk_exp) := unique (ts ++ ii) in
  let n := length kx in
  let n_exp := length kx_exp in
  let empty_nodes := (Z.of_nat n_exp - Z.of_nat n) in
  C ← safe_scatter_add_vec (rzero hw) radd (Ck b) kk (Z.of_nat n);
  w ← safe_scatter_add_vec (rzero hw) radd (wk b) kk (Z.of_nat n);
  let non_empty_nodes := isin kx_exp kx in
  C_pad ← mask_assign non_empty_nodes (replicate n_exp (rzero hw)) C;
  w_pad ← mask_assign non_empty_nodes (replicate n_exp (rzero hw)) w;
  C_exp ← top Qcplus (tmap (λ c, c + alpha * 1)%Qc C_pad) eta;
  sk ← gather disps_sens kx_exp;
  s ← gather scales kx_exp;
  o ← gather shifts kx_exp;
  let scaled_prior := scale_shift sk s o in
  dk ← gather disps kx_exp;
  r2 ← top Qcminus dk scaled_prior;
  w_exp ← sub_scaled_where non_empty_nodes alpha w_pad r2;
  J ← get_regularizor_jacobians sk n_exp hw;
  let '(Js_exp, Jo_exp) := J in
  let Js_exp := if decide (0 < empty_nodes)
                then zero_columns non_empty_nodes Js_exp else Js_exp in
  let Jo_exp := if decide (0 < empty_nodes)
                then zero_columns non_empty_nodes Jo_exp else Jo_exp in
  Some {| ps_kx_exp := kx_exp; ps_non_empty := non_empty_nodes;
          ps_C_pad := C_pad; ps_w_pad := w_pad;
          ps_C_exp := C_exp; ps_w_exp := w_exp; ps_r2 := r2;
          ps_Js_exp := Js_exp; ps_Jo_exp := Jo_exp |}.

(** The update [(ds, do, dz)] that [BA_prior_no_motion] solves for. *)
Definition BA_prior_no_motion_solve (hw : nat) (alpha ep lm : Qc)
    (ps : prior_system) : option (list Qc * list Qc * list row) :=
  let n_exp := length (ps_kx_exp ps) in
  hs ← get_regularizor_hessians (ps_Js_exp ps) (ps_Jo_exp ps) (ps_r2 ps)
         alpha n_exp hw;
  let '(F, K, D, G, L, vs, vo) := hs in
  let DL := hcat D L in
  let LG := hcat (transpose n_exp L) G in
  let H := vcat DL LG in
  let E := vcat F K in
  let v := vs ++ vo in
  sol ← schur_solve H E (concat (ps_C_exp ps)) v (concat (ps_w_exp ps))
          ep lm None;
  let '(dso, dz) := sol in
  let ds := take n_exp dso in
  let do := drop n_exp dso in
  dz ← rearrange n_exp hw dz;
  Some (ds, do, dz).

Definition BA_prior_no_motion (target weight all_intrinsics : list row)
    (ii jj : list Z) (t0 t1 : nat) (eta all_disps_sens : list row)
    (ep lm alpha : Qc) : M unit :=
  st <~ get ;;
  win <~ lift (unpack_window
          (get_keyframe_window (all_poses st) all_intrinsics (all_disps st) t1
             (Some all_disps_sens) (all_scales st) (all_shifts st))) ;;
  let '(disps, poses, intrinsics, disps_sens, scales, shifts) := win in
  let hw := ncols disps in
  ps <~ lift (BA_prior_no_motion_system target weight all_intrinsics ii jj
                t0 t1 eta all_disps_sens alpha st) ;;
  upd <~ lift (BA_prior_no_motion_solve hw alpha ep lm ps) ;;
  let '(ds, do, dz) := upd in
  let kx_exp := ps_kx_exp ps in
  new <~ lift (additive_retr (rzero hw) radd disps dz kx_exp) ;;
  _ <~ write_disps t1 new ;;
  new <~ lift (additive_retr (Q2Qc 0) Qcplus scales ds kx_exp) ;;
  _ <~ write_scales t1 new ;;
  new <~ lift (additive_retr (Q2Qc 0) Qcplus shifts do kx_exp) ;;
  write_shifts t1 new.

(** ** The entry point *)

(** The loop of [bundle_adjustment]: one solve, then
    [disps.clamp(min=0.001)], whose result the source does not bind. *)
Fixpoint ba_loop (iters : nat) (ba_function : M unit) : M unit :=
  match iters with
  | O => ret tt
  | S iters' =>
      _ <~ ba_function ;;
      st <~ get ;;
      let _unbound := clamp disp_floor (all_disps st) in
      ba_loop iters' ba_function
  end.

(** [bundle_adjustment(target, weight, damping, poses, disps, intrinsics, ii,
    jj, t0, t1, disps_sens, scales, shifts, iters, lm, ep, structure_only,
    motion_only, scale_prior, alpha)]; [poses], [disps], [scales] and
    [shifts] are the store it mutates. *)
Definition bundle_adjustment (target weight damping intrinsics : list row)
    (ii jj : list Z) (t0 t1 : nat) (disps_sens : option (list row))
    (iters : nat) (lm ep : Qc)
    (structure_only motion_only scale_prior : bool) (alpha : Qc) : M unit :=
  _ <~ assert_ (Nat.b2n structure_only + Nat.b2n motion_only <=? 1)%nat ;;
  st <~ get ;;
  _ <~ (if scale_prior then
          _ <~ assert_ (bool_decide (is_Some disps_sens)) ;;
          (* scales.unsqueeze(0), shifts.unsqueeze(0) *)
          lift (_ ← all_scales st; _ ← all_shifts st; Some tt)
        else ret tt) ;;
  let ba_function :=
    if motion_only then MoBA target weight intrinsics ii jj t0 t1 ep lm
    else if scale_prior then
      match disps_sens with
      | Some sens =>
          if structure_only
          then BA_prior_no_motion target weight intrinsics ii jj t0 t1
                 damping sens ep lm alpha
          else BA_prior target weight intrinsics ii jj t0 t1
                 damping sens ep lm alpha
      | None => lift None
      end
    else BA target weight intrinsics ii jj t0 t1 damping disps_sens
           alpha ep lm structure_only in
  ba_loop iters ba_function.

End Solve.

(** ** The orchestrator of [slam.py] *)

(** *** Python numbers *)

(** A Python [float] is an IEEE binary64 number ([spec_float] with a
    precision of 53 bits); its arithmetic rounds to the nearest number, ties
    to even. *)
Definition fadd : spec_float → spec_float → spec_float := SFadd 53 1024.
Definition fsub : spec_float → spec_float → spec_float := SFsub 53 1024.
Definition fmul : spec_float → spec_float → spec_float := SFmul 53 1024.
Definition fdiv : spec_float → spec_float → spec_float := SFdiv 53 1024.

(** [float(z)] of an [int]: the nearest [float], and [OverflowError] when
    that is beyond the largest one. *)
Definition float_of_int (z : Z) : exn + spec_float :=
  match binary_normalize 53 1024 z 0 false with
  | S754_infinity _ => inl OverflowError
  | f => inr f
  end.

(** A number of a configuration file: an [int] or a [float]. *)
Inductive number :=
| Int (z : Z)
| Float (f : spec_float).

(** [float(x)]. *)
Definition to_float (x : number) : exn + spec_float :=
  match x with
  | Int z => float_of_int z
  | Float f => inr f
  end.

(** [x + y], [x - y] and [x * y]: exact on two [int]s; with a [float]
    among them the other one is converted first. *)
Definition arith (zop : Z → Z → Z)
    (fop : spec_float → spec_float → spec_float) (x y : number)
  : exn + number :=
  match x, y with
  | Int a, Int b => inr (Int (zop a b))
  | _, _ => a ← to_float x; b ← to_float y; inr (Float (fop a b))
  end.

(** [x / y] for a [float] [y]: a zero divisor, of either sign, raises
    [ZeroDivisionError]. *)
Definition truediv (x : number) (y : spec_float) : exn + spec_float :=
  a ← to_float x;
  if SFeqb y (S754_zero false) then inl ZeroDivisionError
  else inr (fdiv a y).

(** *** The configuration *)

(** [cfg.data.cam]: the size and intrinsics of the input images, the edge
    to crop and the size of the output images. *)
Record cam := {
  cam_H : number; cam_W : number;
  cam_fx : number; cam_fy : number; cam_cx : number; cam_cy : number;
  H_edge : number; W_edge : number;
  H_out : number; W_out : number;
}.

(** The fields of the configuration that [__init__], [sanity_checks] and the
    backend lifecycle read. *)
Record config := {
  mode : string;
  evaluate : bool;
  run_mapping : bool;
  run_mapping_gui : bool;
  use_non_keyframes : bool;
  refinement_iters : Z;
  (** [cfg.get("save_renders", False)] reads this entry, when it is there *)
  cfg_save_renders : option bool;
  (** [cfg.get("max_ram_usage", 0.9)] reads this entry, when it is there *)
  cfg_max_ram_usage : option Qc;
  (** [cfg.data.cam] *)
  data_cam : cam;
  (** [cfg.tracking.pretrained] *)
  pretrained : string;
}.

(** The two flags of [DepthVideo] that [sanity_checks] reads. *)
Record video_flags := {
  optimize_scales : bool;
  opt_intr : bool;
}.

(** The calls of [__init__] into classes that [slam.py] imports: the
    constructors, and moving the network to the device
    ([self.net.to(self.device).eval()], [self.net.share_memory()]). *)
Inductive startup_call :=
| New_DroidNet
| Net_to_device
| New_DepthVideo
| New_FrontendWrapper
| New_BackendWrapper
| New_PoseTrajectoryFiller
  (** [GaussianMapper(cfg, self)], with [gui_qs] or without *)
| New_GaussianMapper (gui : bool)
| New_ParamsGUI.

(** What [slam.py] imports from the rest of the repository and from the
    operating system. *)
Class Workers := {
  (** an instance of [BackendWrapper] *)
  Backend : Type;
  (** [BackendWrapper(cfg, self)] *)
  BackendWrapper : config → Backend;
  (** [backend.to(device)] *)
  backend_to : Backend → Backend;
  (** one call [self.backend()] of the loop of [global_ba] *)
  backend_call : Backend → Backend;
  (** [DepthVideo(cfg)] *)
  DepthVideo : config → video_flags;
  (** At start-up each of these calls may raise instead: the exception of
      [__init__]'s call, if there is one.  [BackendWrapper] and [DepthVideo]
      above give the instance built when there is none. *)
  startup : startup_call → config → exn + unit;
  (** [os.makedirs(path, exist_ok=True)] *)
  makedirs : string → exn + unit;
  (** One slice of a tensor of a checkpoint along its first dimension. *)
  Weight : Type;
  (** [torch.load(pretrained).items()] *)
  torch_load : string → exn + list (string * list Weight);
  (** [self.net.load_state_dict(state_dict)] *)
  load_state_dict : list (string * list Weight) → exn + unit;
}.

(** What the main process prints about the backend. *)
Inductive message :=
| DeletingBackend
| ReinstantiatingBackend.

(** [s.replace(old, new)] for a non-empty [old]: the occurrences of [old]
    from left to right, none overlapping another; [skip] counts the
    characters of an occurrence that are still to be passed over. *)
Fixpoint replace_from (old new : string) (skip : nat) (s : string) : string :=
  match s with
  | EmptyString => EmptyString
  | String ch s' =>
      match skip with
      | S k => replace_from old new k s'
      | O =>
          if String.prefix old s
          then String.append new
                 (replace_from old new (String.length old - 1) s')
          else String ch (replace_from old new O s')
      end
  end.

Definition str_replace (old new s : string) : string :=
  replace_from old new 0 s.

(** An [OrderedDict]: [d[k]] and [d[k] = v]. *)
Definition od_get {V : Type} (k : string) (d : list (string * V)) : option V :=
  snd <$> find (λ kv, String.eqb kv.1 k) d.

Definition od_set {V : Type} (k : string) (v : V) (d : list (string * V))
  : list (string * V) :=
  if existsb (λ kv, String.eqb kv.1 k) d
  then (λ kv, if String.eqb kv.1 k then (k, v) else kv) <$> d
  else d ++ [(k, v)].

(** [OrderedDict(items)]. *)
Definition OrderedDict {V : Type} (items : list (string * V))
  : list (string * V) :=
  foldl (λ d kv, od_set kv.1 kv.2 d) [] items.

(** [state_dict[k] = state_dict[k][:2]]; a missing key raises [KeyError]. *)
Definition keep_two {V : Type} (k : string) (d : list (string * list V))
  : exn + list (string * list V) :=
  match od_get k d with
  | Some v => inr (od_set k (take 2 v) d)
  | None => inl KeyError
  end.

(** The keys of the entries that [load_pretrained] cuts to two slices. *)
Definition narrowed : list string :=
  ["update.weight.2.weight"; "update.weight.2.bias";
   "update.delta.2.weight"; "update.delta.2.bias"]%string.

Section Slam.
Context `{Wk : Workers}.

Record SLAM := {
  cfg : config;
  video : video_flags;
  max_ram_usage : Qc;
  backend : option Backend;
  printed : list message;
}.

(** [sanity_checks]: the exception it raises, if any. *)
Definition sanity_checks (self : SLAM) : option exn :=
  if String.eqb (mode (cfg self)) "stereo" then Some NotImplementedError
  else if String.eqb (mode (cfg self)) "prgbd"
          && (optimize_scales (video self) && opt_intr (video self))
       then Some AssertionError
  else if run_mapping (cfg self) && use_non_keyframes (cfg self)
          && negb (0 <? refinement_iters (cfg self))
       then Some AssertionError
  else None.

(** [create_out_dirs(output_folder)]: the output folder that it sets. *)
Definition create_out_dirs (save_renders : bool)
    (output_folder : option string) : exn + string :=
  let output := default "./outputs/"%string output_folder in
  _ ← makedirs output;
  _ ← (if save_renders then
         _ ← makedirs (String.append output "/intermediate_renders/");
         _ ← makedirs (String.append output "/intermediate_renders/final");
         makedirs (String.append output "/intermediate_renders/temp")
       else inr ());
  _ ← makedirs (String.append output "/evaluation");
  inr output.

(** The fields [update_cam] sets. *)
Record camera := {
  self_fx : spec_float; self_fy : spec_float;
  self_cx : spec_float; self_cy : spec_float;
  self_H : number; self_W : number;
}.

(** [f * (out + edge * 2) / size], for [size] a [float]. *)
Definition rescale (f out edge : number) (size : spec_float)
  : exn + spec_float :=
  e ← arith Z.mul fmul edge (Int 2);
  s ← arith Z.add fadd out e;
  n ← arith Z.mul fmul f s;
  truediv n size.

(** [update_cam(cfg)]. *)
Definition update_cam (c : cam) : exn + camera :=
  H ← to_float (cam_H c);
  W ← to_float (cam_W c);
  fx ← rescale (cam_fx c) (W_out c) (W_edge c) W;
  fy ← rescale (cam_fy c) (H_out c) (H_edge c) H;
  cx ← rescale (cam_cx c) (W_out c) (W_edge c) W;
  cy ← rescale (cam_cy c) (H_out c) (H_edge c) H;
  w_edge ← to_float (W_edge c);
  h_edge ← to_float (H_edge c);
  inr {| self_fx := fx; self_fy := fy;
         self_cx := fsub cx w_edge; self_cy := fsub cy h_edge;
         self_H := H_out c; self_W := W_out c |}.

(** [load_pretrained(pretrained)]: the state dictionary that the network
    has loaded. *)
Definition load_pretrained (pretrained : string)
  : exn + list (string * list Weight) :=
  items ← torch_load pretrained;
  let state_dict :=
    OrderedDict ((λ kv, (str_replace "module." "" kv.1, kv.2)) <$> items) in
  state_dict ← keep_two "update.weight.2.weight" state_dict;
  state_dict ← keep_two "update.weight.2.bias" state_dict;
  state_dict ← keep_two "update.delta.2.weight" state_dict;
  state_dict ← keep_two "update.delta.2.bias" state_dict;
  _ ← load_state_dict state_dict;
  inr state_dict.

(** [SLAM.__init__] up to its last statement.  Of the attributes that it
    sets, the object keeps here those that [sanity_checks] and the backend
    lifecycle read; the shared counters, queues and events that it creates
    in between are left out. *)
Definition SLAM_setup (c : config) (output_folder : option string)
  : exn + SLAM :=
  _ ← create_out_dirs (default false (cfg_save_renders c)) output_folder;
  _ ← update_cam (data_cam c);
  _ ← startup New_DroidNet c;
  _ ← load_pretrained (pretrained c);
  _ ← startup Net_to_device c;
  _ ← startup New_DepthVideo c;
  _ ← startup New_FrontendWrapper c;
  _ ← startup New_BackendWrapper c;
  _ ← startup New_PoseTrajectoryFiller c;
  let gui := run_mapping_gui c && run_mapping c && negb (evaluate c) in
  _ ← startup (New_GaussianMapper gui) c;
  _ ← (if gui then startup New_ParamsGUI c else inr ());
  inr {| cfg := c;
         video := DepthVideo c;
         max_ram_usage := default (Q2Qc (9 # 10)) (cfg_max_ram_usage c);
         backend := Some (BackendWrapper c);
         printed := [] |}.

(** [SLAM.__init__]: [sanity_checks] runs last. *)
Definition SLAM_init (c : config) (output_folder : option string)
  : exn + SLAM :=
  self ← SLAM_setup c output_folder;
  match sanity_checks self with
  | Some e => inl e
  | None => inr self
  end.

(** [SLAM.run] builds six processes and starts each of them: the names of
    the processes started. *)
Definition run (self : SLAM) : list string :=
  ["OpenCV Stream"; "Frontend Tracking"; "Backend"; "Visualizing";
   "Gaussian Mapping"; "Mapping GUI"]%string.

(** Constructing the system and running it, as any caller has to: [run] is
    a method of the object that [__init__] returns. *)
Definition construct_and_run (c : config) (output_folder : option string)
  : exn + list string :=
  match SLAM_init c output_folder with
  | inl e => inl e
  | inr self => inr (run self)
  end.

(** [get_ram_usage] on the [(free, total)] bytes that
    [torch.cuda.mem_get_info] reports. *)
Definition get_ram_usage (mem : Z * Z) : Qc * Z :=
  ((1 - Q2Qc (inject_Z mem.1) / Q2Qc (inject_Z mem.2))%Qc, mem.1).

(** [ram_safeguard_backend(max_ram, min_ram)]. *)
Definition ram_safeguard_backend (max_ram min_ram : Qc) (mem : Z * Z)
    (self : SLAM) : SLAM :=
  let '(used_mem, free_mem) := get_ram_usage mem in
  let self :=
    if bool_decide (max_ram < used_mem)%Qc && bool_decide (is_Some (backend self))
    then {| cfg := cfg self; video := video self;
            max_ram_usage := max_ram_usage self;
            backend := None;
            printed := printed self ++ [DeletingBackend] |}
    else self in
  if bool_decide (backend self = None) && bool_decide (used_mem ≤ min_ram)%Qc
  then {| cfg := cfg self; video := video self;
          max_ram_usage := max_ram_usage self;
          backend := Some (backend_to (BackendWrapper (cfg self)));
          printed := printed self ++ [ReinstantiatingBackend] |}
  else self.

(** The default [min_ram] of [ram_safeguard_backend]. *)
Definition min_ram_default : Qc := Q2Qc (5 # 10).

(** One turn of the loop of [global_ba]: the safeguard, then bundle
    adjustment if there is a backend; the flag says whether it ran. *)
Definition global_ba_cycle (mem : Z * Z) (self : SLAM) : SLAM * bool :=
  let self := ram_safeguard_backend (max_ram_usage self) min_ram_default
                mem self in
  match backend self with
  | Some b => ({| cfg := cfg self; video := video self;
                  max_ram_usage := max_ram_usage self;
                  backend := Some (backend_call b);
                  printed := printed self |}, true)
  | None => (self, false)
  end.

End Slam.

(** ** Collaborators and inputs for running the model *)

Global Instance f64_eq_dec : EqDecision f64.
Proof. solve_decision. Defined.

(** A linearization whose blocks are all zero: [n] edges, [hw] pixels. *)
Definition zero_blocks (n hw : nat) : blocks :=
  {| Hii := replicate n (rzero (manifold_dim * manifold_dim));
     Hij := replicate n (rzero (manifold_dim * manifold_dim));
     Hji := replicate n (rzero (manifold_dim * manifold_dim));
     Hjj := replicate n (rzero (manifold_dim * manifold_dim));
     Eik := replicate n (rzero (hw * manifold_dim));
     Ejk := replicate n (rzero (hw * manifold_dim));
     Ck := replicate n (rzero hw);
     vi := replicate n (rzero manifold_dim);
     vj := replicate n (rzero manifold_dim);
     wk := replicate n (rzero hw) |}.

(** Collaborators with constant answers: a pose is the last tangent applied
    to it, the dense solvers answer [chol] and [lu] in every entry, and the
    Schur solvers answer a zero pose update and [dz] in every other entry. *)
Definition const_externals (dz : Qc) (chol lu : f64) : Externals :=
  {| pose := list f64;
     retr := λ _ dx, dx;
     linearize := λ _ disps _ ii _ _ _,
       Some (zero_blocks (length ii) (ncols disps));
     CholeskySolver_apply := λ _ v, (λ _, chol) <$> v;
     LUSolver_apply := λ _ v, (λ _, lu) <$> v;
     schur_block_solve := λ _ _ C v _ _ _,
       Some ((λ r : list Qc, (λ _, Q2Qc 0) <$> r) <$> v, (λ _, dz) <$> C);
     schur_block_solve_structure_only := λ _ _ C _ _ _ _,
       Some ((λ _, dz) <$> C);
     schur_solve := λ _ _ C v _ _ _ _,
       Some ((λ _, dz) <$> v, (λ _, dz) <$> C) |}.

(** [n] keyframes of one pixel each: disparity [1/2], scale [1], shift [0]. *)
Definition keyframes `{Ext : Externals} (p : pose) (n : nat) : store :=
  {| all_poses := replicate n p;
     all_disps := replicate n [Q2Qc (1 # 2)];
     all_scales := Some (replicate n 1%Qc);
     all_shifts := Some (replicate n (Q2Qc 0)) |}.

(** [torch.zeros_like(x)]. *)
Definition zeros_like (x : list row) : list row := tmap (λ _, Q2Qc 0) x.

(** Workers with a backend that counts its calls.  No call at start-up
    raises, and the checkpoint holds the four entries that
    [load_pretrained] narrows, three slices each, under the keys of a
    wrapped network. *)
Definition counting_workers (scales intr : bool) : Workers :=
  {| Backend := nat;
     BackendWrapper := λ _, 0%nat;
     backend_to := λ b, b;
     backend_call := S;
     DepthVideo := λ _, {| optimize_scales := scales; opt_intr := intr |};
     startup := λ _ _, inr ();
     makedirs := λ _, inr ();
     Weight := nat;
     torch_load := λ _,
       inr [("module.update.weight.2.weight", [1; 2; 3]);
            ("module.update.weight.2.bias", [4; 5; 6]);
            ("module.update.delta.2.weight", [7; 8; 9]);
            ("module.update.delta.2.bias", [10; 11; 12])]%string%nat;
     load_state_dict := λ _, inr () |}.

(** Images of [480 x 640] pixels, cropped by [8] and [16] pixels at the
    edges; the focal lengths and the principal point are [float]s. *)
Definition cam_of (H W : number) : cam :=
  {| cam_H := H; cam_W := W;
     cam_fx := Float (fdiv (binary_normalize 53 1024 5173 0 false)
                           (binary_normalize 53 1024 10 0 false));
     cam_fy := Float (fdiv (binary_normalize 53 1024 5165 0 false)
                           (binary_normalize 53 1024 10 0 false));
     cam_cx := Float (fdiv (binary_normalize 53 1024 3186 0 false)
                           (binary_normalize 53 1024 10 0 false));
     cam_cy := Float (fdiv (binary_normalize 53 1024 2553 0 false)
                           (binary_normalize 53 1024 10 0 false));
     H_edge := Int 8; W_edge := Int 16;
     H_out := Int 464; W_out := Int 608 |}.

Definition config_of (m : string) (max_ram : option Qc) : config :=
  {| mode := m; evaluate := false; run_mapping := false;
     run_mapping_gui := false; use_non_keyframes := false;
     refinement_iters := 0; cfg_save_renders := None;
     cfg_max_ram_usage := max_ram;
     data_cam := cam_of (Int 480) (Int 640);
     pretrained := "droid.pth" |}.

(** Mapping with non-keyframes and no refinement iterations. *)
Definition unrefined_mapping : config :=
  {| mode := "mono"; evaluate := false; run_mapping := true;
     run_mapping_gui := false; use_non_keyframes := true;
     refinement_iters := 0; cfg_save_renders := None;
     cfg_max_ram_usage := None;
     data_cam := cam_of (Int 480) (Int 640);
     pretrained := "droid.pth" |}.

(** ** Concrete calls *)

(** Two keyframes, one edge from frame [0] to frame [1], the window
    [[0, 2)], the default dampings; the Schur solver answers [-1] for every
    disparity. *)
Definition negative_update : Externals :=
  const_externals (Q2Qc (-1)) (Fin (Q2Qc 0)) (Fin (Q2Qc 0)).

Definition joint_call (iters : nat) : outcome (Ext := negative_update) unit :=
  bundle_adjustment (Ext := negative_update)
    [[]] [[]] [[Q2Qc 0]] [[]; []] [0] [1] 0 2 None iters
    (Q2Qc (1 # 10000)) (Q2Qc (1 # 10)) false false false 1%Qc
    (keyframes (Ext := negative_update) [] 2).

(** The same call on three keyframes: frame [2] is beyond the window. *)
Definition joint_call_of_three : outcome (Ext := negative_update) unit :=
  bundle_adjustment (Ext := negative_update)
    [[]] [[]] [[Q2Qc 0]] [[]; []; []] [0] [1] 0 2 None 2
    (Q2Qc (1 # 10000)) (Q2Qc (1 # 10)) false false false 1%Qc
    (keyframes (Ext := negative_update) [] 3).






(** A main process whose high-water mark, [0.3], lies below the low-water
    mark [0.5], with a backend that has run five times. *)
Definition low_high_water_mark : SLAM (Wk := counting_workers false false) :=
  @Build_SLAM (counting_workers false false)
    (config_of "mono" (Some (Q2Qc (3 # 10))))
    {| optimize_scales := false; opt_intr := false |}
    (Q2Qc (3 # 10)) (Some 5%nat) [].

(** ** More of the orchestrator of [slam.py] *)

(** *** The tracking process *)

Section Tracking.
Context {Image DepthMap Intrinsic GtPose Mask : Type}.

(** One item of the input stream: a tuple of five entries, or of six when it
    carries a mask of the static pixels. *)
Record frame := {
  timestamp : Z;
  image : Image;
  depth : option DepthMap;
  intrinsic : Intrinsic;
  gt_pose : GtPose;
  static_mask : option Mask;
}.

(** What [tracking] does to its surroundings: it puts items into the input
    queue, and it calls the frontend. *)
Inductive event :=
| Put_image (i : Image)
| Put_depth (d : option DepthMap)
| Frontend (t : Z) (i : Image) (d : option DepthMap) (k : Intrinsic)
    (g : GtPose) (m : option Mask).

(** The two unpacking statements: six names need a tuple of six entries,
    five names one of five. *)
Definition unpack_frame (with_masks : bool) (fr : frame)
  : option (option Mask) :=
  match with_masks, static_mask fr with
  | true, Some m => Some (Some m)
  | false, None => Some None
  | _, _ => None
  end.

(** [if self.mode not in ["rgbd", "prgbd"]: depth = None]. *)
Definition depth_for (mode : string) (fr : frame) : option DepthMap :=
  if String.eqb mode "rgbd" || String.eqb mode "prgbd" then depth fr
  else None.

(** What one frame inside [[t_start, t_stop]] causes. *)
Definition process (mode : string) (show_stream : bool) (fr : frame)
    (m : option Mask) : list event :=
  (if show_stream
   then [Put_image (image fr); Put_depth (depth_for mode fr)] else [])
  ++ [Frontend (timestamp fr) (image fr) (depth_for mode fr) (intrinsic fr)
        (gt_pose fr) m].

(** The loop of [tracking] over the stream: the events in order, and
    whether the loop ended without an exception.  [with_masks] is
    [cfg.with_dyn and stream.has_dyn_masks]. *)
Fixpoint tracking (with_masks : bool) (mode : string) (t_start : Z)
    (t_stop : option Z) (show_stream : bool) (stream : list frame)
  : list event * bool :=
  match stream with
  | [] => ([], true)
  | fr :: rest =>
      match unpack_frame with_masks fr with
      | None => ([], false)
      | Some m =>
          if timestamp fr <? t_start
          then tracking with_masks mode t_start t_stop show_stream rest
          else if match t_stop with
                  | Some s => s <? timestamp fr
                  | None => false
                  end
          then ([], true)
          else
            let r := tracking with_masks mode t_start t_stop show_stream
                       rest in
            (process mode show_stream fr m ++ r.1, r.2)
      end
  end.

End Tracking.

(** *** The backend process *)

(** The passes of the final refinement. *)
Inductive refinement :=
| loop_ba (t_start t_end : Z) (steps : nat)
| dense_ba (t_start t_end : Z) (steps : nat).

Section GlobalBA.
Context `{Wk : Workers}.
(** [backend.do_refinement] and [backend.enable_loop]. *)
Variables (do_refinement enable_loop : Backend → bool).

(** The loop of [global_ba]: one turn per memory sample taken while the
    tracking has not finished; the object after the loop, and how many times
    the backend ran. *)
Fixpoint global_ba_loop (mems : list (Z * Z)) (self : SLAM) : SLAM * nat :=
  match mems with
  | [] => (self, O)
  | mem :: mems' =>
      let r := global_ba_cycle mem self in
      let r' := global_ba_loop mems' r.1 in
      (r'.1, (Nat.b2n r.2 + r'.2)%nat)
  end.

(** [global_ba(rank, run)]: the loop, the refinement over [[0, t_end]] when
    there is a backend that asks for it, and [del self.backend]. *)
Definition global_ba (run : bool) (mems : list (Z * Z)) (t_end : Z)
    (self : SLAM) : SLAM * nat * list refinement :=
  let r := if run then global_ba_loop mems self else (self, O) in
  let self := r.1 in
  let passes :=
    match backend self with
    | Some b =>
        if run && do_refinement b
        then if enable_loop b
             then [loop_ba 0 t_end 6; loop_ba 0 t_end 6]
             else [dense_ba 0 t_end 6; dense_ba 0 t_end 6]
        else []
    | None => []
    end in
  ({| cfg := cfg self; video := video self;
      max_ram_usage := max_ram_usage self;
      backend := None; printed := printed self |}, r.2, passes).

End GlobalBA.

(** ** [torch_intersect1d] of [gaussian_splatting/eval_utils.py] *)

(** [torch.unique(x, return_inverse=True, return_counts=True)]. *)
Definition count (x : Z) (l : list Z) : Z :=
  Z.of_nat (length (filter (x =.) l)).

Definition unique_counts (l : list Z) : list Z * list Z * list Z :=
  let '(u, inv) := unique l in
  (u, inv, (λ x, count x l) <$> u).

(** [m.nonzero()[..., 0]]: the positions of the true entries, from
    position [k] on. *)
Fixpoint nonzero (k : Z) (m : list bool) : list Z :=
  match m with
  | [] => []
  | b :: m' => (if b then [k] else []) ++ nonzero (k + 1) m'
  end.

(** [torch_intersect1d(t1, t2)] on one-dimensional tensors: the
    intersection, what only [t1] has and what only [t2] has. *)
Definition torch_intersect1d (t1 t2 : list Z)
  : option (list Z * list Z * list Z) :=
  let num_t1 := length t1 in
  let '(u, inv, cnt) := unique_counts (t1 ++ t2) in
  cnt_12 ← gather cnt inv;
  let cnt_t1 := take num_t1 cnt_12 in
  let cnt_t2 := drop num_t1 cnt_12 in
  let m_t1 := (λ c, bool_decide (c = 2)) <$> cnt_t1 in
  let inds_t1 := nonzero 0 m_t1 in
  let inds_t1_exclusive := nonzero 0 (negb <$> m_t1) in
  let inds_t2_exclusive :=
    nonzero 0 ((λ c, bool_decide (c = 1)) <$> cnt_t2) in
  intersection ← gather t1 inds_t1;
  t1_exclusive ← gather t1 inds_t1_exclusive;
  t2_exclusive ← gather t2 inds_t2_exclusive;
  Some (intersection, t1_exclusive, t2_exclusive).

(** ** The rendering evaluation of [gaussian_splatting/eval_utils.py] *)

(** What [eval_rendering] calls: the dataset, the renderer, the plotting
    and the metrics.  An answer [None] is an exception raised inside. *)
Class Rendering := {
  Cam : Type;
  Img : Type;
  Dep : Type;
  Fig : Type;
  (** the LPIPS model and the two directories *)
  prepare : option unit;
  (** [dataset[idx]], [render(cam, ...)] and the conversions to arrays: the
      ground-truth and rendered image, the ground-truth and rendered depth *)
  render_frame : Cam → Z → option (Img * Img * Dep * Dep);
  (** [gt_img.shape == est_img.shape] and [gt_img.dtype == est_img.dtype] *)
  same_shape : Img → Img → bool;
  same_dtype : Img → Img → bool;
  (** the four panels of the figure with depth *)
  plot_with_depth : Img → Img → Dep → Dep → option Fig;
  (** [plt.savefig(...)] and [plt.close(fig)] *)
  savefig : Fig → Z → option unit;
  (** PSNR, SSIM and LPIPS of one frame *)
  image_scores : Img → Img → option (Qc * Qc * Qc);
  (** the depth loss, scale invariant when [monocular] *)
  depth_loss : bool → Dep → Dep → option Qc;
  (** [json.dump] of the result *)
  dump : option unit;
}.

Section EvalRendering.
Context `{Rd : Rendering}.

(** [create_comparison_figure(gt_img, est_img, gt_depth, est_depth)]; the
    depths are [None] by default.  Without a ground-truth depth the first
    panel is drawn from [gt_img.squeeez()], an attribute that an array does
    not have. *)
Definition create_comparison_figure (gt_img est_img : Img)
    (gt_depth est_depth : option Dep) : exn + Fig :=
  if negb (same_shape gt_img est_img) then inl AssertionError
  else if negb (same_dtype gt_img est_img) then inl AssertionError
  else
    match gt_depth with
    | Some gd =>
        match est_depth with
        | None => inl AssertionError
        | Some ed =>
            match plot_with_depth gt_img est_img gd ed with
            | Some fig => inr fig
            | None => inl OtherError
            end
        end
    | None => inl OtherError
    end.

(** The scores collected so far: [psnr_array], [ssim_array], [lpips_array]
    and [depth_l1]. *)
Record scores := {
  psnr_array : list Qc;
  ssim_array : list Qc;
  lpips_array : list Qc;
  depth_l1 : list Qc;
}.

(** The body of the loop for the [i]-th timestamp [idx]. *)
Definition eval_frame (cams : list Cam) (has_gt_depth save_renders
    monocular : bool) (i : nat) (idx : Z) (acc : scores) : exn + scores :=
  match cams !! i with
  | None => inl OtherError
  | Some cam =>
      match render_frame cam idx with
      | None => inl OtherError
      | Some (gt_img, est_img, gt_depth, est_depth) =>
          let plotted :=
            if save_renders then
              match (if has_gt_depth
                     then create_comparison_figure gt_img est_img
                            (Some gt_depth) (Some est_depth)
                     else create_comparison_figure gt_img est_img None None)
              with
              | inl e => inl e
              | inr fig =>
                  match savefig fig idx with
                  | Some _ => inr tt
                  | None => inl OtherError
                  end
              end
            else inr tt in
          match plotted with
          | inl e => inl e
          | inr _ =>
              match image_scores est_img gt_img with
              | None => inl OtherError
              | Some (p, s, l) =>
                  let acc := {| psnr_array := psnr_array acc ++ [p];
                                ssim_array := ssim_array acc ++ [s];
                                lpips_array := lpips_array acc ++ [l];
                                depth_l1 := depth_l1 acc |} in
                  if has_gt_depth then
                    match depth_loss monocular est_depth gt_depth with
                    | None => inl OtherError
                    | Some d =>
                        inr {| psnr_array := psnr_array acc;
                               ssim_array := ssim_array acc;
                               lpips_array := lpips_array acc;
                               depth_l1 := depth_l1 acc ++ [d] |}
                    end
                  else inr acc
              end
          end
      end
  end.

Fixpoint eval_frames (cams : list Cam) (has_gt_depth save_renders
    monocular : bool) (i : nat) (tstamps : list Z) (acc : scores)
  : exn + scores :=
  match tstamps with
  | [] => inr acc
  | idx :: rest =>
      match eval_frame cams has_gt_depth save_renders monocular i idx acc with
      | inl e => inl e
      | inr acc' =>
          eval_frames cams has_gt_depth save_renders monocular (S i) rest
            acc'
      end
  end.

(** [eval_rendering(cams, tstamps, ..., save_renders, monocular)]: the
    scores whose means it returns.  [has_gt_depth] is
    [len(dataset.depth_paths) != 0]. *)
Definition eval_rendering (cams : list Cam) (tstamps : list Z)
    (has_gt_depth save_renders monocular : bool) : exn + scores :=
  match prepare with
  | None => inl OtherError
  | Some _ =>
      match eval_frames cams has_gt_depth save_renders monocular O tstamps
              {| psnr_array := []; ssim_array := []; lpips_array := [];
                 depth_l1 := [] |} with
      | inl e => inl e
      | inr acc =>
          match dump with
          | Some _ => inr acc
          | None => inl OtherError
          end
      end
  end.

End EvalRendering.

(** A renderer whose every call succeeds. *)
Definition plain_rendering : Rendering :=
  {| Cam := unit; Img := unit; Dep := unit; Fig := unit;
     prepare := Some tt;
     render_frame := λ _ _, Some (tt, tt, tt, tt);
     same_shape := λ _ _, true;
     same_dtype := λ _ _, true;
     plot_with_depth := λ _ _ _ _, Some tt;
     savefig := λ _ _, Some tt;
     image_scores := λ _ _, Some (1%Qc, 1%Qc, 1%Qc);
     depth_loss := λ _ _ _, Some 1%Qc;
     dump := Some tt |}.

(** Four frames with [t_start = 1] and [t_stop = 2]: the frame at [0] is
    skipped, the one at [1] is handled, the one at [3] ends the loop, and
    the one at [2] behind it is never looked at. *)
Definition four_frames : list (@frame nat nat unit unit unit) :=
  [ {| timestamp := 0; image := 10%nat; depth := Some 20%nat;
       intrinsic := tt; gt_pose := tt; static_mask := None |};
    {| timestamp := 1; image := 11%nat; depth := Some 21%nat;
       intrinsic := tt; gt_pose := tt; static_mask := None |};
    {| timestamp := 3; image := 13%nat; depth := Some 23%nat;
       intrinsic := tt; gt_pose := tt; static_mask := None |};
    {| timestamp := 2; image := 12%nat; depth := Some 22%nat;
       intrinsic := tt; gt_pose := tt; static_mask := None |} ].

(** ** The viewer of [visualization.py] *)

(** The attributes of [droid_visualization] that its callbacks read and
    write, the [dirty] flags and the [counter] of the video, and the
    geometries that the Open3D window holds.  An actor is known by its
    identity: [next_actor] is the next one to be created. *)
Record viewer := {
  dirty : list bool;
  counter : nat;
  cameras : gmap Z nat;
  points : gmap Z nat;
  geometries : list nat;
  next_actor : nat;
  ix : nat;
  filter_thresh : Qc;
  camera_scale : Qc;
  do_reset : bool;
}.

(** [video.dirty[:video.counter.value] = True]. *)
Definition mark_dirty (v : viewer) : list bool :=
  replicate (Nat.min (counter v) (length (dirty v))) true
  ++ drop (counter v) (dirty v).

(** The key callbacks. *)
Definition increase_filter (v : viewer) : viewer :=
  {| dirty := mark_dirty v; counter := counter v; cameras := cameras v;
     points := points v; geometries := geometries v;
     next_actor := next_actor v; ix := ix v;
     filter_thresh := (filter_thresh v * 2)%Qc;
     camera_scale := camera_scale v; do_reset := do_reset v |}.

Definition decrease_filter (v : viewer) : viewer :=
  {| dirty := mark_dirty v; counter := counter v; cameras := cameras v;
     points := points v; geometries := geometries v;
     next_actor := next_actor v; ix := ix v;
     filter_thresh := (filter_thresh v * Q2Qc (1 # 2))%Qc;
     camera_scale := camera_scale v; do_reset := do_reset v |}.

Definition deactivate_update (v : viewer) : viewer :=
  {| dirty := replicate (length (dirty v)) false; counter := counter v;
     cameras := cameras v; points := points v; geometries := geometries v;
     next_actor := next_actor v; ix := ix v;
     filter_thresh := filter_thresh v;
     camera_scale := camera_scale v; do_reset := do_reset v |}.

Definition start_stop_view_resetting (v : viewer) : viewer :=
  {| dirty := dirty v; counter := counter v; cameras := cameras v;
     points := points v; geometries := geometries v;
     next_actor := next_actor v; ix := ix v;
     filter_thresh := filter_thresh v;
     camera_scale := camera_scale v; do_reset := negb (do_reset v) |}.

Definition increase_camera (v : viewer) : viewer :=
  {| dirty := mark_dirty v; counter := counter v; cameras := cameras v;
     points := points v; geometries := geometries v;
     next_actor := next_actor v; ix := ix v;
     filter_thresh := filter_thresh v;
     camera_scale := (camera_scale v * (1 / Q2Qc (8 # 10)))%Qc;
     do_reset := do_reset v |}.

Definition decrease_camera (v : viewer) : viewer :=
  {| dirty := mark_dirty v; counter := counter v; cameras := cameras v;
     points := points v; geometries := geometries v;
     next_actor := next_actor v; ix := ix v;
     filter_thresh := filter_thresh v;
     camera_scale := (camera_scale v * Q2Qc (8 # 10))%Qc;
     do_reset := do_reset v |}.

(** [vis.remove_geometry(a)]: the window lets go of the actor [a]. *)
Fixpoint remove_geometry (a : nat) (l : list nat) : list nat :=
  match l with
  | [] => []
  | b :: l' => if decide (a = b) then l' else b :: remove_geometry a l'
  end.

(** [if ix in d: vis.remove_geometry(d[ix]); del d[ix]] for one of the two
    dictionaries [d]: the window and the dictionary afterwards. *)
Definition forget (k : Z) (d : gmap Z nat) (g : list nat)
  : list nat * gmap Z nat :=
  match d !! k with
  | Some a => (remove_geometry a g, delete k d)
  | None => (g, d)
  end.

(** One turn of the loop of [animation_callback], for the dirty frame
    [k]: the old camera and point actors of the frame leave the window and
    the two dictionaries, and a new actor of each kind enters them. *)
Definition redraw (k : Z) (v : viewer) : viewer :=
  let c := forget k (cameras v) (geometries v) in
  let p := forget k (points v) c.1 in
  let cam_actor := next_actor v in
  let g := p.1 ++ [cam_actor] in
  let cams := <[k := cam_actor]> c.2 in
  let point_actor := S (next_actor v) in
  let g := g ++ [point_actor] in
  let pts := <[k := point_actor]> p.2 in
  {| dirty := dirty v; counter := counter v; cameras := cams; points := pts;
     geometries := g; next_actor := S (S (next_actor v)); ix := ix v;
     filter_thresh := filter_thresh v; camera_scale := camera_scale v;
     do_reset := do_reset v |}.

(** [animation_callback(vis)]: nothing when no frame is dirty; otherwise
    the dirty frames are cleared and redrawn one by one. *)
Definition animation_callback (v : viewer) : viewer :=
  let dirty_index := nonzero 0 (dirty v) in
  if decide (length dirty_index = O) then v
  else
    let v := {| dirty := replicate (length (dirty v)) false;
                counter := counter v; cameras := cameras v;
                points := points v; geometries := geometries v;
                next_actor := next_actor v; ix := ix v;
                filter_thresh := filter_thresh v;
                camera_scale := camera_scale v; do_reset := do_reset v |} in
    let v := foldl (λ v k, redraw k v) v dirty_index in
    {| dirty := dirty v; counter := counter v; cameras := cameras v;
       points := points v; geometries := geometries v;
       next_actor := next_actor v; ix := S (ix v);
       filter_thresh := filter_thresh v; camera_scale := camera_scale v;
       do_reset := do_reset v |}.

(** The viewer as [droid_visualization] sets it up, for a video of [n]
    frame slots all marked dirty. *)
Definition fresh_viewer (n c : nat) : viewer :=
  {| dirty := replicate n true; counter := c; cameras := ∅; points := ∅;
     geometries := []; next_actor := O; ix := O;
     filter_thresh := Q2Qc (5 # 1000); camera_scale := Q2Qc (5 # 100);
     do_reset := true |}.

(** What the window reacts to: the six registered keys, and the
    animation callback. *)
Inductive input := Key_S | Key_A | Key_Q | Key_M | Key_N | Key_R | Animate.

Definition handle (v : viewer) (i : input) : viewer :=
  match i with
  | Key_S => increase_filter v
  | Key_A => decrease_filter v
  | Key_Q => deactivate_update v
  | Key_M => increase_camera v
  | Key_N => decrease_camera v
  | Key_R => start_stop_view_resetting v
  | Animate => animation_callback v
  end.

(** * Properties *)

(** ** Frames of a solve *)

Section FrameRelations.
Context `{Ext : Externals}.

(** The poses outside the free part [[max(t0, 1), t1)] of the window are the
    same in [st'] as in [st]. *)
Definition poses_fixed (t0 t1 : nat) (st st' : store) : Prop :=
  ∀ i : nat, (i < Nat.max t0 1 ∨ t1 ≤ i)%nat →
             all_poses st' !! i = all_poses st !! i.

(** The entries at and beyond [t1] of the four mutable tensors are the same
    in [st'] as in [st]. *)
Definition beyond_unchanged (t1 : nat) (st st' : store) : Prop :=
  ∀ i : nat, (t1 ≤ i)%nat →
    all_poses st' !! i = all_poses st !! i ∧
    all_disps st' !! i = all_disps st !! i ∧
    (all_scales st' ≫= (.!! i)) = (all_scales st ≫= (.!! i)) ∧
    (all_shifts st' ≫= (.!! i)) = (all_shifts st ≫= (.!! i)).

(** [linearize] returns one structure entry per pixel of a disparity map. *)
Definition per_pixel_structure : Prop :=
  ∀ poses disps intr ii jj target weight b,
    linearize poses disps intr ii jj target weight = Some b →
    Forall (λ r : list Qc, length r = ncols disps) (Ck b) ∧
    Forall (λ r : list Qc, length r = ncols disps) (wk b).

End FrameRelations.

(** [n] rows of [k] numbers each. *)
Definition shaped (n k : nat) (x : list row) : Prop :=
  length x = n ∧ Forall (λ r : list Qc, length r = k) x.

(** ** Tactics *)

Ltac opt_simpl :=
  cbn [mbind option_bind mret option_ret fmap option_fmap option_map] in *.

Ltac inv_bind :=
  repeat match goal with
         | H : _ ≫= _ = Some _ |- _ =>
             let x := fresh "x" in
             let Hx := fresh "Hx" in
             apply bind_Some in H as (x & Hx & H)
         end.

(** Runs a solve function symbolically: one case per point where it can
    raise. *)
Ltac run_solve :=
  unfold bind, get, lift, write_poses, write_disps, write_scales, write_shifts;
  repeat (case_match; simplify_eq/=).

(** ** Lists and windows *)

Lemma mapM_cons_eq {B1 B2 : Type} (f : B1 → option B2) (b : B1)
    (y : list B1) :
  mapM f (b :: y) = f b ≫= λ c, mapM f y ≫= λ k, Some (c :: k).
Proof. done. Qed.

Section ListFacts.
Context {B : Type}.
Implicit Types (l new p : list B).

Lemma set_window_length t1 new l p :
  set_window t1 new l = Some p → length p = length l.
Proof.
  unfold set_window. case_decide as Hl; [|done]. intros [= <-].
  rewrite length_app, Hl, length_take, length_drop. lia.
Qed.

Lemma set_window_lookup_ge t1 new l p (i : nat) :
  set_window t1 new l = Some p → (t1 ≤ i)%nat → p !! i = l !! i.
Proof.
  unfold set_window. case_decide as Hl; [|done]. intros [= <-] Hi.
  rewrite length_take in Hl.
  destruct (decide (i < length l)%nat) as [Hlt|Hge].
  - rewrite lookup_app_r by lia. rewrite lookup_drop. f_equal. lia.
  - rewrite (lookup_ge_None_2 l) by lia. apply lookup_ge_None_2.
    rewrite length_app, length_drop. lia.
Qed.

Lemma set_window_lookup_lt t1 new l p (i : nat) :
  set_window t1 new l = Some p → (i < t1)%nat → p !! i = new !! i.
Proof.
  unfold set_window. case_decide as Hl; [|done]. intros [= <-] Hi.
  rewrite length_take in Hl.
  destruct (decide (i < length new)%nat) as [Hlt|Hge].
  - by rewrite lookup_app_l.
  - rewrite (lookup_ge_None_2 new) by lia. apply lookup_ge_None_2.
    rewrite length_app, length_drop. lia.
Qed.

Lemma set_window_lookup_window t1 new l p (f : nat) (y : B) :
  set_window t1 new l = Some p → new !! f = Some y → p !! f = Some y.
Proof.
  unfold set_window. case_decide; [|done]. intros [= <-] Hf.
  by apply lookup_app_l_Some.
Qed.

Lemma bind_set_window_ge (t1 : nat) new p (o : option (list B)) (i : nat) :
  o ≫= set_window t1 new = Some p → (t1 ≤ i)%nat →
  p !! i = (o ≫= (.!! i)).
Proof.
  destruct o as [l|]; [|done]. simpl. intros. by eapply set_window_lookup_ge.
Qed.

Lemma app_tail_eq (l a b : list B) : l ++ a = l ++ b → a = b.
Proof. apply app_inv_head. Qed.

Lemma app_tail_nil (l a : list B) : l = l ++ a → a = [].
Proof.
  intros Hl. symmetry. apply (app_inv_head l). by rewrite app_nil_r.
Qed.

Lemma existsb_replicate_false (p : B → bool) (n : nat) (x : B) :
  p x = false → existsb p (replicate n x) = false.
Proof. intros Hp. induction n as [|n IH]; [done|]. simpl. by rewrite Hp, IH. Qed.

Lemma existsb_false_Forall (p : B → bool) (l : list B) :
  existsb p l = false → Forall (λ x, p x = false) l.
Proof.
  induction l as [|x l IH]; simpl; [constructor|].
  intros [? ?]%orb_false_iff. constructor; auto.
Qed.

Lemma chunks_Forall (P : B → Prop) (n k : nat) (l : list B) :
  Forall P l → Forall (Forall P) (chunks n k l).
Proof.
  revert l. induction n as [|n IH]; intros l Hl; simpl; constructor.
  - by apply Forall_take.
  - by apply IH, Forall_drop.
Qed.

Lemma rearrange_Forall (P : B → Prop) (n k : nat) (l : list B) r :
  rearrange n k l = Some r → Forall P l → Forall (Forall P) r.
Proof.
  unfold rearrange. case_decide; [|done]. intros [= <-].
  apply chunks_Forall.
Qed.

Lemma chunks_shaped (n k : nat) (l : list B) :
  length l = (n * k)%nat →
  length (chunks n k l) = n ∧ Forall (λ c, length c = k) (chunks n k l).
Proof.
  revert l. induction n as [|n IH]; intros l Hl; simpl.
  - by split.
  - destruct (IH (drop k l)) as [Hn Hk]; [rewrite length_drop; lia|].
    split; [by rewrite Hn|]. constructor; [|done]. rewrite length_take. lia.
Qed.

Lemma Forall_mask (P : B → Prop) (v : list bool) (l : list B) :
  Forall P l → Forall P (mask v l).
Proof.
  intros Hl. revert v. induction Hl as [|x l Hx Hl IH]; intros [|[] v];
    simpl; auto.
Qed.

Lemma mask_assign_lookup_false (v : list bool) (dst src r : list B)
    (k : nat) :
  mask_assign v dst src = Some r → v !! k = Some false → r !! k = dst !! k.
Proof.
  revert dst src r k. induction v as [|b v IH]; intros dst src r k; [done|].
  destruct dst as [|x dst]; [by destruct b|]. destruct b; simpl.
  - destruct src as [|s src]; [done|].
    destruct (mask_assign v dst src) as [r'|] eqn:Hr'; [|done].
    intros [= <-]. destruct k as [|k]; [done|]. simpl. by eapply IH.
  - destruct (mask_assign v dst src) as [r'|] eqn:Hr'; [|done].
    intros [= <-]. destruct k as [|k]; [done|]. simpl. by eapply IH.
Qed.

Lemma index_at_in_range (l : list B) (i : Z) :
  0 ≤ i < Z.of_nat (length l) → index_at l i = l !! Z.to_nat i.
Proof. intros Hi. unfold index_at. by rewrite bool_decide_true by lia. Qed.

Lemma gather_replicate (n : nat) (z : B) (kx : list Z) :
  Forall (λ i, 0 ≤ i < Z.of_nat n) kx →
  gather (replicate n z) kx = Some (replicate (length kx) z).
Proof.
  unfold gather. induction 1 as [|i kx Hi Hkx IH]; [done|].
  rewrite mapM_cons_eq, IH.
  rewrite index_at_in_range by (by rewrite length_replicate).
  rewrite lookup_replicate_2 by lia. done.
Qed.

End ListFacts.

(** ** [torch.unique] *)

Lemma elem_of_insert_unique (x y : Z) (l : list Z) :
  y ∈ insert_unique x l ↔ y = x ∨ y ∈ l.
Proof.
  induction l as [|z l IH]; simpl.
  - rewrite list_elem_of_singleton, elem_of_nil. tauto.
  - destruct (Z.ltb_spec x z); [by rewrite elem_of_cons|].
    destruct (Z.eqb_spec x z) as [->|Hne].
    + rewrite elem_of_cons. tauto.
    + rewrite !elem_of_cons, IH. tauto.
Qed.

Lemma insert_unique_sorted (x : Z) (l : list Z) :
  StronglySorted Z.lt l → StronglySorted Z.lt (insert_unique x l).
Proof.
  induction 1 as [|z l Hs IH Hz]; simpl.
  - repeat constructor.
  - destruct (Z.ltb_spec x z) as [Hlt|Hge].
    + constructor; [by constructor|].
      constructor; [done|]. eapply Forall_impl; [exact Hz|]. simpl. lia.
    + destruct (Z.eqb_spec x z) as [->|Hne]; [by constructor|].
      constructor; [done|]. apply Forall_forall. intros y Hy.
      apply elem_of_insert_unique in Hy as [->|Hy]; [lia|].
      by eapply Forall_forall in Hz.
Qed.

Lemma unique_sorted (l : list Z) : StronglySorted Z.lt (unique l).1.
Proof.
  simpl. induction l as [|x l IH]; simpl; [constructor|].
  by apply insert_unique_sorted.
Qed.

Lemma elem_of_unique (x : Z) (l : list Z) : x ∈ (unique l).1 ↔ x ∈ l.
Proof.
  simpl. induction l as [|y l IH]; simpl; [done|].
  rewrite elem_of_insert_unique, elem_of_cons, IH. done.
Qed.

Lemma sorted_lt_NoDup (l : list Z) : StronglySorted Z.lt l → NoDup l.
Proof.
  induction 1 as [|z l Hs IH Hz]; constructor; [|done].
  intros Hin. eapply Forall_forall in Hz; [|exact Hin]. lia.
Qed.

Lemma unique_NoDup (l : list Z) : NoDup (unique l).1.
Proof. apply sorted_lt_NoDup, unique_sorted. Qed.

Lemma unique_in_range (n : Z) (ii : list Z) :
  Forall (λ i, 0 ≤ i < n) ii → Forall (λ i, 0 ≤ i < n) (unique ii).1.
Proof.
  rewrite !Forall_forall. intros Hii i Hi. apply Hii.
  by apply elem_of_unique.
Qed.

Lemma elem_of_arange (t0 t1 f : nat) :
  Z.of_nat f ∈ arange t0 t1 ↔ (t0 ≤ f < t1)%nat.
Proof.
  unfold arange. rewrite list_elem_of_fmap. split.
  - intros (k & Hk & Hin). apply elem_of_seq in Hin. lia.
  - intros Hf. exists f. split; [done|]. apply elem_of_seq. lia.
Qed.

(** A node of the expanded set that no edge leaves makes it strictly
    larger than the set of the edges' nodes. *)
Lemma unique_expanded_longer (ts ii : list Z) (f : Z) :
  f ∈ (unique (ts ++ ii)).1 → f ∉ ii →
  (length (unique ii).1 < length (unique (ts ++ ii)).1)%nat.
Proof.
  intros Hin Hout.
  assert (Hsub : f :: (unique ii).1 ⊆+ (unique (ts ++ ii)).1).
  { apply NoDup_submseteq.
    - constructor; [by rewrite elem_of_unique|apply unique_NoDup].
    - intros x. rewrite elem_of_cons, !elem_of_unique, elem_of_app.
      intros [->|Hx]; [|by right].
      by rewrite elem_of_unique, elem_of_app in Hin. }
  apply submseteq_length in Hsub. simpl in *. lia.
Qed.

Lemma isin_lookup (xs ys : list Z) (k : nat) (x : Z) :
  xs !! k = Some x → isin xs ys !! k = Some (bool_decide (x ∈ ys)).
Proof. intros Hk. unfold isin. by rewrite list_lookup_fmap, Hk. Qed.

(** ** Scatter-add *)

Section ScatterFacts.
Context {A : Type} (zero : A) (add : A → A → A).
Implicit Types (self src r : list A) (index : list Z).

Lemma scatter_add__length self index src r :
  scatter_add_ add self index src = Some r → length r = length self.
Proof.
  revert self src. induction index as [|i index IH]; intros self src; simpl.
  - by intros [= ->].
  - destruct src as [|s src]; [done|]. case_bool_decide; [|done].
    intros Hr. apply IH in Hr. by rewrite length_alter in Hr.
Qed.

Lemma scatter_add__in_range self index src r :
  scatter_add_ add self index src = Some r →
  Forall (λ i, 0 ≤ i < Z.of_nat (length self)) index.
Proof.
  revert self src. induction index as [|i index IH]; intros self src; simpl.
  - constructor.
  - destruct src as [|s src]; [done|]. case_bool_decide; [|done].
    intros Hr. constructor; [done|]. apply IH in Hr.
    by rewrite length_alter in Hr.
Qed.

Lemma scatter_add__Forall (P Q : A → Prop) self index src r :
  (∀ x s, P x → Q s → P (add x s)) →
  Forall P self → Forall Q src →
  scatter_add_ add self index src = Some r → Forall P r.
Proof.
  intros Hadd. revert self src.
  induction index as [|i index IH]; intros self src Hself Hsrc; simpl.
  - by intros [= <-].
  - destruct src as [|s src]; [done|]. case_bool_decide; [|done].
    apply Forall_cons in Hsrc as [Hs Hsrc].
    apply IH; [|done]. apply Forall_alter; [done|]. intros x _ Hx. auto.
Qed.

Lemma scatter_add__lookup_other self index src r (j : nat) :
  scatter_add_ add self index src = Some r →
  Z.of_nat j ∉ index → r !! j = self !! j.
Proof.
  revert self src. induction index as [|i index IH]; intros self src; simpl.
  - by intros [= ->].
  - destruct src as [|s src]; [done|]. case_bool_decide; [|done].
    intros Hr Hj. apply not_elem_of_cons in Hj as [Hji Hj].
    rewrite (IH _ _ Hr Hj). apply list_lookup_alter_ne. lia.
Qed.

Lemma scatter_add__lookup_NoDup self index src r (k : nat) (i : Z) (s : A) :
  NoDup index →
  scatter_add_ add self index src = Some r →
  index !! k = Some i → src !! k = Some s →
  r !! Z.to_nat i = (λ x, add x s) <$> self !! Z.to_nat i.
Proof.
  intros Hnd. revert self src k.
  induction Hnd as [|i0 index Hi0 Hnd IH]; intros self src k; simpl; [done|].
  destruct src as [|s0 src]; [done|]. case_bool_decide as Hr0; [|done].
  intros Hr Hk Hs. destruct k as [|k]; simpl in *.
  - injection Hk as ->. injection Hs as ->.
    rewrite (scatter_add__lookup_other _ _ _ _ _ Hr).
    + by rewrite list_lookup_alter_eq.
    + by rewrite Z2Nat.id by lia.
  - rewrite (IH _ _ _ Hr Hk Hs). rewrite list_lookup_alter_ne; [done|].
    pose proof (scatter_add__in_range _ _ _ _ Hr) as Hall.
    eapply Forall_forall in Hall; [|by eapply list_elem_of_lookup_2].
    intros Heq. apply Hi0. assert (i0 = i) as -> by lia.
    by eapply list_elem_of_lookup_2.
Qed.

Lemma broadcast_same_length index src :
  length index = length src → broadcast index src = Some index.
Proof.
  intros Hl. unfold broadcast. destruct index as [|i [|i' index]].
  - by rewrite decide_True.
  - simpl in Hl. by rewrite <- Hl.
  - by rewrite decide_True.
Qed.

(** What [scatter_sum] leaves at a node that the index names once. *)
Lemma scatter_sum_lookup_NoDup src index (n : nat) r (k f : nat) (s : A) :
  NoDup index → length index = length src →
  scatter_sum zero add src index (Z.of_nat n) = Some r →
  index !! k = Some (Z.of_nat f) → src !! k = Some s →
  r !! f = Some (add zero s).
Proof.
  intros Hnd Hl. unfold scatter_sum. rewrite bool_decide_true by lia.
  rewrite (broadcast_same_length _ _ Hl). simpl. intros Hr Hk Hs.
  pose proof (scatter_add__lookup_NoDup _ _ _ _ _ _ _ Hnd Hr Hk Hs) as Hlk.
  rewrite !Nat2Z.id in Hlk. rewrite Hlk.
  pose proof (scatter_add__in_range _ _ _ _ Hr) as Hall.
  eapply Forall_forall in Hall; [|by eapply list_elem_of_lookup_2].
  rewrite length_replicate, Nat2Z.id in Hall.
  rewrite lookup_replicate_2 by lia. done.
Qed.

Lemma scatter_sum_length src index (n : Z) r :
  scatter_sum zero add src index n = Some r → length r = Z.to_nat n.
Proof.
  unfold scatter_sum. case_bool_decide; [|done].
  destruct (broadcast index src); [|done]. simpl. intros Hr.
  apply scatter_add__length in Hr. by rewrite length_replicate in Hr.
Qed.

Lemma scatter_sum_Forall (P Q : A → Prop) src index (n : Z) r :
  (∀ x s, P x → Q s → P (add x s)) → P zero → Forall Q src →
  scatter_sum zero add src index n = Some r → Forall P r.
Proof.
  intros Hadd Hz Hsrc. unfold scatter_sum. case_bool_decide; [|done].
  destruct (broadcast index src); [|done]. simpl.
  apply scatter_add__Forall with (Q := Q); [done| |done].
  by apply Forall_replicate.
Qed.

Lemma safe_scatter_add_vec_shape (P Q : A → Prop) b ii (n : Z) r :
  (∀ x s, P x → Q s → P (add x s)) → P zero → Forall Q b →
  safe_scatter_add_vec zero add b ii n = Some r →
  length r = Z.to_nat n ∧ Forall P r.
Proof.
  intros Hadd Hz Hb. unfold safe_scatter_add_vec. case_decide; [|done].
  intros Hr. split; [by eapply scatter_sum_length|].
  eapply scatter_sum_Forall; [done..| |done]. by apply Forall_mask.
Qed.

End ScatterFacts.

(** ** Broadcasting operations *)

Lemma mapM_id_zip_with {B1 B2 B3 : Type} (f : B1 → B2 → option B3)
    (h : B1 → B2 → B3) (x : list B1) (y : list B2) :
  (∀ a b, a ∈ x → b ∈ y → f a b = Some (h a b)) →
  mapM id (zip_with f x y) = Some (zip_with h x y).
Proof.
  revert y. induction x as [|a x IH]; intros [|b y] Hf; simpl; try done.
  rewrite Hf by (apply elem_of_cons; auto). simpl.
  rewrite IH; [done|]. intros a' b' Ha Hb. apply Hf; apply elem_of_cons; auto.
Qed.

Lemma bzip_same_length {B1 B2 B3 : Type} (f : B1 → B2 → option B3)
    (x : list B1) (y : list B2) :
  length x = length y → bzip f x y = mapM id (zip_with f x y).
Proof.
  intros Hl. unfold bzip.
  destruct x as [|a [|a' x]], y as [|b [|b' y]]; simplify_eq/=; try done.
  by rewrite decide_True by (simpl; lia).
Qed.

Lemma bzip_total {B1 B2 B3 : Type} (f : B1 → B2 → option B3)
    (h : B1 → B2 → B3) (x : list B1) (y : list B2) :
  length x = length y →
  (∀ a b, a ∈ x → b ∈ y → f a b = Some (h a b)) →
  bzip f x y = Some (zip_with h x y).
Proof.
  intros Hl Hf. rewrite bzip_same_length by done. by apply mapM_id_zip_with.
Qed.

Lemma rop_same_length (f : Qc → Qc → Qc) (x y : row) :
  length x = length y → rop f x y = Some (zip_with f x y).
Proof. intros Hl. by apply bzip_total. Qed.

Lemma top_same_shape (f : Qc → Qc → Qc) (n k : nat) (x y : list row) :
  shaped n k x → shaped n k y →
  top f x y = Some (zip_with (zip_with f) x y).
Proof.
  intros [Hx Hkx] [Hy Hky]. apply bzip_total; [congruence|].
  intros a b Ha Hb. apply rop_same_length.
  rewrite Forall_forall in Hkx, Hky. by rewrite Hkx, Hky.
Qed.


(** Multiplying by a tensor [o] first, that has the shape of [x] and
    changes nothing, does not change what the sum with [x] broadcasts to. *)
Lemma mapM_neutral_first {B B3 : Type} (g : B → option B) (f : B → option B3)
    (y : list B) :
  (∀ b, g b ≫= f = f b) → mapM g y ≫= mapM f = mapM f y.
Proof.
  intros Hgf. induction y as [|b y IH]; [done|]. rewrite !mapM_cons_eq.
  specialize (Hgf b). destruct (g b) as [e|]; opt_simpl.
  - rewrite <- Hgf. destruct (mapM g y) as [es|]; opt_simpl.
    + rewrite mapM_cons_eq, IH. done.
    + rewrite <- IH. by destruct (f e).
  - by rewrite <- Hgf.
Qed.

Lemma mapM_zip_neutral_first {B1 B B3 : Type} (g : B → option B)
    (f : B1 → B → option B3) (x : list B1) (y : list B) :
  length x = length y →
  (∀ a b, a ∈ x → g b ≫= f a = f a b) →
  mapM g y ≫= (λ e, mapM id (zip_with f x e)) = mapM id (zip_with f x y).
Proof.
  revert y. induction x as [|a x IH]; intros [|b y] Hl Hgf; simplify_eq/=;
    [done|].
  pose proof (Hgf a b (list_elem_of_here _ _)) as Hab.
  assert (Hx : ∀ a' b', a' ∈ x → g b' ≫= f a' = f a' b')
    by (intros; apply Hgf; by apply list_elem_of_further).
  specialize (IH y Hl Hx).
  change (mapM g (b :: y) ≫= (λ e, mapM id (zip_with f (a :: x) e)) =
          mapM id (f a b :: zip_with f x y)).
  rewrite !mapM_cons_eq. unfold id at 3.
  destruct (g b) as [e|]; opt_simpl.
  - rewrite <- Hab. destruct (mapM g y) as [es|]; opt_simpl.
    + cbn [zip_with]. rewrite mapM_cons_eq, IH. done.
    + rewrite <- IH. by destruct (f a e).
  - by rewrite <- Hab.
Qed.

Lemma mapM_id_zip_replicate_l {B1 B B3 : Type} (g : B1 → B → option B3)
    (o : B1) (y : list B) :
  mapM id (zip_with g (replicate (length y) o) y) = mapM (g o) y.
Proof.
  induction y as [|b y IH]; [done|]. cbn [length replicate zip_with].
  rewrite !mapM_cons_eq, IH. done.
Qed.

Lemma mapM_id_zip_replicate_r {B1 B B3 : Type} (f : B1 → B → option B3)
    (x : list B1) (e : B) :
  mapM id (zip_with f x (replicate (length x) e)) = mapM (λ a, f a e) x.
Proof.
  induction x as [|a x IH]; [done|]. cbn [length replicate zip_with].
  rewrite !mapM_cons_eq, IH. done.
Qed.

Lemma mapM_const_replicate {B1 B : Type} (c : option B) (n : nat) (o : B1) :
  mapM (λ _, c) (replicate n o) =
  match n with O => Some [] | S _ => e ← c; Some (replicate n e) end.
Proof.
  induction n as [|n IH]; [done|]. cbn [replicate]. rewrite mapM_cons_eq, IH.
  destruct c as [e|]; [|done]. by destruct n.
Qed.

Lemma mapM_ext_in {B1 B2 : Type} (f g : B1 → option B2) (x : list B1) :
  (∀ a, a ∈ x → f a = g a) → mapM f x = mapM g x.
Proof.
  induction x as [|a x IH]; intros Hfg; [done|]. rewrite !mapM_cons_eq.
  rewrite Hfg by apply list_elem_of_here.
  rewrite IH; [done|]. intros; apply Hfg. by apply list_elem_of_further.
Qed.

Lemma bzip_plural {B1 B2 B3 : Type} (f : B1 → B2 → option B3)
    (x : list B1) (y : list B2) :
  (2 ≤ length x)%nat → (2 ≤ length y)%nat →
  bzip f x y = if decide (length x = length y)
               then mapM id (zip_with f x y) else None.
Proof.
  destruct x as [|a [|a' x]], y as [|b [|b' y]]; simpl; intros; try lia.
  done.
Qed.

Lemma bzip_neutral_first {B1 B B3 : Type} (g : B1 → B → option B)
    (f : B1 → B → option B3) (o : B1) (x : list B1) (y : list B) :
  (∀ a b, a ∈ x → g o b ≫= f a = f a b) →
  bzip g (replicate (length x) o) y ≫= bzip f x = bzip f x y.
Proof.
  intros Hgf. destruct x as [|a [|a' x]].
  - (* no row *)
    destruct y as [|b [|b' y]]; done.
  - (* one row: it is broadcast over [y] *)
    simpl. apply mapM_neutral_first. intros b. apply Hgf, list_elem_of_here.
  - (* several rows *)
    set (X := a :: a' :: x) in *.
    assert (HX : ∃ n, length X = S (S n)) by (by exists (length x)).
    destruct HX as [n HX].
    destruct y as [|b [|b' y]].
    + done.
    + (* [y] is broadcast over the rows *)
      rewrite HX. cbn [replicate bzip].
      change (mapM (λ a0, g a0 b) (o :: o :: replicate n o))
        with (mapM (λ a0, g a0 b) (replicate (S (S n)) o)).
      rewrite (mapM_ext_in _ (λ _, g o b)).
      2:{ intros a0 Ha0. by apply elem_of_replicate in Ha0 as [-> _]. }
      rewrite mapM_const_replicate.
      pose proof (Hgf a b (list_elem_of_here _ _)) as Ha.
      destruct (g o b) as [e|] eqn:He; opt_simpl.
      * rewrite <- HX.
        rewrite bzip_same_length by (by rewrite length_replicate).
        rewrite mapM_id_zip_replicate_r. apply mapM_ext_in.
        intros a0 Ha0. specialize (Hgf a0 b Ha0). by rewrite He in Hgf.
      * unfold X. cbn [bzip]. rewrite mapM_cons_eq, <- Ha. done.
    + (* same number of rows, or an error *)
      set (Y := b :: b' :: y) in *.
      assert (HY : ∃ k, length Y = S (S k)) by (by exists (length y)).
      destruct HY as [k HY].
      rewrite !bzip_plural by (rewrite ?length_replicate; lia).
      rewrite length_replicate.
      case_decide as Hl; [|done]. rewrite Hl.
      rewrite mapM_id_zip_replicate_l.
      rewrite <- (mapM_zip_neutral_first (g o) f X Y Hl Hgf).
      destruct (mapM (g o) Y) as [E|] eqn:HE; [|done]. opt_simpl.
      apply bzip_same_length. apply length_mapM in HE. congruence.
Qed.


(** ** A prior that is zero everywhere *)

Lemma gather_shaped (n k : nat) (x : list row) (kx : list Z) :
  shaped n k x → Forall (λ i, 0 ≤ i < Z.of_nat n) kx →
  ∃ g, gather x kx = Some g ∧ shaped (length kx) k g.
Proof.
  intros [Hn Hk]. unfold gather. induction 1 as [|i kx Hi Hkx IH].
  - exists []. split; [done|]. split; [done|constructor].
  - destruct IH as (g & Hg & Hlen & Hall). rewrite mapM_cons_eq, Hg.
    rewrite index_at_in_range by lia.
    destruct (lookup_lt_is_Some_2 x (Z.to_nat i)) as [r Hr]; [lia|].
    rewrite Hr. exists (r :: g). split; [done|]. split; [simpl; lia|].
    constructor; [|done]. eapply Forall_forall in Hk; [exact Hk|].
    by eapply list_elem_of_lookup_2.
Qed.

Lemma tmap_replicate (f : Qc → Qc) (n k : nat) (c : Qc) :
  tmap f (replicate n (replicate k c)) = replicate n (replicate k (f c)).
Proof. unfold tmap. by rewrite !fmap_replicate. Qed.

Lemma zip_with_const_r (f : Qc → Qc → Qc) (c : Qc) (h : Qc → Qc) (x : row) :
  (∀ a, f a c = h a) → zip_with f x (replicate (length x) c) = h <$> x.
Proof. intros Hf. induction x as [|a x IH]; [done|]. simpl. by rewrite Hf, IH. Qed.

Lemma zip_rows_const_r (f : Qc → Qc → Qc) (c : Qc) (h : Qc → Qc) (n k : nat)
    (x : list row) :
  (∀ a, f a c = h a) → shaped n k x →
  zip_with (zip_with f) x (replicate n (replicate k c)) = tmap h x.
Proof.
  intros Hf [<- Hk]. induction Hk as [|r x Hr Hk IH]; [done|]. simpl.
  rewrite <- Hr at 1. rewrite (zip_with_const_r _ _ h) by done. by rewrite IH.
Qed.

Lemma zip_with_const_l (f : Qc → Qc → Qc) (c : Qc) (h : Qc → Qc) (x : row) :
  (∀ a, f c a = h a) → zip_with f (replicate (length x) c) x = h <$> x.
Proof. intros Hf. induction x as [|a x IH]; [done|]. simpl. by rewrite Hf, IH. Qed.

Lemma zip_rows_const_l (f : Qc → Qc → Qc) (c : Qc) (h : Qc → Qc) (n k : nat)
    (x : list row) :
  (∀ a, f c a = h a) → shaped n k x →
  zip_with (zip_with f) (replicate n (replicate k c)) x = tmap h x.
Proof.
  intros Hf [<- Hk]. induction Hk as [|r x Hr Hk IH]; [done|]. simpl.
  rewrite <- Hr at 1. rewrite (zip_with_const_l _ _ h) by done. by rewrite IH.
Qed.

Lemma tmap_id (x : list row) : tmap (λ a, a) x = x.
Proof.
  unfold tmap. induction x as [|r x IH]; [done|]. rewrite fmap_cons, IH.
  f_equal. clear. induction r as [|a r IH]; [done|]. by rewrite fmap_cons, IH.
Qed.

Lemma tmap_const_shaped (c : Qc) (n k : nat) (x : list row) :
  shaped n k x → tmap (λ _, c) x = replicate n (replicate k c).
Proof.
  intros [<- Hk]. unfold tmap. induction Hk as [|r x Hr Hk IH]; [done|].
  rewrite fmap_cons, IH. cbn [length replicate]. f_equal. rewrite <- Hr. clear.
  induction r as [|a r IH]; [done|]. rewrite fmap_cons, IH. done.
Qed.

Lemma shaped_replicate (n k : nat) (c : Qc) :
  shaped n k (replicate n (replicate k c)).
Proof.
  split; [by rewrite length_replicate|].
  apply Forall_replicate. by rewrite length_replicate.
Qed.

Lemma rop_ones_first (a y : row) :
  rop Qcmult (replicate (length a) 1%Qc) y ≫= rop Qcplus a = rop Qcplus a y.
Proof.
  unfold rop. apply bzip_neutral_first. intros a0 b _. simpl.
  by rewrite Qcmult_1_l.
Qed.

Lemma top_ones_first (n k : nat) (C eta : list row) :
  shaped n k C →
  top Qcmult (replicate n (replicate k 1%Qc)) eta ≫= top Qcplus C
  = top Qcplus C eta.
Proof.
  intros [<- Hk]. unfold top. apply bzip_neutral_first.
  intros a b Ha. rewrite Forall_forall in Hk. rewrite <- (Hk a Ha).
  apply rop_ones_first.
Qed.

Lemma BA_damping_zero_prior (n hw : nat) (disps : list row) (kx : list Z)
    (alpha : Qc) (eta C w : list row) :
  shaped n hw disps →
  Forall (λ i, 0 ≤ i < Z.of_nat n) kx →
  shaped (length kx) hw C → shaped (length kx) hw w →
  BA_damping disps (Some (replicate n (rzero hw))) kx alpha eta C w
  = BA_damping disps None kx alpha eta C w.
Proof.
  intros Hd Hkx HC Hw. unfold BA_damping, rzero.
  rewrite gather_replicate by done. opt_simpl.
  destruct (gather_shaped _ _ _ _ Hd Hkx) as (dk & -> & Hdk).
  rewrite !tmap_replicate.
  rewrite bool_decide_false by (apply Qcle_not_lt, Qcle_refl).
  replace (alpha * Q2Qc 0)%Qc with (Q2Qc 0) by ring.
  replace (1 - Q2Qc 0)%Qc with 1%Qc by ring.
  replace (Q2Qc 0 * alpha)%Qc with (Q2Qc 0) by ring.
  rewrite (top_same_shape _ _ _ _ _ HC (shaped_replicate _ _ _)).
  rewrite (zip_rows_const_r _ _ (λ a, a)) by (done || intros; ring).
  rewrite tmap_id. opt_simpl.
  pose proof (top_ones_first _ _ C eta HC) as Hones.
  destruct (top Qcmult _ eta) as [e|]; opt_simpl; rewrite <- Hones; [|done].
  destruct (top Qcplus C e) as [c2|]; [|done]. opt_simpl.
  rewrite (top_same_shape _ _ _ _ _ Hdk (shaped_replicate _ _ _)).
  rewrite (zip_rows_const_r _ _ (λ a, a)) by (done || intros; ring).
  rewrite tmap_id. opt_simpl.
  rewrite (top_same_shape _ _ _ _ _ (shaped_replicate _ _ _) Hdk).
  rewrite (zip_rows_const_l _ _ (λ _, Q2Qc 0)) by (done || intros; ring).
  rewrite (tmap_const_shaped _ _ _ _ Hdk). opt_simpl.
  rewrite (top_same_shape _ _ _ _ _ Hw (shaped_replicate _ _ _)).
  rewrite (zip_rows_const_r _ _ (λ a, a)) by (done || intros; ring).
  by rewrite tmap_id.
Qed.


(** ** The out-of-place accumulators *)

Section OutOfPlace.
Context {A : Type} (zero : A) (add : A → A → A).

Lemma mask_nil {B : Type} (v : list bool) : mask v (@nil B) = [].
Proof. by destruct v as [|[] v]. Qed.

Lemma mask_fmap_idem {I B : Type} (f : I → bool) (ii : list I)
    (b : list B) :
  mask (f <$> mask (f <$> ii) ii) (mask (f <$> ii) b) = mask (f <$> ii) b.
Proof.
  revert b. induction ii as [|i ii IH]; intros b; [done|].
  destruct b as [|x b]; [by rewrite !mask_nil|].
  simpl. destruct (f i) eqn:Hf; simpl; rewrite ?Hf; [by rewrite IH|apply IH].
Qed.

Lemma mask_fmap_true {I : Type} (f : I → bool) (ii : list I) :
  Forall (λ i, f i = true) (mask (f <$> ii) ii).
Proof.
  induction ii as [|i ii IH]; simpl; [constructor|].
  destruct (f i) eqn:Hf; [by constructor|done].
Qed.

Lemma mask_same_length {B C : Type} (v : list bool) (x : list B)
    (y : list C) :
  length x = length y → length (mask v x) = length (mask v y).
Proof.
  revert x y. induction v as [|[] v IH]; intros [|a x] [|b y]; simpl;
    try done; intros [= Hl]; auto.
Qed.

Lemma mask_zip_with {B C D : Type} (g : B → C → D) (v : list bool)
    (x : list B) (y : list C) :
  mask v (zip_with g x y) = zip_with g (mask v x) (mask v y).
Proof.
  revert x y. induction v as [|[] v IH]; intros [|a x] [|b y]; simpl;
    rewrite ?IH; try done; by destruct (mask v x).
Qed.

Lemma scatter_add__total (self : list A) (index : list Z) (src : list A) :
  Forall (λ i, 0 ≤ i < Z.of_nat (length self)) index →
  length index = length src →
  is_Some (scatter_add_ add self index src).
Proof.
  intros Hall. revert self src Hall.
  induction index as [|i index IH]; intros self [|s src] Hall Hl;
    simpl in *; try done.
  apply Forall_cons in Hall as [Hi Hall]. rewrite bool_decide_true by done.
  apply IH; [by rewrite length_alter|lia].
Qed.

Lemma scatter_sum_total (src : list A) (index : list Z) (n : Z) :
  Forall (λ i, 0 ≤ i < n) index → length index = length src → 0 ≤ n →
  is_Some (scatter_sum zero add src index n).
Proof.
  intros Hall Hl Hn. unfold scatter_sum. rewrite bool_decide_true by done.
  rewrite broadcast_same_length by done. simpl.
  apply scatter_add__total; [|done].
  by rewrite length_replicate, Z2Nat.id by done.
Qed.

End OutOfPlace.

(** ** Shapes *)

Lemma radd_length (k : nat) (x y : row) :
  length x = k → length y = k → length (radd x y) = k.
Proof. intros. unfold radd. rewrite length_zip_with. lia. Qed.

Lemma rzero_length (k : nat) : length (rzero k) = k.
Proof. apply length_replicate. Qed.

Lemma radd_rzero_l (k : nat) (x : row) : length x = k → radd (rzero k) x = x.
Proof.
  intros <-. unfold radd, rzero. rewrite (zip_with_const_l _ _ (λ a, a)).
  - clear. induction x as [|a x IH]; [done|]. by rewrite fmap_cons, IH.
  - intros. ring.
Qed.

Lemma rearrange_shaped (n k : nat) (l : row) r :
  rearrange n k l = Some r → shaped n k r.
Proof.
  unfold rearrange. case_decide; [|done]. intros [= <-].
  by apply chunks_shaped.
Qed.

Lemma ncols_shaped (n k : nat) (x : list row) :
  shaped n k x → x = [] ∨ ncols x = k.
Proof.
  intros [_ Hk]. destruct x as [|r x]; [by left|right]. simpl.
  by apply Forall_cons in Hk as [? _].
Qed.

Lemma shaped_take (n k t1 : nat) (x : list row) :
  shaped n k x → shaped (Nat.min t1 n) k (take t1 x).
Proof.
  intros [<- Hk]. split; [by rewrite length_take|]. by apply Forall_take.
Qed.

Lemma set_window_shaped (n hw t1 : nat) (new l p : list row) :
  shaped n hw l → shaped (Nat.min t1 n) hw new →
  set_window t1 new l = Some p → shaped n hw p.
Proof.
  intros [Hn Hk] [_ Hnew] Hs. split.
  - by rewrite (set_window_length _ _ _ _ Hs).
  - unfold set_window in Hs. case_decide; [|done]. injection Hs as <-.
    apply Forall_app. split; [done|]. by apply Forall_drop.
Qed.

Lemma additive_retr_shaped (n hw : nat) (disps dz : list row) kx new :
  shaped n hw disps → Forall (λ r : list Qc, length r = hw) dz →
  additive_retr (rzero hw) radd disps dz kx = Some new →
  shaped n hw new.
Proof.
  intros [Hn Hk] Hdz. unfold additive_retr.
  destruct (scatter_sum _ _ _ _ _) as [s|] eqn:Hs; [|done]. intros [= <-].
  pose proof (scatter_sum_length _ _ _ _ _ _ Hs) as Hlen.
  pose proof (scatter_sum_Forall _ _ (λ r, length r = hw)
                (λ r, length r = hw) _ _ _ _
                (radd_length hw) (rzero_length hw) Hdz Hs) as Hrows.
  rewrite Nat2Z.id in Hlen. split; [rewrite length_zip_with; lia|].
  clear Hs Hlen Hn. revert s Hrows.
  induction Hk as [|r x Hr Hk IH]; intros [|s0 s] Hs; simpl; try constructor.
  - apply Forall_cons in Hs as [? ?]. by apply radd_length.
  - apply Forall_cons in Hs as [? ?]. by apply IH.
Qed.

(** What [additive_retr] leaves at a node that the index names once. *)
Lemma additive_retr_lookup {A : Type} (zero : A) (add : A → A → A)
    (x dz new : list A) (kx : list Z) (k f : nat) (s : A) :
  NoDup kx → length dz = length kx →
  additive_retr zero add x dz kx = Some new →
  kx !! k = Some (Z.of_nat f) → dz !! k = Some s →
  ∃ old, x !! f = Some old ∧ new !! f = Some (add old (add zero s)).
Proof.
  intros Hnd Hl. unfold additive_retr.
  destruct (scatter_sum _ _ _ _ _) as [sc|] eqn:Hs; [|done].
  intros [= <-] Hk Hdz.
  pose proof (scatter_sum_lookup_NoDup _ _ _ _ _ _ _ _ _
                Hnd (eq_sym Hl) Hs Hk Hdz) as Hf.
  pose proof (scatter_sum_length _ _ _ _ _ _ Hs) as Hlen.
  rewrite Nat2Z.id in Hlen.
  destruct (lookup_lt_is_Some_2 x f) as [old Hold].
  { rewrite <- Hlen. by eapply lookup_lt_Some. }
  exists old. split; [done|]. by rewrite lookup_zip_with, Hold, Hf.
Qed.

Lemma col_zero_columns (keep : list bool) (J : mat) (k : nat) :
  keep !! k = Some false →
  col k (zero_columns keep J) = replicate (length J) (Q2Qc 0).
Proof.
  intros Hk. unfold col, zero_columns. induction J as [|r J IH]; [done|].
  rewrite !fmap_cons, IH. cbn [length replicate]. f_equal.
  unfold row in *. rewrite list_lookup_imap.
  destruct (r !! k); simpl; by rewrite ?Hk.
Qed.

(** ** The solve functions: what they leave unchanged *)

Section Frames.
Context `{Ext : Externals}.

Lemma poses_fixed_refl t0 t1 st : poses_fixed t0 t1 st st.
Proof. by intros i _. Qed.

Lemma poses_fixed_trans t0 t1 st1 st2 st3 :
  poses_fixed t0 t1 st1 st2 → poses_fixed t0 t1 st2 st3 →
  poses_fixed t0 t1 st1 st3.
Proof. intros H12 H23 i Hi. rewrite H23, H12; done. Qed.

Lemma beyond_unchanged_refl t1 st : beyond_unchanged t1 st st.
Proof. by intros i _. Qed.

Lemma beyond_unchanged_trans t1 st1 st2 st3 :
  beyond_unchanged t1 st1 st2 → beyond_unchanged t1 st2 st3 →
  beyond_unchanged t1 st1 st3.
Proof.
  intros H12 H23 i Hi. destruct (H12 i Hi) as (?&?&?&?).
  destruct (H23 i Hi) as (?&?&?&?). repeat split; congruence.
Qed.

(** The write-back of the pose-updating variants: [poses1] is written back
    as it was read. *)
Lemma retract_window_fixed (f t1 : nat) (l p2 p : list pose) dx (i : nat) :
  retr_batch (drop f (take t1 l)) dx = Some p2 →
  set_window t1 (take f (take t1 l) ++ p2) l = Some p →
  (i < f ∨ t1 ≤ i)%nat → p !! i = l !! i.
Proof.
  intros Hr Hs [Hi|Hi]; [|by eapply set_window_lookup_ge].
  destruct (decide (i < t1)%nat) as [Hlt|Hge];
    [|eapply set_window_lookup_ge; [done|lia]].
  rewrite (set_window_lookup_lt _ _ _ _ _ Hs Hlt).
  destruct (decide (i < length l)%nat) as [Hl|Hl].
  - rewrite lookup_app_l by (rewrite !length_take; lia).
    rewrite !lookup_take_lt by lia. done.
  - rewrite (lookup_ge_None_2 l) by lia. apply lookup_ge_None_2.
    unfold retr_batch in Hr. case_decide as Hd; [|done].
    injection Hr as <-. rewrite length_app, length_zip_with, <- Hd.
    rewrite !length_take, length_drop, length_take. lia.
Qed.

Lemma MoBA_poses_fixed target weight intr ii jj t0 t1 ep lm st :
  poses_fixed t0 t1 st (final (MoBA target weight intr ii jj t0 t1 ep lm st)).
Proof.
  intros i Hi. unfold MoBA. run_solve; try done.
  eapply retract_window_fixed; eauto.
Qed.

Lemma BA_poses_fixed target weight intr ii jj t0 t1 eta sens alpha ep lm so st :
  poses_fixed t0 t1 st
    (final (BA target weight intr ii jj t0 t1 eta sens alpha ep lm so st)).
Proof.
  intros i Hi. unfold BA. run_solve; try done;
    eapply retract_window_fixed; eauto.
Qed.

Lemma BA_prior_poses_fixed target weight intr ii jj t0 t1 eta sens ep lm alpha
    st :
  poses_fixed t0 t1 st
    (final (BA_prior target weight intr ii jj t0 t1 eta sens ep lm alpha st)).
Proof.
  intros i Hi. unfold BA_prior. run_solve; try done;
    eapply retract_window_fixed; eauto.
Qed.

Lemma BA_prior_no_motion_poses target weight intr ii jj t0 t1 eta sens ep lm
    alpha st :
  all_poses (final (BA_prior_no_motion target weight intr ii jj t0 t1 eta sens
                      ep lm alpha st)) = all_poses st.
Proof. unfold BA_prior_no_motion. run_solve; done. Qed.

Lemma BA_prior_no_motion_poses_fixed target weight intr ii jj t0 t1 eta sens
    ep lm alpha st :
  poses_fixed t0 t1 st
    (final (BA_prior_no_motion target weight intr ii jj t0 t1 eta sens ep lm
              alpha st)).
Proof. intros i _. by rewrite BA_prior_no_motion_poses. Qed.

Lemma ba_loop_poses_fixed t0 t1 iters (f : M unit) :
  (∀ st, poses_fixed t0 t1 st (final (f st))) →
  ∀ st, poses_fixed t0 t1 st (final (ba_loop iters f st)).
Proof.
  intros Hf. induction iters as [|n IH]; intros st; simpl.
  - apply poses_fixed_refl.
  - unfold bind, get. specialize (Hf st).
    destruct (f st) as [[] st'|e st']; simpl in *.
    + eapply poses_fixed_trans; [exact Hf|apply IH].
    + exact Hf.
Qed.

Lemma bundle_adjustment_poses_fixed target weight damping intr ii jj t0 t1 sens
    iters lm ep so mo sp alpha st :
  poses_fixed t0 t1 st
    (final (bundle_adjustment target weight damping intr ii jj t0 t1 sens iters
              lm ep so mo sp alpha st)).
Proof.
  unfold bundle_adjustment, bind, get, lift, assert_, ret.
  repeat (case_match; simplify_eq/=); try apply poses_fixed_refl;
    apply ba_loop_poses_fixed; intros st';
    auto using MoBA_poses_fixed, BA_poses_fixed, BA_prior_poses_fixed,
      BA_prior_no_motion_poses_fixed, poses_fixed_refl.
Qed.

Ltac beyond_window :=
  run_solve;
  try apply beyond_unchanged_refl;
  intros ? ?; simpl; repeat split; try done;
  solve [ eauto using set_window_lookup_ge
        | erewrite bind_set_window_ge by eauto; done ].

Lemma MoBA_beyond_unchanged target weight intr ii jj t0 t1 ep lm st :
  beyond_unchanged t1 st (final (MoBA target weight intr ii jj t0 t1 ep lm st)).
Proof. unfold MoBA. beyond_window. Qed.

Lemma BA_beyond_unchanged target weight intr ii jj t0 t1 eta sens alpha ep lm
    so st :
  beyond_unchanged t1 st
    (final (BA target weight intr ii jj t0 t1 eta sens alpha ep lm so st)).
Proof. unfold BA. beyond_window. Qed.

Lemma BA_prior_beyond_unchanged target weight intr ii jj t0 t1 eta sens ep lm
    alpha st :
  beyond_unchanged t1 st
    (final (BA_prior target weight intr ii jj t0 t1 eta sens ep lm alpha st)).
Proof. unfold BA_prior. beyond_window. Qed.

Lemma BA_prior_no_motion_beyond_unchanged target weight intr ii jj t0 t1 eta
    sens ep lm alpha st :
  beyond_unchanged t1 st
    (final (BA_prior_no_motion target weight intr ii jj t0 t1 eta sens ep lm
              alpha st)).
Proof. unfold BA_prior_no_motion. beyond_window. Qed.

Lemma ba_loop_beyond_unchanged t1 iters (f : M unit) :
  (∀ st, beyond_unchanged t1 st (final (f st))) →
  ∀ st, beyond_unchanged t1 st (final (ba_loop iters f st)).
Proof.
  intros Hf. induction iters as [|n IH]; intros st; simpl.
  - apply beyond_unchanged_refl.
  - unfold bind, get. specialize (Hf st).
    destruct (f st) as [[] st'|e st']; simpl in *.
    + eapply beyond_unchanged_trans; [exact Hf|apply IH].
    + exact Hf.
Qed.

Lemma bundle_adjustment_beyond_unchanged target weight damping intr ii jj t0 t1
    sens iters lm ep so mo sp alpha st :
  beyond_unchanged t1 st
    (final (bundle_adjustment target weight damping intr ii jj t0 t1 sens iters
              lm ep so mo sp alpha st)).
Proof.
  unfold bundle_adjustment, bind, get, lift, assert_, ret.
  repeat (case_match; simplify_eq/=); try apply beyond_unchanged_refl;
    apply ba_loop_beyond_unchanged; intros st';
    auto using MoBA_beyond_unchanged, BA_beyond_unchanged,
      BA_prior_beyond_unchanged, BA_prior_no_motion_beyond_unchanged,
      beyond_unchanged_refl.
Qed.

End Frames.

(** ** Joint BA with a zero prior *)

Section ZeroPrior.
Context `{Ext : Externals}.

Lemma scatter_pose_structure_shape b ii jj kk m n d hw H E C v w :
  Forall (λ r : list Qc, length r = hw) (Ck b) →
  Forall (λ r : list Qc, length r = hw) (wk b) →
  scatter_pose_structure b ii jj kk m n d hw = Some (H, E, C, v, w) →
  shaped (Z.to_nat n) hw C ∧ shaped (Z.to_nat n) hw w.
Proof.
  intros HCk Hwk. unfold scatter_pose_structure.
  intros Hs. inv_bind. case_decide; [|done]. inv_bind. simplify_eq.
  match goal with
  | HC : safe_scatter_add_vec _ _ (Ck b) _ _ = Some C,
    Hw : safe_scatter_add_vec _ _ (wk b) _ _ = Some w |- _ =>
      split;
      [ exact (safe_scatter_add_vec_shape _ _ (λ r, length r = hw)
                 (λ r, length r = hw) _ _ _ _
                 (radd_length hw) (rzero_length hw) HCk HC)
      | exact (safe_scatter_add_vec_shape _ _ (λ r, length r = hw)
                 (λ r, length r = hw) _ _ _ _
                 (radd_length hw) (rzero_length hw) Hwk Hw) ]
  end.
Qed.

Lemma BA_system_zero_prior target weight intr ii jj t0 t1 eta alpha st
    (n hw : nat) :
  per_pixel_structure →
  shaped n hw (all_disps st) →
  Forall (λ i, 0 ≤ i < Z.of_nat (Nat.min t1 n)) ii →
  BA_system target weight intr ii jj t0 t1 eta
    (Some (replicate n (rzero hw))) alpha st
  = BA_system target weight intr ii jj t0 t1 eta None alpha st.
Proof.
  intros Hlin Hd Hii. unfold BA_system.
  destruct (linearize _ _ _ _ _ _ _) as [b|] eqn:Hb; [|done]. opt_simpl.
  destruct (unique ii) as [kx kk] eqn:Hu.
  destruct (scatter_pose_structure _ _ _ _ _ _ _ _)
    as [[[[[Hm E] C] v] w]|] eqn:Hs; [|done]. opt_simpl.
  apply Hlin in Hb as [HCk Hwk].
  destruct (scatter_pose_structure_shape _ _ _ _ _ _ _ _ _ _ _ _ _ HCk Hwk Hs)
    as [HC Hw]. rewrite Nat2Z.id in HC, Hw.
  pose proof (shaped_take _ _ t1 _ Hd) as Hwin.
  assert (Hkx : Forall (λ i, 0 ≤ i < Z.of_nat (Nat.min t1 n)) kx).
  { replace kx with (unique ii).1 by (by rewrite Hu). by apply unique_in_range. }
  rewrite take_replicate.
  destruct (ncols_shaped _ _ _ Hwin) as [Hempty|Hcols].
  - (* an empty window *)
    rewrite Hempty in *. destruct Hwin as [Hlen _]. simpl in Hlen.
    rewrite <- Hlen in *. change (replicate 0 (rzero hw)) with
      (replicate 0 (rzero 0)).
    by rewrite (BA_damping_zero_prior 0 0 [] _ _ _ _ _
                  (shaped_replicate 0 0 (Q2Qc 0)) Hkx HC Hw).
  - rewrite Hcols in *.
    by rewrite (BA_damping_zero_prior _ _ _ _ _ _ _ _ Hwin Hkx HC Hw).
Qed.

Lemma BA_zero_prior target weight intr ii jj t0 t1 eta alpha ep lm so st
    (n hw : nat) :
  per_pixel_structure →
  shaped n hw (all_disps st) →
  Forall (λ i, 0 ≤ i < Z.of_nat (Nat.min t1 n)) ii →
  BA target weight intr ii jj t0 t1 eta (Some (replicate n (rzero hw)))
    alpha ep lm so st
  = BA target weight intr ii jj t0 t1 eta None alpha ep lm so st.
Proof.
  intros. unfold BA, bind, get. by rewrite BA_system_zero_prior.
Qed.

Lemma BA_shape_preserved target weight intr ii jj t0 t1 eta sens alpha ep lm
    so st (n hw : nat) :
  shaped n hw (all_disps st) →
  shaped n hw
    (all_disps (final (BA target weight intr ii jj t0 t1 eta sens alpha ep lm
                         so st))).
Proof.
  intros Hd. pose proof (shaped_take _ _ t1 _ Hd) as Hwin.
  assert (Hnew : ∀ dzf dz new kx,
             rearrange (length kx) (ncols (take t1 (all_disps st))) dzf = Some dz →
             additive_retr (rzero (ncols (take t1 (all_disps st)))) radd
               (take t1 (all_disps st)) dz kx = Some new →
             shaped (Nat.min t1 n) hw new).
  { intros dzf dz new kx Hdz Hnew.
    destruct (ncols_shaped _ _ _ Hwin) as [Hempty|Hcols].
    - rewrite Hempty in *. unfold additive_retr in Hnew.
      destruct (scatter_sum _ _ _ _ _); simplify_eq/=.
      destruct Hwin as [<- _]. by split.
    - rewrite Hcols in *. apply rearrange_shaped in Hdz as [_ Hdz].
      by eapply additive_retr_shaped. }
  unfold BA. run_solve; try done; simpl; eauto using set_window_shaped.
Qed.

Lemma ba_loop_zero_prior target weight intr ii jj t0 t1 eta alpha ep lm so
    iters (n hw : nat) :
  per_pixel_structure →
  Forall (λ i, 0 ≤ i < Z.of_nat (Nat.min t1 n)) ii →
  ∀ st, shaped n hw (all_disps st) →
  ba_loop iters (BA target weight intr ii jj t0 t1 eta
                   (Some (replicate n (rzero hw))) alpha ep lm so) st
  = ba_loop iters (BA target weight intr ii jj t0 t1 eta None alpha ep lm so) st.
Proof.
  intros Hlin Hii. induction iters as [|k IH]; intros st Hd; [done|].
  simpl. unfold bind, get. rewrite BA_zero_prior by done.
  pose proof (BA_shape_preserved target weight intr ii jj t0 t1 eta None alpha
                ep lm so st n hw Hd) as Hd'.
  destruct (BA _ _ _ _ _ _ _ _ None _ _ _ _ st) as [[] st'|e st']; [|done].
  simpl in Hd'. by apply IH.
Qed.
End ZeroPrior.

(** ** Prior-regularized structure-only BA *)

Section PriorNoMotion.
Context `{Ext : Externals}.

Lemma BA_prior_no_motion_system_inv target weight intr ii jj t0 t1 eta sens
    alpha st ps :
  BA_prior_no_motion_system target weight intr ii jj t0 t1 eta sens alpha st
  = Some ps →
  let kx := (unique ii).1 in
  let kx_exp := (unique (arange t0 t1 ++ ii)).1 in
  let hw := ncols (take t1 (all_disps st)) in
  let zeros := replicate (length kx_exp) (rzero hw) in
  ps_kx_exp ps = kx_exp ∧
  ps_non_empty ps = isin kx_exp kx ∧
  (∃ C, mask_assign (isin kx_exp kx) zeros C = Some (ps_C_pad ps)) ∧
  (∃ w, mask_assign (isin kx_exp kx) zeros w = Some (ps_w_pad ps)) ∧
  (∃ upd, mask_assign (isin kx_exp kx) (ps_w_pad ps) upd = Some (ps_w_exp ps)) ∧
  (∃ Js Jo,
     ps_Js_exp ps = (if decide (0 < Z.of_nat (length kx_exp) - Z.of_nat (length kx))
                     then zero_columns (isin kx_exp kx) Js else Js) ∧
     ps_Jo_exp ps = (if decide (0 < Z.of_nat (length kx_exp) - Z.of_nat (length kx))
                     then zero_columns (isin kx_exp kx) Jo else Jo)).
Proof.
  unfold BA_prior_no_motion_system, get_keyframe_window, unpack_window,
    sub_scaled_where.
  intros Hs. repeat (inv_bind; repeat case_match; simplify_eq).
  all: simpl in *; repeat split; eauto; try lia.
Qed.


Lemma BA_prior_no_motion_padded target weight intr ii jj t0 t1 eta sens
    alpha st ps :
  BA_prior_no_motion_system target weight intr ii jj t0 t1 eta sens alpha st
  = Some ps →
  let hw := ncols (take t1 (all_disps st)) in
  NoDup (ps_kx_exp ps) ∧
  (∀ f : nat, (t0 ≤ f < t1)%nat → Z.of_nat f ∈ ps_kx_exp ps) ∧
  (∀ i : Z, i ∈ ii → i ∈ ps_kx_exp ps) ∧
  (∀ (k : nat) (f : Z), ps_kx_exp ps !! k = Some f → f ∉ ii →
     ps_C_pad ps !! k = Some (rzero hw) ∧
     ps_w_pad ps !! k = Some (rzero hw) ∧
     ps_w_exp ps !! k = Some (rzero hw) ∧
     col k (ps_Js_exp ps) = replicate (length (ps_Js_exp ps)) (Q2Qc 0) ∧
     col k (ps_Jo_exp ps) = replicate (length (ps_Jo_exp ps)) (Q2Qc 0)).
Proof.
  intros Hs hw.
  destruct (BA_prior_no_motion_system_inv _ _ _ _ _ _ _ _ _ _ _ _ Hs)
    as (Hkx & Hne & [C HC] & [w Hw] & [upd Hupd] & (Js & Jo & HJs & HJo)).
  rewrite Hkx. split; [apply unique_NoDup|].
  split; [|split].
  - intros f Hf. rewrite elem_of_unique, elem_of_app, elem_of_arange. auto.
  - intros i Hi. rewrite elem_of_unique, elem_of_app. auto.
  - intros k f Hk Hf.
    assert (Hmask : isin (unique (arange t0 t1 ++ ii)).1 (unique ii).1 !! k
                    = Some false).
    { rewrite (isin_lookup _ _ _ _ Hk). f_equal. apply bool_decide_false.
      by rewrite elem_of_unique. }
    assert (Hzero : replicate (length (unique (arange t0 t1 ++ ii)).1)
                      (rzero hw) !! k = Some (rzero hw)).
    { apply lookup_replicate_2. by eapply lookup_lt_Some. }
    assert (Hlonger : 0 < Z.of_nat (length (unique (arange t0 t1 ++ ii)).1)
                          - Z.of_nat (length (unique ii).1)).
    { assert (length (unique ii).1
              < length (unique (arange t0 t1 ++ ii)).1)%nat; [|lia].
      eapply unique_expanded_longer; [|done]. by eapply list_elem_of_lookup_2. }
    rewrite decide_True in HJs, HJo by done.
    assert (HCk : ps_C_pad ps !! k = Some (rzero hw))
      by (by rewrite (mask_assign_lookup_false _ _ _ _ _ HC Hmask)).
    assert (Hwk : ps_w_pad ps !! k = Some (rzero hw))
      by (by rewrite (mask_assign_lookup_false _ _ _ _ _ Hw Hmask)).
    repeat split; [done|done| | |].
    + by rewrite (mask_assign_lookup_false _ _ _ _ _ Hupd Hmask).
    + rewrite HJs, col_zero_columns by done. unfold zero_columns.
      by rewrite length_fmap.
    + rewrite HJo, col_zero_columns by done. unfold zero_columns.
      by rewrite length_fmap.
Qed.

Lemma BA_prior_no_motion_solve_inv hw alpha ep lm ps ds do dz :
  BA_prior_no_motion_solve hw alpha ep lm ps = Some (ds, do, dz) →
  shaped (length (ps_kx_exp ps)) hw dz.
Proof.
  unfold BA_prior_no_motion_solve. intros Hs.
  repeat (inv_bind; repeat case_match; simplify_eq).
  by eapply rearrange_shaped.
Qed.

Lemma BA_prior_no_motion_updates target weight intr ii jj t0 t1 eta sens
    ep lm alpha st st' :
  BA_prior_no_motion target weight intr ii jj t0 t1 eta sens ep lm alpha st
  = Return tt st' →
  let hw := ncols (take t1 (all_disps st)) in
  ∃ ps ds do dz,
    BA_prior_no_motion_system target weight intr ii jj t0 t1 eta sens alpha st
    = Some ps ∧
    BA_prior_no_motion_solve hw alpha ep lm ps = Some (ds, do, dz) ∧
    (length ds = length (ps_kx_exp ps) → length do = length (ps_kx_exp ps) →
     ∀ (k f : nat), ps_kx_exp ps !! k = Some (Z.of_nat f) →
       ∃ d s o dzk dsk dok,
         all_disps st !! f = Some d ∧
         (all_scales st ≫= (.!! f)) = Some s ∧
         (all_shifts st ≫= (.!! f)) = Some o ∧
         dz !! k = Some dzk ∧ ds !! k = Some dsk ∧ do !! k = Some dok ∧
         all_disps st' !! f = Some (radd d dzk) ∧
         (all_scales st' ≫= (.!! f)) = Some (s + dsk)%Qc ∧
         (all_shifts st' ≫= (.!! f)) = Some (o + dok)%Qc).
Proof.
  intros Hret hw. unfold BA_prior_no_motion in Hret. revert Hret.
  unfold get_keyframe_window, unpack_window. run_solve; intros Heq;
    simplify_eq.
  match goal with
  | Hsys : BA_prior_no_motion_system _ _ _ _ _ _ _ _ _ _ _ = Some ?ps,
    Hsol : BA_prior_no_motion_solve _ _ _ _ ?ps = Some (?ds, ?do, ?dz) |- _ =>
      exists ps, ds, do, dz; split; [done|]; split; [done|];
      destruct (BA_prior_no_motion_padded _ _ _ _ _ _ _ _ _ _ _ _ Hsys)
        as (Hnd & _);
      pose proof (BA_prior_no_motion_solve_inv _ _ _ _ _ _ _ _ Hsol)
        as [Hdzl Hdzk]
  end.
  intros Hds Hdo k f Hk.
  pose proof (lookup_lt_Some _ _ _ Hk) as Hlt.
  match goal with
  | |- context [?dz !! k = Some _ ∧ ?ds !! k = Some _ ∧ ?do !! k = Some _ ∧ _] =>
      destruct (lookup_lt_is_Some_2 dz k) as [dzk Hdz]; [lia|];
      destruct (lookup_lt_is_Some_2 ds k) as [dsk Hdsk]; [lia|];
      destruct (lookup_lt_is_Some_2 do k) as [dok Hdok]; [lia|]
  end.
  repeat match goal with
  | Hr : additive_retr _ _ _ _ _ = Some _ |- _ =>
      eapply additive_retr_lookup in Hr as (? & ? & ?); [|done|lia|done|done]
  end.
  repeat match goal with
  | Hw : _ ≫= set_window _ _ = Some _ |- _ =>
      apply bind_Some in Hw as (? & ? & Hw)
  end. simplify_eq.
  repeat match goal with
  | Hl : take _ _ !! _ = Some _ |- _ => apply lookup_take_Some in Hl as [Hl _]
  end.
  do 6 eexists. do 6 (split; [eassumption|]). simpl.
  repeat split.
  - erewrite set_window_lookup_window by eassumption.
    rewrite radd_rzero_l; [done|]. rewrite Forall_forall in Hdzk.
    apply Hdzk. by eapply list_elem_of_lookup_2.
  - erewrite set_window_lookup_window by eassumption. by rewrite Qcplus_0_l.
  - erewrite set_window_lookup_window by eassumption. by rewrite Qcplus_0_l.
Qed.
End PriorNoMotion.

(** ** The fallback of the motion-only solve, and the entry point *)

Section Fallback.
Context `{Ext : Externals}.

Lemma MoBA_solve_chain (H : mat) (v : row) :
  MoBA_solve H v =
  if negb (existsb isnan (CholeskySolver_apply H v))
  then CholeskySolver_apply H v
  else if negb (existsb isnan (LUSolver_apply H v))
       then LUSolver_apply H v
       else replicate (length (LUSolver_apply H v)) (Fin (Q2Qc 0)).
Proof.
  unfold MoBA_solve. destruct (existsb isnan (CholeskySolver_apply H v)); [|done].
  by destruct (existsb isnan (LUSolver_apply H v)).
Qed.

Lemma MoBA_solve_no_nan (H : mat) (v : row) :
  existsb isnan (MoBA_solve H v) = false.
Proof.
  unfold MoBA_solve.
  destruct (existsb isnan (CholeskySolver_apply H v)) eqn:Hc; [|done].
  destruct (existsb isnan (LUSolver_apply H v)) eqn:Hl; [|done].
  by apply existsb_replicate_false.
Qed.

Lemma MoBA_applies_solve target weight intr ii jj t0 t1 ep lm st st' :
  MoBA target weight intr ii jj t0 t1 ep lm st = Return tt st' →
  ∃ m H v dx,
    MoBA_system target weight intr ii jj t0 t1 ep lm st = Some (m, H, v) ∧
    rearrange (Z.to_nat m) manifold_dim (MoBA_solve H v) = Some dx ∧
    Forall (Forall (λ x, isnan x = false)) dx ∧
    all_poses st' =
      (take (Nat.max t0 1) (take t1 (all_poses st)) ++
       zip_with retr (drop (Nat.max t0 1) (take t1 (all_poses st)))
         ((λ tangent : list f64, to_float32 <$> tangent) <$> dx)) ++
      drop t1 (all_poses st).
Proof.
  unfold MoBA, retr_batch. run_solve; intros Heq; simplify_eq.
  match goal with
  | Hw : set_window _ _ _ = Some _ |- _ =>
      unfold set_window in Hw; case_decide; [|done]; injection Hw as <-
  end.
  do 4 eexists. split; [reflexivity|]. split; [eassumption|].
  split; [|done].
  eapply rearrange_Forall; [eassumption|].
  apply existsb_false_Forall, MoBA_solve_no_nan.
Qed.
End Fallback.

Section Entry.
Context `{Ext : Externals}.

Lemma bundle_adjustment_both_flags target weight damping intr ii jj t0 t1 sens
    iters lm ep sp alpha st :
  bundle_adjustment target weight damping intr ii jj t0 t1 sens iters lm ep
    true true sp alpha st = Raise AssertionError st.
Proof. done. Qed.

Lemma bundle_adjustment_no_prior target weight damping intr ii jj t0 t1
    iters lm ep so mo alpha st :
  bundle_adjustment target weight damping intr ii jj t0 t1 None iters lm ep
    so mo true alpha st = Raise AssertionError st.
Proof. unfold bundle_adjustment, bind, assert_. by destruct so, mo. Qed.
End Entry.

Section SlamFacts.
Context `{Wk : Workers}.

(** The object that [__init__] has set up when it reaches
    [sanity_checks]. *)
Lemma SLAM_setup_fresh (c : config) (out : option string) (self : SLAM) :
  SLAM_setup c out = inr self →
  self = {| cfg := c; video := DepthVideo c;
            max_ram_usage := default (Q2Qc (9 # 10)) (cfg_max_ram_usage c);
            backend := Some (BackendWrapper c); printed := [] |}.
Proof.
  unfold SLAM_setup, mbind, exn_bind. intros Hs.
  repeat match type of Hs with
         | match ?x with _ => _ end = _ => destruct x; try discriminate
         end.
  by injection Hs as <-.
Qed.

Lemma SLAM_init_setup (c : config) (out : option string) :
  SLAM_init c out =
  match SLAM_setup c out with
  | inl e => inl e
  | inr self => match sanity_checks self with
                | Some e => inl e
                | None => inr self
                end
  end.
Proof. done. Qed.

Lemma SLAM_init_fresh (c : config) (out : option string) (self : SLAM) :
  SLAM_init c out = inr self →
  SLAM_setup c out = inr self ∧ sanity_checks self = None ∧
  backend self = Some (BackendWrapper c) ∧ printed self = [] ∧
  max_ram_usage self = default (Q2Qc (9 # 10)) (cfg_max_ram_usage c).
Proof.
  rewrite SLAM_init_setup. destruct (SLAM_setup c out) as [e|s] eqn:Hs; [done|].
  destruct (sanity_checks s) eqn:Hc; [done|]. intros [= <-].
  apply SLAM_setup_fresh in Hs. by rewrite Hs in *.
Qed.

Lemma conflict_fatal (c : config) (out : option string) (e : exn) :
  (∀ self, SLAM_setup c out = inr self → sanity_checks self = Some e) →
  (∃ e', SLAM_init c out = inl e' ∧ construct_and_run c out = inl e') ∧
  (∀ self, SLAM_setup c out = inr self →
     SLAM_init c out = inl e ∧ construct_and_run c out = inl e).
Proof.
  intros Hc. unfold construct_and_run. rewrite SLAM_init_setup.
  destruct (SLAM_setup c out) as [e'|s] eqn:Hs.
  - split; [by exists e'|]. by intros self.
  - rewrite (Hc s eq_refl). split; [by exists e|]. by intros self.
Qed.

Lemma stereo_fatal (c : config) (out : option string) :
  mode c = "stereo"%string →
  (∃ e, SLAM_init c out = inl e ∧ construct_and_run c out = inl e) ∧
  (∀ self, SLAM_setup c out = inr self →
     SLAM_init c out = inl NotImplementedError ∧
     construct_and_run c out = inl NotImplementedError).
Proof.
  intros Hm. apply conflict_fatal. intros self ->%SLAM_setup_fresh.
  unfold sanity_checks. simpl. by rewrite Hm.
Qed.

Lemma prgbd_conflict_fatal (c : config) (out : option string) :
  mode c = "prgbd"%string →
  optimize_scales (DepthVideo c) = true → opt_intr (DepthVideo c) = true →
  (∃ e, SLAM_init c out = inl e ∧ construct_and_run c out = inl e) ∧
  (∀ self, SLAM_setup c out = inr self →
     SLAM_init c out = inl AssertionError ∧
     construct_and_run c out = inl AssertionError).
Proof.
  intros Hm Hs Hi. apply conflict_fatal. intros self ->%SLAM_setup_fresh.
  unfold sanity_checks. simpl. by rewrite Hm, Hs, Hi.
Qed.

(** One turn of the loop of [global_ba], by the backend there is and the
    utilization sampled, for a high-water mark that is not below the
    low-water mark. *)
Lemma global_ba_cycle_hysteresis (mem : Z * Z) (self : SLAM) :
  (min_ram_default ≤ max_ram_usage self)%Qc →
  let used := (get_ram_usage mem).1 in
  let r := global_ba_cycle mem self in
  ((max_ram_usage self < used)%Qc → is_Some (backend self) →
   backend r.1 = None ∧ r.2 = false ∧
   printed r.1 = printed self ++ [DeletingBackend]) ∧
  (∀ b, backend self = Some b → (used ≤ max_ram_usage self)%Qc →
   backend r.1 = Some (backend_call b) ∧ r.2 = true ∧
   printed r.1 = printed self) ∧
  (backend self = None → (used ≤ min_ram_default)%Qc →
   backend r.1 = Some (backend_call (backend_to (BackendWrapper (cfg self)))) ∧
   r.2 = true ∧
   printed r.1 = printed self ++ [ReinstantiatingBackend]) ∧
  (backend self = None → (min_ram_default < used)%Qc →
   backend r.1 = None ∧ r.2 = false ∧ printed r.1 = printed self) ∧
  (∀ l, printed r.1 = printed self ++ l → ReinstantiatingBackend ∈ l →
   backend self = None ∧ (used ≤ min_ram_default)%Qc).
Proof.
  intros Hside. unfold global_ba_cycle, ram_safeguard_backend.
  destruct (get_ram_usage mem) as [used free]. cbn [fst].
  destruct self as [c v mr [b|] pr];
    cbn [backend printed cfg video max_ram_usage] in *;
  destruct (decide (mr < used)%Qc) as [Hmax|Hmax];
  destruct (decide (used ≤ min_ram_default)%Qc) as [Hmin|Hmin];
  try (exfalso; apply (Qclt_not_le _ _ (Qcle_lt_trans _ _ _ Hside Hmax));
       exact Hmin);
  rewrite ?(bool_decide_true (mr < used)%Qc) by done;
  rewrite ?(bool_decide_false (mr < used)%Qc) by done;
  rewrite ?(bool_decide_true (used ≤ min_ram_default)%Qc) by done;
  rewrite ?(bool_decide_false (used ≤ min_ram_default)%Qc) by done;
  simpl.
  all: repeat split; intros; try done; try congruence.
  all: try (exfalso; eapply Qclt_not_le; eassumption).
  all: try by (destruct (is_Some_None (A := Backend)); done).
  all: match goal with
       | Hl : _ = _ ++ ?l, Hin : _ ∈ ?l |- _ =>
           first [ apply app_tail_nil in Hl | apply app_tail_eq in Hl ];
           subst l; exfalso;
           repeat (apply elem_of_cons in Hin as [Hin|Hin]; [discriminate|]);
           by apply elem_of_nil in Hin
       end.
Qed.
End SlamFacts.


(** * Properties of the specification *)

(** C1 (the source breaks it).  The claim: after every iteration the
    disparities are clamped to the floor [0.001], so no disparity is below
    it when [bundle_adjustment] returns.  The source calls
    [disps.clamp(min=0.001)], which builds a new tensor and leaves [disps]
    as it is: one joint iteration that lowers the disparity [1/2] of frame
    [0] by [1] returns with the disparity [-1/2]. *)
Theorem bundle_adjustment_keeps_negative_disparity :
  (∃ st', joint_call 1 = Return tt st') ∧
  all_disps (final (joint_call 1)) !! 0%nat = Some [Q2Qc (-1 # 2)] ∧
  (Q2Qc (-1 # 2) < Q2Qc 0)%Qc ∧ (Q2Qc (-1 # 2) < disp_floor)%Qc.
Proof.
  split; [eexists; vm_compute; reflexivity|].
  split; [apply (bool_decide_unpack _); vm_compute; exact I|].
  split; reflexivity.
Qed.

(** C2 (the source breaks it).  The claim: every accumulator drops the
    contributions whose index is [< 0] or [>= n].  The two out-of-place
    accumulators do; the two in-place ones mask negative indices only.  An
    edge [(0, 2)] of a [2 x 2] system is added to the cell [(1, 0)] by
    [safe_scatter_add_mat_inplace] and is dropped by [safe_scatter_add_mat];
    the index [2] of a vector of two nodes makes
    [safe_scatter_add_vec_inplace] raise and is dropped by
    [safe_scatter_add_vec]. *)
Theorem inplace_accumulators_keep_high_index :
  safe_scatter_add_mat_inplace Z.add [0; 0; 0; 0] [7] [0] [2] 2
  = Some [0; 0; 7; 0] ∧
  safe_scatter_add_mat 0 Z.add int64 [7] [0] [2] 2 2 = Some [0; 0; 0; 0] ∧
  safe_scatter_add_vec_inplace Z.add [0; 0] [7] [2] = None ∧
  safe_scatter_add_vec 0 Z.add [7] [2] 2 = Some [0; 0].
Proof. repeat split; reflexivity. Qed.


(** C4.  Whatever the variant and the number of iterations, a call of the
    entry point, and each of the four solve functions by itself, leaves
    every pose below [max(t0, 1)], the pose of frame [0] among them, as it
    was; so do they every pose at or beyond [t1]: only the poses in
    [[max(t0, 1), t1)] can receive a retraction.  This holds of the store a
    call leaves behind when it raises, too. *)
Theorem poses_outside_window_fixed `{Ext : Externals}
    target weight damping intr ii jj t0 t1 sens sens' iters lm ep so mo sp
    alpha st :
  poses_fixed t0 t1 st
    (final (bundle_adjustment target weight damping intr ii jj t0 t1 sens
              iters lm ep so mo sp alpha st)) ∧
  poses_fixed t0 t1 st
    (final (MoBA target weight intr ii jj t0 t1 ep lm st)) ∧
  poses_fixed t0 t1 st
    (final (BA target weight intr ii jj t0 t1 damping sens alpha ep lm so st)) ∧
  poses_fixed t0 t1 st
    (final (BA_prior target weight intr ii jj t0 t1 damping sens' ep lm alpha
              st)) ∧
  poses_fixed t0 t1 st
    (final (BA_prior_no_motion target weight intr ii jj t0 t1 damping sens' ep
              lm alpha st)).
Proof.
  auto 10 using bundle_adjustment_poses_fixed, MoBA_poses_fixed,
    BA_poses_fixed, BA_prior_poses_fixed, BA_prior_no_motion_poses_fixed.
Qed.

(** The pose of frame [0] after two joint iterations on two keyframes. *)
Lemma poses_outside_window_fixed_witness :
  all_poses (final (joint_call 2)) !! 0%nat
  = all_poses (keyframes (Ext := negative_update) [] 2) !! 0%nat.
Proof.
  apply (proj1 (poses_outside_window_fixed (Ext := negative_update)
                  [[]] [[]] [[Q2Qc 0]] [[]; []] [0] [1] 0 2 None [] 2
                  (Q2Qc (1 # 10000)) (Q2Qc (1 # 10)) false false false 1%Qc
                  (keyframes (Ext := negative_update) [] 2))).
  left. simpl. lia.
Defined.

(** C5.  Whatever the variant, a call of the entry point, and each of the
    four solve functions by itself, leaves every entry at an index [>= t1]
    of the pose, disparity, scale and shift tensors as it was. *)
Theorem nothing_written_beyond_t1 `{Ext : Externals}
    target weight damping intr ii jj t0 t1 sens sens' iters lm ep so mo sp
    alpha st :
  beyond_unchanged t1 st
    (final (bundle_adjustment target weight damping intr ii jj t0 t1 sens
              iters lm ep so mo sp alpha st)) ∧
  beyond_unchanged t1 st
    (final (MoBA target weight intr ii jj t0 t1 ep lm st)) ∧
  beyond_unchanged t1 st
    (final (BA target weight intr ii jj t0 t1 damping sens alpha ep lm so st)) ∧
  beyond_unchanged t1 st
    (final (BA_prior target weight intr ii jj t0 t1 damping sens' ep lm alpha
              st)) ∧
  beyond_unchanged t1 st
    (final (BA_prior_no_motion target weight intr ii jj t0 t1 damping sens' ep
              lm alpha st)).
Proof.
  auto 10 using bundle_adjustment_beyond_unchanged, MoBA_beyond_unchanged,
    BA_beyond_unchanged, BA_prior_beyond_unchanged,
    BA_prior_no_motion_beyond_unchanged.
Qed.

(** Frame [2] of three keyframes after two joint iterations on [[0, 2)]. *)
Lemma nothing_written_beyond_t1_witness :
  all_disps (final joint_call_of_three) !! 2%nat
  = all_disps (keyframes (Ext := negative_update) [] 3) !! 2%nat.
Proof.
  exact (proj1 (proj2 (proj1 (nothing_written_beyond_t1
           (Ext := negative_update)
           [[]] [[]] [[Q2Qc 0]] [[]; []; []] [0] [1] 0 2 None [] 2
           (Q2Qc (1 # 10000)) (Q2Qc (1 # 10)) false false false 1%Qc
           (keyframes (Ext := negative_update) [] 3)) 2%nat (le_n 2)))).
Defined.

(** C6.  The prior-regularized structure-only solve never writes a pose.
    The nodes [kx_exp] of its system are distinct and include every frame
    of [[t0, t1)] and every source frame of an edge.  For a node that no
    edge leaves, the rows of [C_exp] and [w_exp] are the zeros they were
    padded with when damping and prior are added, the row of [w_exp] is
    still zero when the system is handed on, and the columns of the two
    prior Jacobians are zero.  When the call returns, and the solver
    answered one scale and one shift update per node, every frame of the
    system (hence every frame of the window) has its disparity map, scale
    and shift increased by the update of its node. *)
Theorem prior_structure_only_covers_window `{Ext : Externals}
    target weight intr ii jj t0 t1 eta sens ep lm alpha st :
  let hw := ncols (take t1 (all_disps st)) in
  all_poses (final (BA_prior_no_motion target weight intr ii jj t0 t1 eta sens
                      ep lm alpha st)) = all_poses st ∧
  (∀ ps,
     BA_prior_no_motion_system target weight intr ii jj t0 t1 eta sens alpha st
     = Some ps →
     NoDup (ps_kx_exp ps) ∧
     (∀ f : nat, (t0 ≤ f < t1)%nat → Z.of_nat f ∈ ps_kx_exp ps) ∧
     (∀ i : Z, i ∈ ii → i ∈ ps_kx_exp ps) ∧
     (∀ (k : nat) (f : Z), ps_kx_exp ps !! k = Some f → f ∉ ii →
        ps_C_pad ps !! k = Some (rzero hw) ∧
        ps_w_pad ps !! k = Some (rzero hw) ∧
        ps_w_exp ps !! k = Some (rzero hw) ∧
        col k (ps_Js_exp ps) = replicate (length (ps_Js_exp ps)) (Q2Qc 0) ∧
        col k (ps_Jo_exp ps) = replicate (length (ps_Jo_exp ps)) (Q2Qc 0))) ∧
  (∀ st',
     BA_prior_no_motion target weight intr ii jj t0 t1 eta sens ep lm alpha st
     = Return tt st' →
     ∃ ps ds do dz,
       BA_prior_no_motion_system target weight intr ii jj t0 t1 eta sens alpha
         st = Some ps ∧
       BA_prior_no_motion_solve hw alpha ep lm ps = Some (ds, do, dz) ∧
       (length ds = length (ps_kx_exp ps) →
        length do = length (ps_kx_exp ps) →
        ∀ (k f : nat), ps_kx_exp ps !! k = Some (Z.of_nat f) →
          ∃ d s o dzk dsk dok,
            all_disps st !! f = Some d ∧
            (all_scales st ≫= (.!! f)) = Some s ∧
            (all_shifts st ≫= (.!! f)) = Some o ∧
            dz !! k = Some dzk ∧ ds !! k = Some dsk ∧ do !! k = Some dok ∧
            all_disps st' !! f = Some (radd d dzk) ∧
            (all_scales st' ≫= (.!! f)) = Some (s + dsk)%Qc ∧
            (all_shifts st' ≫= (.!! f)) = Some (o + dok)%Qc)).
Proof.
  intros hw. split; [apply BA_prior_no_motion_poses|]. split.
  - intros ps Hps. eapply BA_prior_no_motion_padded. exact Hps.
  - intros st' Hret. by apply BA_prior_no_motion_updates.
Qed.

(** Three keyframes and the single edge from frame [0] to frame [1]: frame
    [2] is in the window [[0, 3)] and in no edge.  Its structure row is
    zero, and the returning call adds the update of its node to its
    disparity. *)
Lemma prior_structure_only_covers_window_witness :
  ∃ ps st' d dzk,
    BA_prior_no_motion_system (Ext := negative_update)
      [[]] [[]] [[]; []; []] [0] [1] 0 3 (replicate 3 [Q2Qc 0])
      (replicate 3 [1%Qc]) 1%Qc (keyframes (Ext := negative_update) [] 3)
    = Some ps ∧
    ps_C_pad ps !! 2%nat = Some (rzero 1) ∧
    BA_prior_no_motion (Ext := negative_update)
      [[]] [[]] [[]; []; []] [0] [1] 0 3 (replicate 3 [Q2Qc 0])
      (replicate 3 [1%Qc]) (Q2Qc (1 # 10)) (Q2Qc (1 # 10000)) 1%Qc
      (keyframes (Ext := negative_update) [] 3)
    = Return tt st' ∧
    all_disps (keyframes (Ext := negative_update) [] 3) !! 2%nat = Some d ∧
    all_disps st' !! 2%nat = Some (radd d dzk).
Proof.
  pose proof (prior_structure_only_covers_window (Ext := negative_update)
                [[]] [[]] [[]; []; []] [0] [1] 0 3 (replicate 3 [Q2Qc 0])
                (replicate 3 [1%Qc]) (Q2Qc (1 # 10)) (Q2Qc (1 # 10000)) 1%Qc
                (keyframes (Ext := negative_update) [] 3))
    as (_ & Hpad & Hupd).
  assert (Hsys : ∃ ps,
             BA_prior_no_motion_system (Ext := negative_update)
               [[]] [[]] [[]; []; []] [0] [1] 0 3 (replicate 3 [Q2Qc 0])
               (replicate 3 [1%Qc]) 1%Qc
               (keyframes (Ext := negative_update) [] 3) = Some ps ∧
             ps_kx_exp ps = [0; 1; 2])
    by (eexists; split; vm_compute; reflexivity).
  destruct Hsys as (ps & Hps & Hkx).
  assert (Hret : ∃ st',
             BA_prior_no_motion (Ext := negative_update)
               [[]] [[]] [[]; []; []] [0] [1] 0 3 (replicate 3 [Q2Qc 0])
               (replicate 3 [1%Qc]) (Q2Qc (1 # 10)) (Q2Qc (1 # 10000)) 1%Qc
               (keyframes (Ext := negative_update) [] 3) = Return tt st')
    by (eexists; vm_compute; reflexivity).
  destruct Hret as [st' Hret].
  destruct (Hpad ps Hps) as (_ & _ & _ & Hzero).
  destruct (Hzero 2%nat 2) as (HC & _).
  { by rewrite Hkx. }
  { intros Hin. apply list_elem_of_singleton in Hin. lia. }
  destruct (Hupd st' Hret) as (ps' & ds & do & dz & Hps' & Hsol & Hall).
  assert (ps' = ps) as -> by congruence.
  assert (Hlen : length ds = 3%nat ∧ length do = 3%nat).
  { assert (Hc : ∃ ds' do' dz',
               BA_prior_no_motion_system (Ext := negative_update)
                 [[]] [[]] [[]; []; []] [0] [1] 0 3 (replicate 3 [Q2Qc 0])
                 (replicate 3 [1%Qc]) 1%Qc
                 (keyframes (Ext := negative_update) [] 3)
               ≫= BA_prior_no_motion_solve (Ext := negative_update) 1 1%Qc
                    (Q2Qc (1 # 10)) (Q2Qc (1 # 10000))
               = Some (ds', do', dz') ∧
               length ds' = 3%nat ∧ length do' = 3%nat)
      by (eexists _, _, _; split; [vm_compute; reflexivity | by split]).
    destruct Hc as (ds' & do' & dz' & Hc & Hl).
    rewrite Hps in Hc. simpl in Hc, Hsol.
    assert (Heq : Some (ds, do, dz) = Some (ds', do', dz'))
      by (rewrite <- Hsol, <- Hc; reflexivity).
    injection Heq as Hd1 Hd2 _. rewrite Hd1, Hd2. exact Hl. }
  destruct Hlen as [Hds Hdo].
  destruct (Hall ltac:(by rewrite Hkx) ltac:(by rewrite Hkx) 2%nat 2%nat)
    as (d & s & o & dzk & dsk & dok & Hd & _ & _ & _ & _ & _ & Hd' & _).
  { by rewrite Hkx. }
  exists ps, st', d, dzk. auto.
Defined.

(** ** Joint BA with a prior that is zero everywhere *)

(** C7. Bundle adjustment with a prior disparity map that is zero
    everywhere ([torch.zeros_like] of the disparities) returns the same
    outcome, exception or not, and leaves the same poses, disparities, scales
    and shifts as bundle adjustment with no prior on the same inputs, for any
    [alpha] and any number of iterations: the mask [disps_sens > 0] is empty,
    so neither [C] nor [w] receives a prior term.  The edges are those of
    frames inside the window, and [linearize] returns one structure entry per
    pixel. *)
Theorem zero_prior_is_no_prior `{Ext : Externals}
    (target weight damping intr : list row) (ii jj : list Z) (t0 t1 : nat)
    (iters : nat) (lm ep alpha : Qc) (structure_only : bool) (st : store)
    (n hw : nat) :
  per_pixel_structure →
  shaped n hw (all_disps st) →
  Forall (λ i, 0 ≤ i < Z.of_nat (Nat.min t1 n)) ii →
  bundle_adjustment target weight damping intr ii jj t0 t1
    (Some (zeros_like (all_disps st))) iters lm ep structure_only false
    false alpha st
  = bundle_adjustment target weight damping intr ii jj t0 t1 None iters lm ep
      structure_only false false alpha st.
Proof.
  intros Hlin Hd Hii. unfold bundle_adjustment, bind, assert_, get, ret.
  destruct structure_only; cbn [Nat.b2n Nat.add Nat.leb];
    unfold zeros_like; rewrite (tmap_const_shaped _ n hw) by done;
    by apply ba_loop_zero_prior.
Qed.

Lemma zero_prior_is_no_prior_witness :
  ∃ st',
    bundle_adjustment (Ext := negative_update)
      [[]] [[]] [[Q2Qc 0]] [[]; []] [0] [1] 0 2
      (Some (zeros_like
               (all_disps (keyframes (Ext := negative_update) [] 2))))
      2 (Q2Qc (1 # 10000)) (Q2Qc (1 # 10)) false false false (Q2Qc (7 # 10))
      (keyframes (Ext := negative_update) [] 2)
    = joint_call 2 ∧
    joint_call 2 = Return tt st'.
Proof.
  eexists. split.
  - apply (zero_prior_is_no_prior (Ext := negative_update)
             [[]] [[]] [[Q2Qc 0]] [[]; []] [0] [1] 0 2 2 (Q2Qc (1 # 10000))
             (Q2Qc (1 # 10)) (Q2Qc (7 # 10)) false
             (keyframes (Ext := negative_update) [] 2) 2 1).
    + intros poses disps intr ii jj target weight b Hb.
      injection Hb as <-. split; apply Forall_replicate, length_replicate.
    + split; [done|]. by apply Forall_replicate.
    + apply Forall_singleton. simpl. lia.
  - vm_compute. reflexivity.
Defined.

(** ** The memory safeguard *)

(** When the high-water mark is configured below the low-water mark, a
    utilization between the two deletes the backend and constructs a fresh
    one in the same turn: here with the marks [0.3] and [0.5] and a
    utilization of [0.4]. *)
Lemma backend_recreated_in_same_cycle :
  (max_ram_usage low_high_water_mark < (get_ram_usage (60, 100)).1)%Qc ∧
  is_Some (backend low_high_water_mark) ∧
  printed (global_ba_cycle (60, 100) low_high_water_mark).1
  = [DeletingBackend; ReinstantiatingBackend] ∧
  backend (global_ba_cycle (60, 100) low_high_water_mark).1 = Some 1%nat ∧
  (global_ba_cycle (60, 100) low_high_water_mark).2 = true.
Proof.
  split; [by apply (bool_decide_unpack _); vm_compute|].
  split; [by eexists|]. split; [|split]; vm_compute; reflexivity.
Qed.

(** C8. One turn of the loop of [global_ba] samples the memory utilization
    before anything else.  For a high-water mark [max_ram_usage] that is not
    below the low-water mark [0.5] (the default [0.9] is not):
    - when the utilization exceeds the high-water mark while a backend
      exists, that backend is deleted and bundle adjustment is skipped;
    - a backend that exists is otherwise kept and run, not replaced;
    - a fresh backend is constructed, and run, when there is none and the
      utilization is at most the low-water mark;
    - when there is none and the utilization is above the low-water mark,
      there is none afterwards and bundle adjustment is skipped;
    - so a backend is constructed only when none exists and the utilization
      is at most the low-water mark. *)
Theorem backend_memory_backpressure `{Wk : Workers} (mem : Z * Z)
    (self : SLAM) :
  (min_ram_default ≤ max_ram_usage self)%Qc →
  let used := (get_ram_usage mem).1 in
  let r := global_ba_cycle mem self in
  ((max_ram_usage self < used)%Qc → is_Some (backend self) →
   backend r.1 = None ∧ r.2 = false ∧
   printed r.1 = printed self ++ [DeletingBackend]) ∧
  (∀ b, backend self = Some b → (used ≤ max_ram_usage self)%Qc →
   backend r.1 = Some (backend_call b) ∧ r.2 = true ∧
   printed r.1 = printed self) ∧
  (backend self = None → (used ≤ min_ram_default)%Qc →
   backend r.1 = Some (backend_call (backend_to (BackendWrapper (cfg self)))) ∧
   r.2 = true ∧
   printed r.1 = printed self ++ [ReinstantiatingBackend]) ∧
  (backend self = None → (min_ram_default < used)%Qc →
   backend r.1 = None ∧ r.2 = false ∧ printed r.1 = printed self) ∧
  (∀ l, printed r.1 = printed self ++ l → ReinstantiatingBackend ∈ l →
   backend self = None ∧ (used ≤ min_ram_default)%Qc).
Proof. apply global_ba_cycle_hysteresis. Qed.

(** At the default high-water mark: a utilization of [0.95] deletes the
    backend and skips bundle adjustment; at [0.6] the next turn leaves the
    system without a backend; at [0.4] the turn after that constructs a
    fresh backend and runs it. *)
Lemma backend_memory_backpressure_witness :
  ∃ self s1 s2 s3 : SLAM (Wk := counting_workers false false),
    SLAM_init (config_of "mono" None) None = inr self ∧
    global_ba_cycle (5, 100) self = (s1, false) ∧
    backend s1 = None ∧ printed s1 = [DeletingBackend] ∧
    global_ba_cycle (40, 100) s1 = (s2, false) ∧
    backend s2 = None ∧ printed s2 = [DeletingBackend] ∧
    global_ba_cycle (60, 100) s2 = (s3, true) ∧
    backend s3 = Some 1%nat ∧
    printed s3 = [DeletingBackend; ReinstantiatingBackend].
Proof.
  eexists _, _, _, _. split; [vm_compute; reflexivity|].
  assert (Hside : (min_ram_default ≤ Q2Qc (9 # 10))%Qc)
    by (by apply (bool_decide_unpack _); vm_compute).
  match goal with
  | |- global_ba_cycle ?mem ?s = _ ∧ _ =>
      destruct (backend_memory_backpressure
                  (Wk := counting_workers false false) mem s Hside)
        as (Hdel & _)
  end.
  destruct Hdel as (Hb & Hr & Hp).
  - by apply (bool_decide_unpack _); vm_compute.
  - by eexists.
  - split; [vm_compute; reflexivity|].
    split; [exact Hb|]. split; [exact Hp|].
    match goal with
    | |- global_ba_cycle ?mem ?s = _ ∧ _ =>
        destruct (backend_memory_backpressure
                    (Wk := counting_workers false false) mem s Hside)
          as (_ & _ & _ & Hwait & _)
    end.
    destruct Hwait as (Hb2 & Hr2 & Hp2);
      [reflexivity|by apply (bool_decide_unpack _); vm_compute|].
    split; [vm_compute; reflexivity|].
    split; [exact Hb2|]. split; [exact Hp2|].
    match goal with
    | |- global_ba_cycle ?mem ?s = _ ∧ _ =>
        destruct (backend_memory_backpressure
                    (Wk := counting_workers false false) mem s Hside)
          as (_ & _ & Hnew & _)
    end.
    destruct Hnew as (Hb3 & Hr3 & Hp3);
      [reflexivity|by apply (bool_decide_unpack _); vm_compute|].
    split; [vm_compute; reflexivity|].
    split; [exact Hb3|exact Hp3].
Defined.

(** ** Configuration conflicts *)

(** C9. Constructing the system in stereo mode raises, and so does
    constructing it in prgbd mode with both the optimization of the prior
    scales and shifts and the optimization of the intrinsics enabled:
    [__init__] returns no object, and [run], which starts the worker
    processes, is not reached.  [sanity_checks] is the last statement of
    [__init__]: when the statements before it have raised nothing, the
    exception is its [NotImplementedError], respectively its
    [AssertionError]. *)
Theorem configuration_conflict_fatal `{Wk : Workers} (c : config)
    (out : option string) :
  (mode c = "stereo"%string →
   (∃ e, SLAM_init c out = inl e ∧ construct_and_run c out = inl e) ∧
   (∀ self, SLAM_setup c out = inr self →
      SLAM_init c out = inl NotImplementedError ∧
      construct_and_run c out = inl NotImplementedError)) ∧
  (mode c = "prgbd"%string →
   optimize_scales (DepthVideo c) = true → opt_intr (DepthVideo c) = true →
   (∃ e, SLAM_init c out = inl e ∧ construct_and_run c out = inl e) ∧
   (∀ self, SLAM_setup c out = inr self →
      SLAM_init c out = inl AssertionError ∧
      construct_and_run c out = inl AssertionError)).
Proof. split; [apply stereo_fatal|apply prgbd_conflict_fatal]. Qed.

Lemma configuration_conflict_fatal_witness :
  construct_and_run (Wk := counting_workers true true)
    (config_of "stereo" None) None = inl NotImplementedError ∧
  construct_and_run (Wk := counting_workers true true)
    (config_of "prgbd" None) None = inl AssertionError ∧
  construct_and_run (Wk := counting_workers true false)
    (config_of "prgbd" None) None
  = inr ["OpenCV Stream"; "Frontend Tracking"; "Backend"; "Visualizing";
         "Gaussian Mapping"; "Mapping GUI"]%string.
Proof.
  assert (Hset : ∀ m, ∃ self,
            SLAM_setup (Wk := counting_workers true true) (config_of m None)
              None = inr self)
    by (intros m; eexists; vm_compute; reflexivity).
  split; [|split; [|vm_compute; reflexivity]].
  - destruct (Hset "stereo"%string) as [self Hself].
    by apply (proj2 (proj1 (configuration_conflict_fatal
                              (Wk := counting_workers true true)
                              (config_of "stereo" None) None) eq_refl)
                self).
  - destruct (Hset "prgbd"%string) as [self Hself].
    by apply (proj2 (proj2 (configuration_conflict_fatal
                              (Wk := counting_workers true true)
                              (config_of "prgbd" None) None)
                       eq_refl eq_refl eq_refl) self).
Defined.

(** ** The assertions of the entry point *)

(** C10. [bundle_adjustment] raises [AssertionError] when both
    [structure_only] and [motion_only] are set, and when [scale_prior] is set
    with no prior disparities; in both cases before the first iteration, with
    the poses, disparities, scales and shifts as they were. *)
Theorem bundle_adjustment_assertions `{Ext : Externals}
    (target weight damping intr : list row) (ii jj : list Z) (t0 t1 : nat)
    (sens : option (list row)) (iters : nat) (lm ep alpha : Qc)
    (structure_only motion_only scale_prior : bool) (st : store) :
  bundle_adjustment target weight damping intr ii jj t0 t1 sens iters lm ep
    true true scale_prior alpha st = Raise AssertionError st ∧
  bundle_adjustment target weight damping intr ii jj t0 t1 None iters lm ep
    structure_only motion_only true alpha st = Raise AssertionError st.
Proof.
  split; [apply bundle_adjustment_both_flags|apply bundle_adjustment_no_prior].
Qed.

(** ** The out-of-place accumulators drop what is out of range *)

(** The out-of-place vector accumulator, for index and data of one length
    and a node count [n >= 0]: it returns, and its result is the one it
    returns on the entries whose index is in [[0, n)], the others removed. *)
Theorem safe_scatter_add_vec_prunes {A : Type} (zero : A) (add : A → A → A)
    (b : list A) (ii : list Z) (n : Z) :
  length b = length ii → 0 ≤ n →
  let v := (λ i, (0 <=? i) && (i <? n)) <$> ii in
  is_Some (safe_scatter_add_vec zero add b ii n) ∧
  Forall (λ i, 0 ≤ i < n) (mask v ii) ∧
  safe_scatter_add_vec zero add b ii n
  = safe_scatter_add_vec zero add (mask v b) (mask v ii) n.
Proof.
  intros Hl Hn v.
  assert (Hin : Forall (λ i, 0 ≤ i < n) (mask v ii)).
  { eapply Forall_impl; [apply mask_fmap_true|]. simpl. intros i Hi. lia. }
  assert (Hlm : length (mask v b) = length (mask v ii))
    by by apply mask_same_length.
  unfold safe_scatter_add_vec. rewrite !decide_True by done.
  split; [by apply scatter_sum_total|]. split; [done|].
  fold v. subst v. by rewrite !mask_fmap_idem.
Qed.

Lemma safe_scatter_add_vec_prunes_witness :
  safe_scatter_add_vec 0 Z.add [7; 5; 3] [2; 0; -1] 2 = Some [5; 0] ∧
  safe_scatter_add_vec 0 Z.add [7; 5; 3] [2; 0; -1] 2
  = safe_scatter_add_vec 0 Z.add [5] [0] 2.
Proof.
  split; [reflexivity|].
  apply (safe_scatter_add_vec_prunes 0 Z.add [7; 5; 3] [2; 0; -1] 2);
    [reflexivity|lia].
Defined.

(** The out-of-place matrix accumulator, for two index arrays and data of
    one length and an [n x m] grid whose size fits the integer type of the
    index product: it returns, and its result is the one it returns on the
    edges with [0 <= i < n] and [0 <= j < m], the others removed. *)
Theorem safe_scatter_add_mat_prunes {A : Type} (zero : A) (add : A → A → A)
    (t : dtype) (a : list A) (ii jj : list Z) (n m : Z) :
  length ii = length jj → length a = length ii → 0 ≤ n → 0 ≤ m →
  n * m < match t with int32 => 2 ^ 31 | int64 => 2 ^ 63 end →
  let v := zip_with (λ i j, (0 <=? i) && (0 <=? j) && (i <? n) && (j <? m))
             ii jj in
  is_Some (safe_scatter_add_mat zero add t a ii jj n m) ∧
  safe_scatter_add_mat zero add t a ii jj n m
  = safe_scatter_add_mat zero add t (mask v a) (mask v ii) (mask v jj) n m.
Proof.
  intros Hl Hla Hn Hm Hfit v.
  pose (f := λ p : Z * Z,
          (0 <=? p.1) && (0 <=? p.2) && (p.1 <? n) && (p.2 <? m)).
  assert (Hv : ∀ x y : list Z, length x = length y →
            zip_with (λ i j, (0 <=? i) && (0 <=? j) && (i <? n) && (j <? m))
              x y = f <$> zip x y).
  { induction x as [|i x IH]; intros [|j y]; simpl; try done.
    intros [= Hxy]. by rewrite IH. }
  assert (Hzip : ∀ w : list bool,
            zip (mask w ii) (mask w jj) = mask w (zip ii jj))
    by (intros w; symmetry; apply mask_zip_with).
  assert (Hlen : ∀ w : list bool, length (mask w ii) = length (mask w jj))
    by (intros w; by apply mask_same_length).
  assert (Hlena : ∀ w : list bool, length (mask w a) = length (mask w ii))
    by (intros w; by apply mask_same_length).
  assert (Hidem : ∀ {B : Type} (x : list B),
            mask (zip_with
                    (λ i j, (0 <=? i) && (0 <=? j) && (i <? n) && (j <? m))
                    (mask v ii) (mask v jj)) (mask v x) = mask v x).
  { intros B x. rewrite (Hv _ _ (Hlen v)), Hzip. subst v.
    rewrite (Hv _ _ Hl). apply mask_fmap_idem. }
  unfold safe_scatter_add_mat. rewrite !decide_True by auto.
  fold v. rewrite !Hidem. split; [|done].
  apply scatter_sum_total; [| |nia].
  - assert (Hp : Forall (λ p : Z * Z, f p = true)
                   (zip (mask v ii) (mask v jj))).
    { rewrite Hzip. subst v. rewrite (Hv _ _ Hl). apply mask_fmap_true. }
    assert (Hz : zip_with (λ i j, wrap64 (wrap t (i * m) + j))
                   (mask v ii) (mask v jj)
                 = (λ p : Z * Z, wrap64 (wrap t (p.1 * m) + p.2))
                     <$> zip (mask v ii) (mask v jj)).
    { generalize (mask v ii) (mask v jj). clear.
      induction l as [|i l IH]; intros [|j l']; simpl; try done.
      by rewrite IH. }
    rewrite Hz. apply Forall_fmap. eapply Forall_impl; [exact Hp|].
    intros [i j]. unfold f. simpl. intros Hf.
    assert (0 ≤ i < n ∧ 0 ≤ j < m) as [Hi Hj] by lia.
    assert (0 ≤ i * m ∧ i * m + j < n * m) as [H0 H1] by nia.
    assert (wrap t (i * m) = i * m) as ->.
    { destruct t; unfold wrap, wrap32, wrap64;
        rewrite Z.mod_small; lia. }
    unfold wrap64. rewrite Z.mod_small; destruct t; lia.
  - rewrite length_zip_with, <- Hlen, Hlena. lia.
Qed.

Lemma safe_scatter_add_mat_prunes_witness :
  safe_scatter_add_mat 0 Z.add int64 [7; 5] [0; 1] [2; 0] 2 2
  = Some [0; 0; 5; 0] ∧
  safe_scatter_add_mat 0 Z.add int64 [7; 5] [0; 1] [2; 0] 2 2
  = safe_scatter_add_mat 0 Z.add int64 [5] [1] [0] 2 2.
Proof.
  split; [reflexivity|].
  apply (safe_scatter_add_mat_prunes 0 Z.add int64 [7; 5] [0; 1] [2; 0] 2 2);
    [reflexivity|reflexivity|lia|lia|reflexivity].
Defined.

(** * Further properties of the solve functions *)

(** ** What a variant never writes *)

Section VariantFrames.
Context `{Ext : Externals}.

Lemma ba_loop_invariant (R : store → store → Prop) iters (f : M unit) :
  (∀ st, R st st) →
  (∀ st1 st2 st3, R st1 st2 → R st2 st3 → R st1 st3) →
  (∀ st, R st (final (f st))) →
  ∀ st, R st (final (ba_loop iters f st)).
Proof.
  intros Hrefl Htrans Hf. induction iters as [|n IH]; intros st; simpl.
  - apply Hrefl.
  - unfold bind, get. specialize (Hf st).
    destruct (f st) as [[] st'|e st']; simpl in *.
    + eapply Htrans; [exact Hf|apply IH].
    + exact Hf.
Qed.

(** The structure side of the store: disparities, scales and shifts. *)
Definition structure_kept (st st' : store) : Prop :=
  all_disps st' = all_disps st ∧ all_scales st' = all_scales st ∧
  all_shifts st' = all_shifts st.

Definition scales_shifts_kept (st st' : store) : Prop :=
  all_scales st' = all_scales st ∧ all_shifts st' = all_shifts st.

Lemma MoBA_structure_kept target weight intr ii jj t0 t1 ep lm st :
  structure_kept st (final (MoBA target weight intr ii jj t0 t1 ep lm st)).
Proof. unfold MoBA, structure_kept. run_solve; done. Qed.

Lemma BA_scales_shifts_kept target weight intr ii jj t0 t1 eta sens alpha ep
    lm so st :
  scales_shifts_kept st
    (final (BA target weight intr ii jj t0 t1 eta sens alpha ep lm so st)).
Proof. unfold BA, scales_shifts_kept. run_solve; done. Qed.

Lemma BA_structure_only_poses target weight intr ii jj t0 t1 eta sens alpha ep
    lm st :
  all_poses (final (BA target weight intr ii jj t0 t1 eta sens alpha ep lm
                      true st)) = all_poses st.
Proof. unfold BA. run_solve; done. Qed.

End VariantFrames.

(** X3.  A motion-only call of the entry point, whatever the other flags,
    the prior and the number of iterations, leaves the disparities, the
    scales and the shifts exactly as they were; so does [MoBA] by itself. *)
Theorem motion_only_keeps_structure `{Ext : Externals}
    (target weight damping intr : list row) (ii jj : list Z) (t0 t1 : nat)
    (sens : option (list row)) (iters : nat) (lm ep alpha : Qc)
    (structure_only scale_prior : bool) (st : store) :
  structure_kept st
    (final (bundle_adjustment target weight damping intr ii jj t0 t1 sens
              iters lm ep structure_only true scale_prior alpha st)) ∧
  structure_kept st (final (MoBA target weight intr ii jj t0 t1 ep lm st)).
Proof.
  split; [|apply MoBA_structure_kept].
  unfold bundle_adjustment, bind, get, lift, assert_, ret.
  repeat (case_match; simplify_eq/=); try done;
    apply (ba_loop_invariant structure_kept); try done;
    try apply MoBA_structure_kept;
    unfold structure_kept; intros; intuition congruence.
Qed.

(** X4.  A structure-only call of the entry point, with or without the
    scale prior, for any number of iterations, leaves every pose exactly as
    it was. *)
Theorem structure_only_keeps_poses `{Ext : Externals}
    (target weight damping intr : list row) (ii jj : list Z) (t0 t1 : nat)
    (sens : option (list row)) (iters : nat) (lm ep alpha : Qc)
    (motion_only scale_prior : bool) (st : store) :
  all_poses
    (final (bundle_adjustment target weight damping intr ii jj t0 t1 sens
              iters lm ep true motion_only scale_prior alpha st))
  = all_poses st.
Proof.
  unfold bundle_adjustment, bind, get, lift, assert_, ret.
  repeat (case_match; simplify_eq/=); try done;
    apply (ba_loop_invariant (λ st st', all_poses st' = all_poses st));
    try done; try congruence; intros;
    auto using BA_structure_only_poses, BA_prior_no_motion_poses.
Qed.

(** X5.  A call of the entry point without the scale prior, whatever the
    variant and the number of iterations, leaves the scales and the shifts
    exactly as they were. *)
Theorem no_scale_prior_keeps_scales_shifts `{Ext : Externals}
    (target weight damping intr : list row) (ii jj : list Z) (t0 t1 : nat)
    (sens : option (list row)) (iters : nat) (lm ep alpha : Qc)
    (structure_only motion_only : bool) (st : store) :
  scales_shifts_kept st
    (final (bundle_adjustment target weight damping intr ii jj t0 t1 sens
              iters lm ep structure_only motion_only false alpha st)).
Proof.
  unfold bundle_adjustment, bind, get, lift, assert_, ret.
  repeat (case_match; simplify_eq/=); try done;
    apply (ba_loop_invariant scales_shifts_kept); try done;
    try apply BA_scales_shifts_kept;
    try (intros; apply MoBA_structure_kept);
    unfold scales_shifts_kept; intros; intuition congruence.
Qed.

(** ** Disparities of frames that no edge leaves *)

Lemma radd_rzero_r (k : nat) (x : row) : length x = k → radd x (rzero k) = x.
Proof.
  intros <-. unfold radd, rzero. induction x as [|a x IH]; [done|].
  cbn [length replicate zip_with]. rewrite IH. f_equal. ring.
Qed.

Lemma broadcast_elem_of {A : Type} (index index' : list Z) (src : list A)
    (x : Z) :
  broadcast index src = Some index' → x ∈ index' → x ∈ index.
Proof.
  unfold broadcast. destruct index as [|i [|i' index]].
  - case_decide; [|done]. by intros [= <-].
  - intros [= <-] Hx. apply elem_of_replicate in Hx as [-> _]. by left.
  - case_decide; [|done]. by intros [= <-].
Qed.

Lemma additive_retr_lookup_other (hw : nat) (disps dz new : list row)
    (kx : list Z) (f : nat) :
  Forall (λ r : list Qc, length r = hw) disps →
  additive_retr (rzero hw) radd disps dz kx = Some new →
  Z.of_nat f ∉ kx → new !! f = disps !! f.
Proof.
  intros Hrows. unfold additive_retr, scatter_sum.
  case_bool_decide; [|done].
  destruct (broadcast kx dz) as [index|] eqn:Hb; [|done]. opt_simpl.
  destruct (scatter_add_ _ _ _ _) as [s|] eqn:Hs; [|done]. opt_simpl.
  intros [= <-] Hf.
  pose proof (scatter_add__length _ _ _ _ _ Hs) as Hlen.
  rewrite length_replicate, Nat2Z.id in Hlen.
  rewrite lookup_zip_with.
  destruct (disps !! f) as [d|] eqn:Hd; [|done]. simpl.
  rewrite (scatter_add__lookup_other _ _ _ _ _ f Hs).
  - rewrite lookup_replicate_2
      by (rewrite Nat2Z.id; by eapply lookup_lt_Some).
    simpl. f_equal. apply radd_rzero_r.
    eapply Forall_forall in Hrows; [exact Hrows|].
    by eapply list_elem_of_lookup_2.
  - intros Hin. apply Hf. by eapply broadcast_elem_of.
Qed.

Section SourceFrames.
Context `{Ext : Externals}.

Lemma BA_system_nodes target weight intr ii jj t0 t1 eta sens alpha st
    kx H E C v w :
  BA_system target weight intr ii jj t0 t1 eta sens alpha st
  = Some (kx, H, E, C, v, w) → kx = (unique ii).1.
Proof.
  unfold BA_system. intros Hs. inv_bind.
  destruct (unique ii) as [kx' kk]. inv_bind.
  repeat (case_match; simplify_eq/=). inv_bind. by simplify_eq/=.
Qed.

Lemma BA_disps_other target weight intr ii jj t0 t1 eta sens alpha ep lm so
    st (n hw f : nat) :
  shaped n hw (all_disps st) → Z.of_nat f ∉ ii →
  all_disps (final (BA target weight intr ii jj t0 t1 eta sens alpha ep lm
                      so st)) !! f = all_disps st !! f.
Proof.
  intros Hd Hf.
  assert (Hnew : ∀ kx H E C v w dz new p,
            BA_system target weight intr ii jj t0 t1 eta sens alpha st
            = Some (kx, H, E, C, v, w) →
            additive_retr (rzero (ncols (take t1 (all_disps st)))) radd
              (take t1 (all_disps st)) dz kx = Some new →
            set_window t1 new (all_disps st) = Some p →
            p !! f = all_disps st !! f).
  { intros kx H E C v w dz new p Hsys Hret Hset.
    apply BA_system_nodes in Hsys as ->.
    destruct (decide (f < t1)%nat) as [Hlt|Hge];
      [|eapply set_window_lookup_ge; [done|lia]].
    rewrite (set_window_lookup_lt _ _ _ _ _ Hset Hlt).
    pose proof (shaped_take _ _ t1 _ Hd) as Hwin.
    destruct (ncols_shaped _ _ _ Hwin) as [Hempty|Hcols].
    - rewrite Hempty in *. unfold additive_retr, scatter_sum in Hret.
      simpl in Hret. destruct (broadcast _ _); [|done]. opt_simpl.
      destruct (scatter_add_ _ _ _ _); [|done]. simpl in Hret.
      injection Hret as <-. rewrite lookup_nil.
      symmetry. apply lookup_ge_None_2.
      pose proof (f_equal length Hempty) as Hl. rewrite length_take in Hl.
      simpl in Hl. lia.
    - rewrite Hcols in Hret.
      rewrite (additive_retr_lookup_other _ _ _ _ _ f (proj2 Hwin) Hret).
      + by apply lookup_take_lt.
      + intros Hin. apply Hf. by apply elem_of_unique. }
  unfold BA. run_solve; try done; eauto.
Qed.

End SourceFrames.

(** X6.  Without the scale prior, a call of the entry point on rectangular
    disparity maps changes the disparity map of no frame that is the source
    of no edge: joint and structure-only solves add their update to the
    frames of [unique(ii)] only, and the motion-only solve writes no
    disparity.  This holds for any number of iterations, and of the store
    left behind by a call that raises. *)
Theorem disparities_change_at_edge_sources_only `{Ext : Externals}
    (target weight damping intr : list row) (ii jj : list Z) (t0 t1 : nat)
    (sens : option (list row)) (iters : nat) (lm ep alpha : Qc)
    (structure_only motion_only : bool) (st : store) (n hw f : nat) :
  shaped n hw (all_disps st) → Z.of_nat f ∉ ii →
  all_disps
    (final (bundle_adjustment target weight damping intr ii jj t0 t1 sens
              iters lm ep structure_only motion_only false alpha st)) !! f
  = all_disps st !! f.
Proof.
  intros Hd Hf.
  pose (R := λ st st' : store,
          shaped n hw (all_disps st) →
          shaped n hw (all_disps st') ∧
          all_disps st' !! f = all_disps st !! f).
  assert (Hrefl : ∀ st, R st st) by (by intros s Hs).
  assert (Htrans : ∀ st1 st2 st3, R st1 st2 → R st2 st3 → R st1 st3).
  { intros s1 s2 s3 H12 H23 H1. destruct (H12 H1) as [H2 E12].
    destruct (H23 H2) as [H3 E23]. split; [done|congruence]. }
  assert (HBA : ∀ so st, R st (final (BA target weight intr ii jj t0 t1
                                     damping sens alpha ep lm so st))).
  { intros so s Hs. split; [by apply BA_shape_preserved|].
    by eapply BA_disps_other. }
  assert (HMo : ∀ st, R st (final (MoBA target weight intr ii jj t0 t1 ep lm
                                     st))).
  { intros s Hs. destruct (MoBA_structure_kept target weight intr ii jj t0 t1
                             ep lm s) as (-> & _ & _). done. }
  unfold bundle_adjustment, bind, get, lift, assert_, ret.
  repeat (case_match; simplify_eq/=); try done;
    by apply (ba_loop_invariant R).
Qed.

Lemma disparities_change_at_edge_sources_only_witness :
  all_disps (final (joint_call 2)) !! 1%nat = Some [Q2Qc (1 # 2)] ∧
  all_disps (final (joint_call 2)) !! 0%nat = Some [Q2Qc (-3 # 2)].
Proof.
  split; [|apply (bool_decide_unpack _); vm_compute; exact I].
  apply (disparities_change_at_edge_sources_only (Ext := negative_update)
           [[]] [[]] [[Q2Qc 0]] [[]; []] [0] [1] 0 2 None 2
           (Q2Qc (1 # 10000)) (Q2Qc (1 # 10)) 1%Qc false false
           (keyframes (Ext := negative_update) [] 2) 2 1 1).
  - split; [done|]. by apply Forall_replicate.
  - intros Hin. apply list_elem_of_singleton in Hin. lia.
Defined.

(** ** Shapes of the store *)

Lemma bind_set_window_length {B : Type} (t1 : nat) (new p : list B)
    (o : option (list B)) :
  o ≫= set_window t1 new = Some p → length <$> o = Some (length p).
Proof.
  destruct o as [l|]; [|done]. simpl. intros Hs.
  by rewrite (set_window_length _ _ _ _ Hs).
Qed.

Section Shapes.
Context `{Ext : Externals}.

(** The tensors of [st'] have the sizes of those of [st]. *)
Definition same_shapes (n hw : nat) (st st' : store) : Prop :=
  shaped n hw (all_disps st) →
  shaped n hw (all_disps st') ∧
  length (all_poses st') = length (all_poses st) ∧
  length <$> all_scales st' = length <$> all_scales st ∧
  length <$> all_shifts st' = length <$> all_shifts st.

Lemma same_shapes_refl n hw st : same_shapes n hw st st.
Proof. by intros Hd. Qed.

Lemma same_shapes_trans n hw st1 st2 st3 :
  same_shapes n hw st1 st2 → same_shapes n hw st2 st3 →
  same_shapes n hw st1 st3.
Proof.
  intros H12 H23 Hs1. destruct (H12 Hs1) as (Hs2 & ? & ? & ?).
  destruct (H23 Hs2) as (Hs3 & ? & ? & ?).
  split; [exact Hs3|]. split; [congruence|]. split; congruence.
Qed.

Lemma retr_window_shaped (n hw t1 k : nat) (all : list row) dz new kx p :
  shaped n hw all →
  shaped k (ncols (take t1 all)) dz →
  additive_retr (rzero (ncols (take t1 all))) radd (take t1 all) dz kx
  = Some new →
  set_window t1 new all = Some p →
  shaped n hw p.
Proof.
  intros Hd [_ Hdz] Hnew Hset. pose proof (shaped_take _ _ t1 _ Hd) as Hwin.
  eapply set_window_shaped; [exact Hd| |exact Hset].
  destruct (ncols_shaped _ _ _ Hwin) as [Hempty|Hcols].
  - rewrite Hempty in *. unfold additive_retr in Hnew.
    destruct (scatter_sum _ _ _ _ _); simplify_eq/=.
    destruct Hwin as [<- _]. by split.
  - rewrite Hcols in *. by eapply additive_retr_shaped.
Qed.

Lemma retract_window_length (f t1 : nat) (l p2 p : list pose) dx :
  retr_batch (drop f (take t1 l)) dx = Some p2 →
  set_window t1 (take f (take t1 l) ++ p2) l = Some p →
  length p = length l.
Proof. intros _ Hs. by eapply set_window_length. Qed.

Ltac shapes :=
  run_solve; try (by apply same_shapes_refl);
  intros ?; simpl;
  (split; [|split; [|split]]);
  eauto using retr_window_shaped, rearrange_shaped,
    BA_prior_no_motion_solve_inv, set_window_length;
  try (symmetry; erewrite bind_set_window_length by eauto);
  try done;
  repeat match goal with
         | H : all_scales _ = Some _ |- _ => rewrite H; clear H
         | H : all_shifts _ = Some _ |- _ => rewrite H; clear H
         | H : _ ≫= set_window _ _ = Some _ |- _ =>
             apply bind_set_window_length in H
         end;
  simpl in *; congruence.

Lemma MoBA_same_shapes n hw target weight intr ii jj t0 t1 ep lm st :
  same_shapes n hw st (final (MoBA target weight intr ii jj t0 t1 ep lm st)).
Proof. unfold MoBA. shapes. Qed.

Lemma BA_same_shapes n hw target weight intr ii jj t0 t1 eta sens alpha ep lm
    so st :
  same_shapes n hw st
    (final (BA target weight intr ii jj t0 t1 eta sens alpha ep lm so st)).
Proof. unfold BA. shapes. Qed.

Lemma BA_prior_same_shapes n hw target weight intr ii jj t0 t1 eta sens ep lm
    alpha st :
  same_shapes n hw st
    (final (BA_prior target weight intr ii jj t0 t1 eta sens ep lm alpha st)).
Proof. unfold BA_prior. shapes. Qed.

Lemma BA_prior_no_motion_same_shapes n hw target weight intr ii jj t0 t1 eta
    sens ep lm alpha st :
  same_shapes n hw st
    (final (BA_prior_no_motion target weight intr ii jj t0 t1 eta sens ep lm
              alpha st)).
Proof. unfold BA_prior_no_motion. shapes. Qed.

End Shapes.

(** X16.  A call of the entry point, whatever the variant and the number
    of iterations, and whether it returns or raises, resizes nothing: on
    rectangular disparity maps it leaves as many poses, scales and shifts as
    there were, and as many disparity maps of the same size. *)
Theorem bundle_adjustment_keeps_shapes `{Ext : Externals}
    (target weight damping intr : list row) (ii jj : list Z) (t0 t1 : nat)
    (sens : option (list row)) (iters : nat) (lm ep alpha : Qc)
    (structure_only motion_only scale_prior : bool) (st : store)
    (n hw : nat) :
  shaped n hw (all_disps st) →
  let st' := final (bundle_adjustment target weight damping intr ii jj t0 t1
                      sens iters lm ep structure_only motion_only scale_prior
                      alpha st) in
  shaped n hw (all_disps st') ∧
  length (all_poses st') = length (all_poses st) ∧
  length <$> all_scales st' = length <$> all_scales st ∧
  length <$> all_shifts st' = length <$> all_shifts st.
Proof.
  intros Hd st'. subst st'. revert Hd.
  change (same_shapes n hw st
            (final (bundle_adjustment target weight damping intr ii jj t0 t1
                      sens iters lm ep structure_only motion_only scale_prior
                      alpha st))).
  unfold bundle_adjustment, bind, get, lift, assert_, ret.
  repeat (case_match; simplify_eq/=); try apply same_shapes_refl;
    apply (ba_loop_invariant (same_shapes n hw) _ _
             (same_shapes_refl n hw) (same_shapes_trans n hw));
    auto using same_shapes_refl, MoBA_same_shapes, BA_same_shapes,
      BA_prior_same_shapes, BA_prior_no_motion_same_shapes.
Qed.

Lemma bundle_adjustment_keeps_shapes_witness :
  shaped 2 1 (all_disps (final (joint_call 2))) ∧
  length (all_poses (final (joint_call 2))) = 2%nat.
Proof.
  destruct (bundle_adjustment_keeps_shapes (Ext := negative_update)
              [[]] [[]] [[Q2Qc 0]] [[]; []] [0] [1] 0 2 None 2
              (Q2Qc (1 # 10000)) (Q2Qc (1 # 10)) 1%Qc false false false
              (keyframes (Ext := negative_update) [] 2) 2 1)
    as (Hs & Hp & _).
  - split; [done|]. by apply Forall_replicate.
  - split; [exact Hs|exact Hp].
Defined.

(** ** Frames that the prior-regularized solves leave alone *)

Lemma additive_retr_other {A : Type} (zero : A) (add : A → A → A)
    (x dz new : list A) (kx : list Z) (f : nat) :
  (∀ a, a ∈ x → add a zero = a) →
  additive_retr zero add x dz kx = Some new →
  Z.of_nat f ∉ kx → new !! f = x !! f.
Proof.
  intros Hid. unfold additive_retr, scatter_sum.
  case_bool_decide; [|done].
  destruct (broadcast kx dz) as [index|] eqn:Hb; [|done]. opt_simpl.
  destruct (scatter_add_ _ _ _ _) as [s|] eqn:Hs; [|done]. opt_simpl.
  intros [= <-] Hf. rewrite lookup_zip_with.
  destruct (x !! f) as [d|] eqn:Hd; [|done]. simpl.
  rewrite (scatter_add__lookup_other _ _ _ _ _ f Hs).
  - rewrite lookup_replicate_2
      by (rewrite Nat2Z.id; by eapply lookup_lt_Some).
    simpl. f_equal. apply Hid. by eapply list_elem_of_lookup_2.
  - intros Hin. apply Hf. by eapply broadcast_elem_of.
Qed.

Lemma window_update_other {A : Type} (zero : A) (add : A → A → A)
    (all dz new p : list A) (kx : list Z) (t1 f : nat) :
  (∀ a, a ∈ take t1 all → add a zero = a) →
  additive_retr zero add (take t1 all) dz kx = Some new →
  set_window t1 new all = Some p →
  Z.of_nat f ∉ kx → p !! f = all !! f.
Proof.
  intros Hid Hret Hset Hf.
  destruct (decide (f < t1)%nat) as [Hlt|Hge];
    [|eapply set_window_lookup_ge; [done|lia]].
  rewrite (set_window_lookup_lt _ _ _ _ _ Hset Hlt).
  rewrite (additive_retr_other _ _ _ _ _ _ f Hid Hret Hf).
  by apply lookup_take_lt.
Qed.

Lemma rows_right_zero (n hw t1 : nat) (all : list row) :
  shaped n hw all →
  ∀ a, a ∈ take t1 all → radd a (rzero (ncols (take t1 all))) = a.
Proof.
  intros Hd a Ha. pose proof (shaped_take _ _ t1 _ Hd) as Hwin.
  destruct (ncols_shaped _ _ _ Hwin) as [Hempty|Hcols].
  - rewrite Hempty in Ha. by apply elem_of_nil in Ha.
  - rewrite Hcols. apply radd_rzero_r. destruct Hwin as [_ Hrows].
    rewrite Forall_forall in Hrows. by apply Hrows.
Qed.

Lemma scalars_right_zero (l : list Qc) :
  ∀ a, a ∈ l → (a + Q2Qc 0)%Qc = a.
Proof. intros a _. ring. Qed.

Section PriorFrames.
Context `{Ext : Externals}.

(** The disparity, the scale and the shift of frame [f] are the same in
    [st'] as in [st]. *)
Definition frame_kept (f : nat) (st st' : store) : Prop :=
  all_disps st' !! f = all_disps st !! f ∧
  (all_scales st' ≫= (.!! f)) = (all_scales st ≫= (.!! f)) ∧
  (all_shifts st' ≫= (.!! f)) = (all_shifts st ≫= (.!! f)).

Lemma BA_prior_system_nodes target weight intr ii jj t0 t1 eta sens alpha st
    kx m H E C v w :
  BA_prior_system target weight intr ii jj t0 t1 eta sens alpha st
  = Some (kx, m, H, E, C, v, w) → kx = (unique ii).1.
Proof.
  unfold BA_prior_system. intros Hs.
  destruct (unique ii) as [kx' kk].
  repeat (inv_bind; repeat case_match; simplify_eq/=). done.
Qed.

Ltac frame_goals :=
  unfold frame_kept; simpl;
  repeat match goal with
         | H : all_scales _ = Some _ |- _ => rewrite H in *; clear H
         | H : all_shifts _ = Some _ |- _ => rewrite H in *; clear H
         end;
  simpl in *;
  (split; [|split]); try done;
  eapply window_update_other; eauto using scalars_right_zero.

Lemma BA_prior_frame_kept target weight intr ii jj t0 t1 eta sens ep lm alpha
    st (n hw f : nat) :
  shaped n hw (all_disps st) → Z.of_nat f ∉ ii →
  frame_kept f st
    (final (BA_prior target weight intr ii jj t0 t1 eta sens ep lm alpha st)).
Proof.
  intros Hd Hf. pose proof (rows_right_zero n hw t1 _ Hd) as Hrows.
  assert (Hnot : Z.of_nat f ∉ (unique ii).1)
    by (intros Hin; by apply Hf, elem_of_unique).
  unfold BA_prior. run_solve; try done;
    match goal with
    | H : BA_prior_system _ _ _ _ _ _ _ _ _ _ _ = Some _ |- _ =>
        pose proof (BA_prior_system_nodes _ _ _ _ _ _ _ _ _ _ _ _ _ _ _ _ _
                      _ H) as ->
    end;
    frame_goals.
Qed.

Lemma BA_prior_no_motion_frame_kept target weight intr ii jj t0 t1 eta sens ep
    lm alpha st (n hw f : nat) :
  shaped n hw (all_disps st) → Z.of_nat f ∉ ii → ¬ (t0 ≤ f < t1)%nat →
  frame_kept f st
    (final (BA_prior_no_motion target weight intr ii jj t0 t1 eta sens ep lm
              alpha st)).
Proof.
  intros Hd Hf Hwin. pose proof (rows_right_zero n hw t1 _ Hd) as Hrows.
  assert (Hnot : Z.of_nat f ∉ (unique (arange t0 t1 ++ ii)).1).
  { intros [Hin|Hin]%elem_of_unique%elem_of_app; [|done].
    by apply elem_of_arange in Hin. }
  unfold BA_prior_no_motion. run_solve; try done;
    match goal with
    | H : BA_prior_no_motion_system _ _ _ _ _ _ _ _ _ _ _ = Some ?ps |- _ =>
        destruct (BA_prior_no_motion_system_inv _ _ _ _ _ _ _ _ _ _ _ _ H)
          as (Hkx & _);
        rewrite Hkx in *
    end;
    frame_goals.
Qed.

End PriorFrames.

(** X21.  With the scale prior, a call of the entry point on rectangular
    disparity maps changes neither the disparity map nor the scale nor the
    shift of a frame that is the source of no edge and, in the
    structure-only variant, also lies outside the window [[t0, t1)]: the
    joint solve updates the frames of [unique(ii)] only, the structure-only
    solve those of [[t0, t1)] as well.  This holds for any number of
    iterations, and of the store left behind by a call that raises. *)
Theorem prior_solves_change_their_nodes_only `{Ext : Externals}
    (target weight damping intr : list row) (ii jj : list Z) (t0 t1 : nat)
    (sens : option (list row)) (iters : nat) (lm ep alpha : Qc)
    (structure_only motion_only : bool) (st : store) (n hw f : nat) :
  shaped n hw (all_disps st) → Z.of_nat f ∉ ii →
  (structure_only = true → ¬ (t0 ≤ f < t1)%nat) →
  frame_kept f st
    (final (bundle_adjustment target weight damping intr ii jj t0 t1 sens
              iters lm ep structure_only motion_only true alpha st)).
Proof.
  intros Hd Hf Hwin.
  pose (R := λ st st' : store,
          shaped n hw (all_disps st) →
          shaped n hw (all_disps st') ∧ frame_kept f st st').
  assert (Hrefl : ∀ st, R st st) by (by intros s Hs).
  assert (Htrans : ∀ st1 st2 st3, R st1 st2 → R st2 st3 → R st1 st3).
  { intros s1 s2 s3 H12 H23 Hs1.
    destruct (H12 Hs1) as (Hs2 & E1 & E2 & E3).
    destruct (H23 Hs2) as (Hs3 & F1 & F2 & F3).
    split; [done|]. unfold frame_kept. split; [|split]; congruence. }
  assert (HMo : ∀ st, R st (final (MoBA target weight intr ii jj t0 t1 ep lm
                                     st))).
  { intros s Hs. destruct (MoBA_structure_kept target weight intr ii jj t0 t1
                             ep lm s) as (E1 & E2 & E3).
    unfold frame_kept. rewrite E1, E2, E3. done. }
  assert (Hgoal : R st
            (final (bundle_adjustment target weight damping intr ii jj t0 t1
                      sens iters lm ep structure_only motion_only true alpha
                      st))); [|by apply Hgoal].
  unfold bundle_adjustment, bind, get, lift, assert_, ret.
  repeat (case_match; simplify_eq/=); try done;
    apply (ba_loop_invariant R); try done; intros s Hs.
  - split; [by apply (BA_prior_no_motion_same_shapes n hw)|].
    eapply BA_prior_no_motion_frame_kept; eauto.
  - split; [by apply (BA_prior_same_shapes n hw)|].
    by eapply BA_prior_frame_kept.
Qed.

Lemma prior_solves_change_their_nodes_only_witness :
  frame_kept 2 (keyframes (Ext := negative_update) [] 3)
    (final (bundle_adjustment (Ext := negative_update)
              [[]] [[]] [[Q2Qc 0]] [[]; []; []] [0] [1] 0 3
              (Some (replicate 3 [1%Qc])) 2 (Q2Qc (1 # 10000))
              (Q2Qc (1 # 10)) false false true 1%Qc
              (keyframes (Ext := negative_update) [] 3))).
Proof.
  apply (prior_solves_change_their_nodes_only (Ext := negative_update)
           [[]] [[]] [[Q2Qc 0]] [[]; []; []] [0] [1] 0 3
           (Some (replicate 3 [1%Qc])) 2 (Q2Qc (1 # 10000)) (Q2Qc (1 # 10))
           1%Qc false false (keyframes (Ext := negative_update) [] 3) 3 1 2).
  - split; [done|]. by apply Forall_replicate.
  - intros Hin. apply list_elem_of_singleton in Hin. lia.
  - done.
Defined.

(** ** The in-place accumulators *)

Lemma zip_with_fmap_zip {B C D : Type} (g : B → C → D) (x : list B)
    (y : list C) :
  zip_with g x y = (λ p, g p.1 p.2) <$> zip x y.
Proof.
  revert y. induction x as [|a x IH]; intros [|b y]; simpl; try done.
  by rewrite IH.
Qed.

Lemma Forall_mask_fmap {I : Type} (P : I → Prop) (f : I → bool)
    (l : list I) :
  Forall P (mask (f <$> l) l) ↔ Forall (λ x, f x = true → P x) l.
Proof.
  induction l as [|x l IH]; simpl; [by split; constructor|].
  destruct (f x) eqn:Hf.
  - rewrite !Forall_cons, IH. tauto.
  - rewrite Forall_cons, IH. split; [|tauto].
    intros Hl. split; [congruence|done].
Qed.

Lemma scatter_add__is_Some {A : Type} (add : A → A → A) (self : list A)
    (index : list Z) (src : list A) :
  length index = length src →
  is_Some (scatter_add_ add self index src) ↔
  Forall (λ i, 0 ≤ i < Z.of_nat (length self)) index.
Proof.
  intros Hl. split.
  - intros [r Hr]. by eapply scatter_add__in_range.
  - intros Hall. by apply scatter_add__total.
Qed.

(** X7.  The in-place vector accumulator, for data and index of one
    length: its result is the one it gives on the entries with a
    non-negative index, the others removed; it raises exactly when some
    index is at or beyond the length of the buffer; and when it returns, the
    buffer has kept its length. *)
Theorem safe_scatter_add_vec_inplace_behaviour {A : Type} (add : A → A → A)
    (b data : list A) (ii : list Z) :
  length data = length ii →
  let v := (λ i, 0 <=? i) <$> ii in
  safe_scatter_add_vec_inplace add b data ii
  = safe_scatter_add_vec_inplace add b (mask v data) (mask v ii) ∧
  (safe_scatter_add_vec_inplace add b data ii = None ↔
   ∃ i, i ∈ ii ∧ Z.of_nat (length b) ≤ i) ∧
  (∀ r, safe_scatter_add_vec_inplace add b data ii = Some r →
        length r = length b).
Proof.
  intros Hl v.
  assert (Hlm : length (mask v data) = length (mask v ii))
    by by apply mask_same_length.
  unfold safe_scatter_add_vec_inplace. rewrite !decide_True by done.
  fold v. split; [|split].
  - subst v. by rewrite !mask_fmap_idem.
  - rewrite eq_None_not_Some, scatter_add__is_Some by done.
    subst v. rewrite Forall_mask_fmap, <- Exists_Forall_neg, Exists_exists.
    + split; intros (i & Hi & Hb); exists i; split; try done.
      * destruct (decide (Z.of_nat (length b) ≤ i)); [done|].
        exfalso. apply Hb. intros H0%Z.leb_le. clear Hb. lia.
      * intros Himp. assert ((0 <=? i) = true) as H0 by (apply Z.leb_le; lia).
        specialize (Himp H0). lia.
    + intros i. destruct (decide (0 ≤ i)) as [H0|H0];
        [destruct (decide (i < Z.of_nat (length b))) as [H1|H1]|].
      * left. intros _. lia.
      * right. intros Himp. apply Z.leb_le in H0. specialize (Himp H0). lia.
      * left. intros H1%Z.leb_le. lia.
  - intros r Hr. by eapply scatter_add__length.
Qed.

Lemma safe_scatter_add_vec_inplace_behaviour_witness :
  safe_scatter_add_vec_inplace Z.add [1; 1] [7; 5; 3] [1; -4; 1]
  = Some [1; 11] ∧
  safe_scatter_add_vec_inplace Z.add [1; 1] [7; 5; 3] [1; -4; 1]
  = safe_scatter_add_vec_inplace Z.add [1; 1] [7; 3] [1; 1].
Proof.
  split; [reflexivity|].
  apply (safe_scatter_add_vec_inplace_behaviour Z.add [1; 1] [7; 5; 3]
           [1; -4; 1]).
  reflexivity.
Defined.

(** X8.  The in-place matrix accumulator, for data and two index arrays of
    one length: its result is the one it gives on the edges whose two
    indices are non-negative, the others removed; it returns exactly when
    the flat index [i * M + j] of every such edge lies inside the buffer,
    whether or not [j] is below [M]; and the buffer keeps its length. *)
Theorem safe_scatter_add_mat_inplace_behaviour {A : Type} (add : A → A → A)
    (H data : list A) (ii jj : list Z) (M : Z) :
  length ii = length jj → length data = length ii →
  let v := zip_with (λ i j, (0 <=? i) && (0 <=? j)) ii jj in
  safe_scatter_add_mat_inplace add H data ii jj M
  = safe_scatter_add_mat_inplace add H (mask v data) (mask v ii) (mask v jj)
      M ∧
  (is_Some (safe_scatter_add_mat_inplace add H data ii jj M) ↔
   Forall (λ p : Z * Z, 0 ≤ p.1 → 0 ≤ p.2 →
             0 ≤ wrap64 (p.1 * M + p.2) < Z.of_nat (length H))
     (zip ii jj)) ∧
  (∀ r, safe_scatter_add_mat_inplace add H data ii jj M = Some r →
        length r = length H).
Proof.
  intros Hl Hla v.
  pose (f := λ p : Z * Z, (0 <=? p.1) && (0 <=? p.2)).
  assert (Hv : ∀ x y : list Z,
            zip_with (λ i j, (0 <=? i) && (0 <=? j)) x y = f <$> zip x y)
    by (intros x y;
        exact (zip_with_fmap_zip (λ i j, (0 <=? i) && (0 <=? j)) x y)).
  assert (Hzip : ∀ w : list bool,
            zip (mask w ii) (mask w jj) = mask w (zip ii jj))
    by (intros w; symmetry; apply mask_zip_with).
  assert (Hlen : ∀ w : list bool, length (mask w ii) = length (mask w jj))
    by (intros w; by apply mask_same_length).
  assert (Hlena : ∀ w : list bool, length (mask w data) = length (mask w ii))
    by (intros w; by apply mask_same_length).
  assert (Hidem : ∀ {B : Type} (x : list B),
            mask (zip_with (λ i j, (0 <=? i) && (0 <=? j))
                    (mask v ii) (mask v jj)) (mask v x) = mask v x).
  { intros B x. rewrite Hv, Hzip. subst v. rewrite Hv.
    apply mask_fmap_idem. }
  unfold safe_scatter_add_mat_inplace. rewrite !decide_True by auto.
  fold v. rewrite !Hidem. split; [done|]. split.
  - rewrite scatter_add__is_Some
      by (rewrite length_zip_with, <- Hlen, Hlena; lia).
    rewrite (zip_with_fmap_zip _ (mask v ii)), Hzip, Forall_fmap.
    subst v. rewrite Hv, Forall_mask_fmap. apply Forall_iff.
    intros [i j]. unfold f. simpl. split; intros Hp; intros; apply Hp; lia.
  - intros r Hr. by eapply scatter_add__length.
Qed.

Lemma safe_scatter_add_mat_inplace_behaviour_witness :
  safe_scatter_add_mat_inplace Z.add [0; 0; 0; 0] [7; 5; 3] [0; -1; 1]
    [2; 0; 1] 2 = Some [0; 0; 7; 3] ∧
  safe_scatter_add_mat_inplace Z.add [0; 0; 0; 0] [7; 5; 3] [0; -1; 1]
    [2; 0; 1] 2
  = safe_scatter_add_mat_inplace Z.add [0; 0; 0; 0] [7; 3] [0; 1] [2; 1] 2.
Proof.
  split; [reflexivity|].
  apply (safe_scatter_add_mat_inplace_behaviour Z.add [0; 0; 0; 0] [7; 5; 3]
           [0; -1; 1] [2; 0; 1] 2); reflexivity.
Defined.

(** * The Jacobians of the prior residual *)

(** ** Blocks laid out row by row *)

Lemma divmod_block (n p k : nat) :
  (k < n)%nat → ((p * n + k) / n = p ∧ (p * n + k) mod n = k)%nat.
Proof.
  intros Hk. split.
  - rewrite Nat.div_add_l by lia. rewrite Nat.div_small by done. lia.
  - rewrite Nat.add_comm, Nat.Div0.mod_add. by apply Nat.mod_small.
Qed.

Lemma div_lt_block (n hw p : nat) : (p < n * hw → p / hw < n)%nat.
Proof.
  intros Hp. destruct hw as [|hw]; [lia|].
  apply Nat.Div0.div_lt_upper_bound. lia.
Qed.

Lemma fmap_ext_in {B C : Type} (f g : B → C) (l : list B) :
  (∀ x, x ∈ l → f x = g x) → f <$> l = g <$> l.
Proof.
  induction l as [|a l IH]; intros Hfg; [done|].
  rewrite !fmap_cons, Hfg by (by left). f_equal. apply IH.
  intros x Hx. apply Hfg. by right.
Qed.

(** [n] blocks of [hw] entries each, entry [q] of block [k] being
    [g k q], are the entries [g (p / hw) (p mod hw)] for [p] below
    [n * hw]. *)
Lemma concat_blocks {B : Type} (g : nat → nat → B) (n hw : nat) :
  concat ((λ k, (λ q, g k q) <$> seq 0 hw) <$> seq 0 n)
  = (λ p, g (p / hw)%nat (p mod hw)%nat) <$> seq 0 (n * hw).
Proof.
  induction n as [|n IH]; [done|].
  rewrite seq_S, fmap_app, concat_app, IH. simpl. rewrite app_nil_r.
  replace (hw + n * hw)%nat with (n * hw + hw)%nat by lia.
  rewrite seq_app, fmap_app. f_equal. simpl.
  replace (seq (n * hw) hw) with (Nat.add (n * hw) <$> seq 0 hw)
    by (rewrite fmap_add_seq; f_equal; lia).
  rewrite <- list_fmap_compose.
  apply fmap_ext_in. intros q Hq%elem_of_seq. simpl.
  destruct (divmod_block hw n q) as [-> ->]; [lia|done].
Qed.

Lemma replicate_as_fmap {B : Type} (n : nat) (x : B) :
  replicate n x = (λ _, x) <$> seq 0 n.
Proof.
  generalize 0%nat. induction n as [|n IH]; intros s; [done|].
  simpl. by rewrite <- IH.
Qed.

Lemma zip_with_fmap_same {B C D E : Type} (h : C → D → E) (f : B → C)
    (g : B → D) (l : list B) :
  zip_with h (f <$> l) (g <$> l) = (λ x, h (f x) (g x)) <$> l.
Proof.
  induction l as [|a l IH]; [done|]. rewrite !fmap_cons. cbn [zip_with].
  by rewrite IH.
Qed.

Lemma mask_all_true {B : Type} (v : list bool) (l : list B) :
  Forall (λ b, b = true) v → length v = length l → mask v l = l.
Proof.
  intros Hv. revert l. induction Hv as [|b v -> Hv IH]; intros [|a l];
    simpl; try done. intros [= Hl]. by rewrite IH.
Qed.

(** The scatter pattern of [get_regularizor_jacobians]: pixel [p] belongs
    to frame [p / hw]. *)
Lemma jsii_frames (n hw : nat) :
  concat ((λ k, replicate hw k) <$> arange 0 n)
  = (λ p : nat, Z.of_nat (p / hw)) <$> seq 0 (n * hw).
Proof.
  unfold arange. rewrite Nat.sub_0_r, <- list_fmap_compose.
  rewrite <- (concat_blocks (λ k _, Z.of_nat k)). f_equal.
  apply fmap_ext_in. intros k _. simpl. apply replicate_as_fmap.
Qed.

Lemma jsjj_pixels (n hw : nat) :
  zip_with Z.add (concat (replicate n (arange 0 hw)))
    ((λ k, Z.of_nat hw * k)
       <$> concat ((λ k, replicate hw k) <$> arange 0 n))
  = Z.of_nat <$> seq 0 (n * hw).
Proof.
  rewrite jsii_frames, <- list_fmap_compose.
  replace (concat (replicate n (arange 0 hw)))
    with ((λ p : nat, Z.of_nat (p mod hw)) <$> seq 0 (n * hw)).
  - rewrite zip_with_fmap_same. apply fmap_ext_in. intros p _. simpl.
    destruct hw as [|hw]; [simpl; lia|].
    pose proof (Nat.div_mod_eq p (S hw)). lia.
  - rewrite <- (concat_blocks (λ _ q, Z.of_nat q)). f_equal.
    rewrite replicate_as_fmap. apply fmap_ext_in. intros k _.
    unfold arange. by rewrite Nat.sub_0_r.
Qed.

(** ** The scattered Jacobian *)

(** One row per pixel [p], one column per frame: the entry of pixel [p] is
    in the column of its frame [p / hw], every other entry is zero. *)
Definition block_rows (n hw : nat) (a : list Qc) : mat :=
  imap (λ (p : nat) (x : Qc),
          (λ k : nat, if decide (k = p / hw)%nat then x else Q2Qc 0)
            <$> seq 0 n) a.

Lemma chunks_length {B : Type} (n k : nat) (l : list B) :
  length (chunks n k l) = n.
Proof. revert l. induction n as [|n IH]; intros l; simpl; auto. Qed.

Lemma chunks_lookup {B : Type} (n k p : nat) (l : list B) :
  (p < n)%nat → chunks n k l !! p = Some (take k (drop (p * k) l)).
Proof.
  revert l p. induction n as [|n IH]; intros l p Hp; [lia|].
  destruct p as [|p]; simpl; [done|].
  rewrite IH by lia. by rewrite drop_drop.
Qed.

Lemma scatter_index_NoDup (n hw : nat) :
  NoDup ((λ p : nat, Z.of_nat (p * n + p / hw)) <$> seq 0 (n * hw)).
Proof.
  apply NoDup_fmap_2_strong; [|apply NoDup_seq].
  intros p q Hp%elem_of_seq Hq%elem_of_seq Heq.
  apply Nat2Z.inj in Heq.
  destruct (divmod_block n p (p / hw)) as [Hp1 _];
    [apply div_lt_block; lia|].
  destruct (divmod_block n q (q / hw)) as [Hq1 _];
    [apply div_lt_block; lia|].
  congruence.
Qed.

Lemma scatter_jacobian_block_rows (a : list Qc) (n hw : nat) :
  length a = (n * hw)%nat →
  Z.of_nat (n * hw) * Z.of_nat n < 2 ^ 31 →
  scatter_jacobian a (Z.of_nat <$> seq 0 (n * hw))
    ((λ p : nat, Z.of_nat (p / hw)) <$> seq 0 (n * hw)) (n * hw) n
  = Some (block_rows n hw a).
Proof.
  intros Ha Hfit. set (N := (n * hw)%nat) in *.
  assert (Hdiv : ∀ p : nat, (p < N → p / hw < n)%nat)
    by (intros p; apply div_lt_block).
  assert (Hsmall : ∀ p : nat, (p < N)%nat →
            Z.of_nat p * Z.of_nat n + Z.of_nat (p / hw)
              < Z.of_nat N * Z.of_nat n ∧
            Z.of_nat p < 2 ^ 31 ∧
            Z.of_nat p * Z.of_nat n + Z.of_nat n < 2 ^ 31 + 1).
  { intros p Hp. pose proof (Hdiv p Hp) as Hk.
    assert (Z.of_nat (p + 1) * Z.of_nat n ≤ Z.of_nat N * Z.of_nat n)
      by (apply Z.mul_le_mono_nonneg_r; lia).
    assert (Z.of_nat N * 1 ≤ Z.of_nat N * Z.of_nat n)
      by (apply Z.mul_le_mono_nonneg_l; lia).
    lia. }
  unfold scatter_jacobian, safe_scatter_add_mat.
  rewrite decide_True by (by rewrite !length_fmap, length_seq).
  (* [ii.int()] changes no index *)
  assert (Hii : wrap32 <$> (Z.of_nat <$> seq 0 N) = Z.of_nat <$> seq 0 N).
  { rewrite <- list_fmap_compose. apply fmap_ext_in.
    intros p Hp%elem_of_seq. simpl. unfold wrap32.
    destruct (Hsmall p) as (_ & ? & _); [lia|].
    rewrite Z.mod_small; lia. }
  rewrite Hii.
  (* every edge is in range *)
  rewrite (zip_with_fmap_same _ Z.of_nat (λ p : nat, Z.of_nat (p / hw))).
  rewrite !mask_all_true;
    try (by rewrite !length_fmap, ?length_seq);
    try (apply Forall_fmap, Forall_forall; intros p Hp%elem_of_seq;
         simpl; pose proof (Hdiv p); lia).
  (* the flat index of pixel [p] is [p * n + p / hw] *)
  rewrite (zip_with_fmap_same _ Z.of_nat (λ p : nat, Z.of_nat (p / hw))).
  assert (Hidx : (λ p : nat,
                    wrap64 (wrap int32 (Z.of_nat p * Z.of_nat n)
                            + Z.of_nat (p / hw))) <$> seq 0 N
                 = (λ p : nat, Z.of_nat (p * n + p / hw)) <$> seq 0 N).
  { apply fmap_ext_in. intros p Hp%elem_of_seq.
    destruct (Hsmall p) as (? & ? & ?); [lia|].
    pose proof (Hdiv p). unfold wrap, wrap32, wrap64.
    rewrite (Z.mod_small (_ + 2 ^ 31)) by lia.
    rewrite Z.mod_small by lia. lia. }
  rewrite Hidx. clear Hii Hidx.
  unfold scatter_sum. rewrite bool_decide_true by lia.
  rewrite broadcast_same_length by (by rewrite length_fmap, length_seq).
  opt_simpl.
  destruct (scatter_add__total Qcplus
              (replicate (Z.to_nat (Z.of_nat N * Z.of_nat n)) (Q2Qc 0))
              ((λ p : nat, Z.of_nat (p * n + p / hw)) <$> seq 0 N) a)
    as [r Hr].
  { apply Forall_fmap, Forall_forall. intros p Hp%elem_of_seq. simpl.
    rewrite length_replicate. destruct (Hsmall p) as (? & _); lia. }
  { by rewrite length_fmap, length_seq. }
  rewrite Hr. opt_simpl.
  pose proof (scatter_add__length _ _ _ _ _ Hr) as Hlen.
  rewrite length_replicate in Hlen.
  unfold rearrange. rewrite decide_True by lia. f_equal.
  (* row by row, entry by entry *)
  apply list_eq. intros p. unfold block_rows. rewrite list_lookup_imap.
  destruct (decide (p < N)%nat) as [Hp|Hp].
  2: { rewrite (lookup_ge_None_2 a) by lia. simpl.
       apply lookup_ge_None_2. rewrite chunks_length. lia. }
  rewrite chunks_lookup by done.
  destruct (lookup_lt_is_Some_2 a p) as [x Hx]; [lia|]. rewrite Hx. simpl.
  f_equal. apply list_eq. intros k. rewrite list_lookup_fmap.
  destruct (decide (k < n)%nat) as [Hk|Hk].
  2: { rewrite (lookup_ge_None_2 (seq 0 n)) by (rewrite length_seq; lia).
       simpl. apply lookup_ge_None_2. rewrite length_take. lia. }
  rewrite lookup_take_lt, lookup_drop by done.
  rewrite lookup_seq_lt by done. simpl.
  destruct (decide (k = p / hw)%nat) as [->|Hne].
  - pose proof (scatter_add__lookup_NoDup Qcplus _ _ _ _ p
                  (Z.of_nat (p * n + p / hw)) x (scatter_index_NoDup n hw) Hr)
      as Hhit.
    rewrite Nat2Z.id in Hhit. rewrite Hhit.
    + rewrite lookup_replicate_2
        by (destruct (Hsmall p) as (? & _); lia). simpl.
      f_equal. apply Qcplus_0_l.
    + rewrite list_lookup_fmap, lookup_seq_lt by done. done.
    + done.
  - rewrite (scatter_add__lookup_other Qcplus _ _ _ _ (p * n + k) Hr).
    + rewrite lookup_replicate_2; [done|].
      assert (Z.of_nat (p + 1) * Z.of_nat n ≤ Z.of_nat N * Z.of_nat n)
        by (apply Z.mul_le_mono_nonneg_r; lia).
      lia.
    + intros (q & Hq & Hin%elem_of_seq)%list_elem_of_fmap.
      apply Nat2Z.inj in Hq.
      destruct (divmod_block n p k) as [Hp1 Hp2]; [done|].
      destruct (divmod_block n q (q / hw)) as [Hq1 Hq2];
        [apply Hdiv; lia|].
      rewrite Hq in Hp1, Hp2. apply Hne. congruence.
Qed.

Lemma get_regularizor_jacobians_block_rows (sens : list row) (n hw : nat) :
  length (concat sens) = (n * hw)%nat →
  Z.of_nat (n * hw) * Z.of_nat n < 2 ^ 31 →
  get_regularizor_jacobians sens n hw
  = Some (block_rows n hw (Qcopp <$> concat sens),
          block_rows n hw (replicate (n * hw) (- 1)%Qc)).
Proof.
  intros Hl Hfit. unfold get_regularizor_jacobians.
  rewrite decide_True by done. rewrite jsjj_pixels, jsii_frames.
  rewrite !scatter_jacobian_block_rows;
    try done; try (by rewrite ?length_fmap, ?length_replicate).
  opt_simpl. do 3 f_equal. apply fmap_ext_in. intros s _. ring.
Qed.

(** ** The Hessian blocks of the prior *)

Lemma dot_zero (x y : row) :
  (∀ (i : nat) (a b : Qc), x !! i = Some a → y !! i = Some b →
     (a * b)%Qc = Q2Qc 0) →
  dot x y = Q2Qc 0.
Proof.
  unfold dot. revert y. induction x as [|a x IH]; intros [|b y] Hxy;
    simpl; try done.
  rewrite (Hxy O a b) by done. rewrite IH; [ring|].
  intros i a' b' Ha Hb. by apply (Hxy (S i)).
Qed.

Lemma col_block_rows (n hw k : nat) (a : list Qc) :
  (k < n)%nat →
  col k (block_rows n hw a)
  = imap (λ (p : nat) (x : Qc),
            if decide (k = p / hw)%nat then x else Q2Qc 0) a.
Proof.
  intros Hk. unfold col, block_rows, mat, row in *. apply list_eq. intros p.
  rewrite list_lookup_fmap, !list_lookup_imap.
  destruct (a !! p) as [x|]; [|done]. simpl.
  by rewrite list_lookup_fmap, lookup_seq_lt by done.
Qed.

Lemma dot_block_columns (n hw k k' : nat) (a b : list Qc) :
  (k < n)%nat → (k' < n)%nat → k ≠ k' →
  dot (col k (block_rows n hw a)) (col k' (block_rows n hw b)) = Q2Qc 0.
Proof.
  intros Hk Hk' Hne. rewrite !col_block_rows by done.
  apply dot_zero. intros p x y. unfold row in *. rewrite !list_lookup_imap.
  destruct (a !! p) as [xa|], (b !! p) as [xb|]; simpl; try done.
  intros [= <-] [= <-]. repeat case_decide; try ring. congruence.
Qed.

(** An [n x n] matrix whose entries off the diagonal are zero. *)
Definition diagonal (n : nat) (a : mat) : Prop :=
  length a = n ∧
  ∀ k r, a !! k = Some r →
    length r = n ∧
    ∀ k' x, r !! k' = Some x → k ≠ k' → x = Q2Qc 0.

Lemma product_diagonal (n hw : nat) (alpha : Qc) (a b : list Qc) :
  diagonal n
    (mscale alpha (matmul n (transpose n (block_rows n hw a))
                     (block_rows n hw b))).
Proof.
  unfold diagonal, mscale, tmap, matmul, transpose, mat, row in *.
  rewrite !length_fmap, length_seq. split; [done|].
  intros k r. rewrite !list_lookup_fmap.
  destruct (seq 0 n !! k) as [k0|] eqn:Hk0; [|done].
  apply lookup_seq in Hk0 as [-> Hk]. simpl. intros [= <-].
  rewrite !length_fmap, length_seq. split; [done|].
  intros k' x. rewrite !list_lookup_fmap.
  destruct (seq 0 n !! k') as [k1|] eqn:Hk1; [|done].
  apply lookup_seq in Hk1 as [-> Hk']. simpl. intros [= <-] Hne.
  rewrite dot_block_columns by done. ring.
Qed.

Lemma diagonal_transpose (n : nat) (a : mat) :
  diagonal n a → transpose n a = a.
Proof.
  intros [Hlen Ha]. unfold transpose, mat, row in *. apply list_eq.
  intros k.
  rewrite list_lookup_fmap.
  destruct (decide (k < n)%nat) as [Hk|Hk].
  2: { rewrite (lookup_ge_None_2 (seq 0 n)) by (rewrite length_seq; lia).
       symmetry. apply lookup_ge_None_2. lia. }
  rewrite lookup_seq_lt by done. simpl.
  destruct (lookup_lt_is_Some_2 a k) as [r Hr]; [lia|]. rewrite Hr.
  f_equal. destruct (Ha k r Hr) as [Hrl Hrz].
  unfold col. unfold row in *. apply list_eq. intros k'.
  rewrite list_lookup_fmap.
  destruct (decide (k' < n)%nat) as [Hk'|Hk'].
  2: { rewrite (lookup_ge_None_2 a), (lookup_ge_None_2 r) by lia. done. }
  destruct (lookup_lt_is_Some_2 a k') as [r' Hr']; [lia|]. rewrite Hr'.
  simpl. destruct (Ha k' r' Hr') as [Hrl' Hrz'].
  destruct (lookup_lt_is_Some_2 r k') as [x Hx]; [lia|].
  destruct (lookup_lt_is_Some_2 r' k) as [x' Hx']; [lia|].
  rewrite Hx, Hx'. simpl. f_equal.
  destruct (decide (k = k')) as [->|Hne]; [congruence|].
  rewrite (Hrz k' x Hx Hne), (Hrz' k x' Hx'); [done|congruence].
Qed.

(** X13.  The Jacobians of the prior residual, for [n] priors of [hw]
    pixels each whose flat size [n * n * hw] fits a 32-bit index: [Js] and
    [Jo] have one row per pixel and one column per frame; the row of pixel
    [p] holds minus the prior, respectively [-1], in the column of its frame
    [p / hw] and zeros in every other column. *)
Theorem regularizor_jacobians_one_column_per_frame (sens : list row)
    (n hw : nat) :
  length (concat sens) = (n * hw)%nat →
  Z.of_nat (n * hw) * Z.of_nat n < 2 ^ 31 →
  get_regularizor_jacobians sens n hw
  = Some (block_rows n hw (Qcopp <$> concat sens),
          block_rows n hw (replicate (n * hw) (- 1)%Qc)).
Proof. apply get_regularizor_jacobians_block_rows. Qed.

Lemma regularizor_jacobians_one_column_per_frame_witness :
  get_regularizor_jacobians [[Q2Qc 3; Q2Qc 4]; [Q2Qc 5; Q2Qc 6]] 2 2
  = Some ([[Q2Qc (-3); Q2Qc 0]; [Q2Qc (-4); Q2Qc 0];
           [Q2Qc 0; Q2Qc (-5)]; [Q2Qc 0; Q2Qc (-6)]],
          [[Q2Qc (-1); Q2Qc 0]; [Q2Qc (-1); Q2Qc 0];
           [Q2Qc 0; Q2Qc (-1)]; [Q2Qc 0; Q2Qc (-1)]]).
Proof.
  rewrite (regularizor_jacobians_one_column_per_frame
             [[Q2Qc 3; Q2Qc 4]; [Q2Qc 5; Q2Qc 6]] 2 2);
    [|reflexivity|reflexivity].
  apply (bool_decide_unpack _). vm_compute. exact I.
Defined.

(** X14.  The Hessian blocks of the prior, built from those Jacobians:
    [D], [G] and [L] are [n x n] and diagonal, so the prior couples the
    scale and shift of no two frames, and [L.mT], which the assembly of the
    system uses, is [L]. *)
Theorem regularizor_hessians_diagonal (sens res : list row) (alpha : Qc)
    (n hw : nat) :
  length (concat sens) = (n * hw)%nat →
  length (concat res) = (n * hw)%nat →
  Z.of_nat (n * hw) * Z.of_nat n < 2 ^ 31 →
  ∃ Js Jo F K D G L vs vo,
    get_regularizor_jacobians sens n hw = Some (Js, Jo) ∧
    get_regularizor_hessians Js Jo res alpha n hw
    = Some (F, K, D, G, L, vs, vo) ∧
    diagonal n D ∧ diagonal n G ∧ diagonal n L ∧ transpose n L = L.
Proof.
  intros Hs Hr Hfit. eexists _, _, _, _, _, _, _, _, _.
  split; [by apply get_regularizor_jacobians_block_rows|].
  unfold get_regularizor_hessians. rewrite decide_True by done.
  split; [reflexivity|].
  split; [apply product_diagonal|]. split; [apply product_diagonal|].
  split; [apply product_diagonal|].
  apply diagonal_transpose, product_diagonal.
Qed.

Lemma regularizor_hessians_diagonal_witness :
  ∃ Js Jo F K D G L vs vo,
    get_regularizor_jacobians [[Q2Qc 3; Q2Qc 4]; [Q2Qc 5; Q2Qc 6]] 2 2
    = Some (Js, Jo) ∧
    get_regularizor_hessians Js Jo [[1%Qc; 1%Qc]; [1%Qc; 1%Qc]] 1%Qc 2 2
    = Some (F, K, D, G, L, vs, vo) ∧
    diagonal 2 D ∧ diagonal 2 G ∧ diagonal 2 L ∧ transpose 2 L = L.
Proof.
  apply (regularizor_hessians_diagonal
           [[Q2Qc 3; Q2Qc 4]; [Q2Qc 5; Q2Qc 6]]
           [[1%Qc; 1%Qc]; [1%Qc; 1%Qc]] 1%Qc 2 2); reflexivity.
Defined.

(** * The augmented system of the prior-regularized joint solve *)

Lemma to_dense_shaped (m d : nat) (H : list row) :
  shaped (m * d) (m * d) (to_dense m d H).
Proof.
  unfold to_dense, shaped. rewrite length_fmap, length_seq. split; [done|].
  apply Forall_fmap, Forall_forall. intros r _. simpl.
  by rewrite length_fmap, length_seq.
Qed.

Lemma hcat_shaped (n k1 k2 : nat) (a b : mat) :
  shaped n k1 a → shaped n k2 b → shaped n (k1 + k2) (hcat a b).
Proof.
  intros [Ha Hra] [Hb Hrb]. unfold hcat, shaped, mat, row in *.
  rewrite length_zip_with. split; [lia|].
  clear Ha Hb. revert b Hrb.
  induction Hra as [|r a Hr Hra IH]; intros [|r' b] Hrb; simpl;
    try constructor.
  - apply Forall_cons in Hrb as [Hr' _]. rewrite length_app. lia.
  - apply Forall_cons in Hrb as [_ Hrb]. by apply IH.
Qed.

Lemma vcat_shaped (n1 n2 k : nat) (a b : mat) :
  shaped n1 k a → shaped n2 k b → shaped (n1 + n2) k (vcat a b).
Proof.
  intros [Ha Hra] [Hb Hrb]. unfold vcat, shaped, mat, row in *.
  rewrite length_app.
  split; [lia|]. by apply Forall_app.
Qed.

Lemma transpose_shaped (c : nat) (a : mat) :
  shaped c (length a) (transpose c a).
Proof.
  unfold transpose, shaped. rewrite length_fmap, length_seq.
  split; [done|]. apply Forall_fmap, Forall_forall. intros k _. simpl.
  unfold col. by rewrite length_fmap.
Qed.

Lemma col_zeros (k n c : nat) :
  col k (replicate n (rzero c)) = rzero n.
Proof.
  unfold col, rzero, row. induction n as [|n IH]; [done|].
  cbn [replicate]. rewrite fmap_cons, IH. f_equal.
  destruct (replicate c (Q2Qc 0) !! k) as [x|] eqn:Hx; [|done].
  by apply lookup_replicate in Hx as [-> _].
Qed.

Lemma lookup_hcat (a b : mat) (r c : nat) (ra rb : row) :
  a !! r = Some ra → b !! r = Some rb →
  hcat a b !! r ≫= (.!! c) = (ra ++ rb) !! c.
Proof.
  intros Ha Hb. unfold hcat. unfold mat, row in *.
  by rewrite lookup_zip_with, Ha, Hb.
Qed.

Lemma shaped_lookup (n k r : nat) (a : mat) :
  shaped n k a → (r < n)%nat → ∃ ra, a !! r = Some ra ∧ length ra = k.
Proof.
  intros [Hn Hk] Hr. unfold mat, row in *.
  destruct (lookup_lt_is_Some_2 a r) as [ra Hra]; [lia|].
  exists ra. split; [done|]. rewrite Forall_forall in Hk. apply Hk.
  by eapply list_elem_of_lookup_2.
Qed.

(** X15.  The augmented system of the prior-regularized joint solve, for
    [n x n] blocks [D], [G], [L]: the Hessian is square of size
    [d * m + 2 * n]; the entries that would couple a pose with a scale or a
    shift are all zero, on both sides of the diagonal; the pose block is the
    dense pose Hessian; and [C] and [w] are handed on as they are. *)
Theorem augmented_hessian_decoupled (m n hw d : nat) (H E : list row)
    (C : row) (D G F L K : mat) (v : list row) (w vs vo : row) :
  shaped n n D → shaped n n G → shaped n n L →
  let sys := get_augmented_hessian_and_rhs_full m n hw d H E C D G F L K v w
               vs vo in
  let H_aug := sys.1.1.1.1 in
  shaped (d * m + 2 * n) (d * m + 2 * n) H_aug ∧
  (∀ (r c : nat) (x : Qc),
     (r < d * m ≤ c)%nat ∨ (c < d * m ≤ r)%nat →
     H_aug !! r ≫= (.!! c) = Some x → x = Q2Qc 0) ∧
  (∀ r c : nat, (r < d * m)%nat → (c < d * m)%nat →
     H_aug !! r ≫= (.!! c) = to_dense m d H !! r ≫= (.!! c)) ∧
  sys.1.1.2 = C ∧ sys.2 = w.
Proof.
  intros HD HG HL sys H_aug. subst sys H_aug.
  unfold get_augmented_hessian_and_rhs_full. cbn [fst snd].
  pose proof (to_dense_shaped m d H) as Hd.
  replace (m * d)%nat with (d * m)%nat in Hd by lia.
  set (Hdense := to_dense m d H) in *.
  set (zeros := replicate (d * m) (rzero (2 * n))).
  assert (Hz : shaped (d * m) (2 * n) zeros).
  { split; [apply length_replicate|].
    apply Forall_replicate, length_replicate. }
  assert (Hzt : transpose (2 * n) zeros = replicate (2 * n) (rzero (d * m))).
  { unfold transpose. rewrite replicate_as_fmap. apply fmap_ext_in.
    intros k _. apply col_zeros. }
  assert (Hzts : shaped (2 * n) (d * m) (transpose (2 * n) zeros)).
  { rewrite Hzt. split; [apply length_replicate|].
    apply Forall_replicate, length_replicate. }
  assert (HDLG : shaped (2 * n) (2 * n)
                   (vcat (hcat D L) (hcat (transpose n L) G))).
  { replace (2 * n)%nat with (n + n)%nat by lia.
    apply vcat_shaped; apply hcat_shaped; try done.
    pose proof (transpose_shaped n L) as HT. by rewrite (proj1 HL) in HT. }
  set (DLG := vcat (hcat D L) (hcat (transpose n L) G)) in *.
  pose proof (hcat_shaped _ _ _ _ _ Hd Hz) as Htop.
  pose proof (hcat_shaped _ _ _ _ _ Hzts HDLG) as Hbot.
  split; [by apply vcat_shaped|].
  assert (Htoplen : length (hcat Hdense zeros) = (d * m)%nat)
    by apply Htop.
  unfold vcat, mat, row in *.
  split; [|split; [|done]].
  - intros r c x [[Hr Hc]|[Hc Hr]] Hx.
    + rewrite lookup_app_l in Hx by lia.
      destruct (shaped_lookup _ _ r _ Hd) as (ra & Hra & Hla'); [lia|].
      destruct (shaped_lookup _ _ r _ Hz) as (rb & Hrb & _); [lia|].
      rewrite (lookup_hcat _ _ _ _ _ _ Hra Hrb) in Hx.
      rewrite lookup_app_r in Hx by lia.
      unfold zeros in Hrb. apply lookup_replicate in Hrb as [-> _].
      unfold rzero in Hx. by apply lookup_replicate in Hx as [-> _].
    + rewrite lookup_app_r in Hx by lia. rewrite Htoplen in Hx.
      revert Hx.
      match goal with
      | |- ?t ≫= _ = _ → _ => destruct t as [rw|] eqn:Hrow
      end; [|done].
      intros Hx. unfold hcat in Hrow.
      apply lookup_zip_with_Some in Hrow as (ra & rb & -> & Hra & Hrb).
      rewrite Hzt in Hra. apply lookup_replicate in Hra as [-> _].
      simpl in Hx. rewrite lookup_app_l in Hx
        by (unfold rzero; rewrite length_replicate; lia).
      unfold rzero in Hx. by apply lookup_replicate in Hx as [-> _].
  - intros r c Hr Hc. rewrite lookup_app_l by lia.
    destruct (shaped_lookup _ _ r _ Hd) as (ra & Hra & Hla); [lia|].
    destruct (shaped_lookup _ _ r _ Hz) as (rb & Hrb & _); [lia|].
    rewrite (lookup_hcat _ _ _ _ _ _ Hra Hrb).
    unfold mat, row in *. rewrite Hra. simpl.
    apply lookup_app_l. lia.
Qed.

Lemma augmented_hessian_decoupled_witness :
  (get_augmented_hessian_and_rhs_full 1 1 1 1 [[Q2Qc 5]] [[Q2Qc 6]]
     [Q2Qc 7] [[Q2Qc 1]] [[Q2Qc 2]] [[Q2Qc 8]] [[Q2Qc 3]] [[Q2Qc 9]]
     [[Q2Qc 4]] [Q2Qc 4] [Q2Qc 4] [Q2Qc 4]).1.1.1.1 !! 0%nat ≫= (.!! 2%nat)
  = Some (Q2Qc 0).
Proof.
  destruct (augmented_hessian_decoupled 1 1 1 1 [[Q2Qc 5]] [[Q2Qc 6]]
              [Q2Qc 7] [[Q2Qc 1]] [[Q2Qc 2]] [[Q2Qc 8]] [[Q2Qc 3]]
              [[Q2Qc 9]] [[Q2Qc 4]] [Q2Qc 4] [Q2Qc 4] [Q2Qc 4])
    as (_ & Hzero & _); try (split; [done|by repeat constructor]).
  match goal with
  | |- ?t = _ => destruct t as [x|] eqn:Hx; [|by vm_compute in Hx]
  end.
  f_equal. apply (Hzero 0%nat 2%nat x); [left; lia|exact Hx].
Defined.

(** * Properties of the orchestrator *)

(** X18.  A statement of [__init__] that raises before [sanity_checks] is
    reached decides the exception of the constructor, whatever the
    configuration.  When they all pass, constructing the system succeeds
    exactly when the configuration has none of the three conflicts that
    [sanity_checks] knows: stereo mode; prgbd mode with both the scale and
    the intrinsics optimization; mapping with non-keyframes but without
    refinement iterations.  The third conflict alone then raises
    [AssertionError].  A system that is constructed has a backend, has
    printed nothing about it, and [run] starts its six processes. *)
Theorem construction_succeeds_iff `{Wk : Workers} (c : config)
    (out : option string) :
  let stereo := mode c = "stereo"%string in
  let ambiguous := mode c = "prgbd"%string ∧
                   optimize_scales (DepthVideo c) = true ∧
                   opt_intr (DepthVideo c) = true in
  let unrefined := run_mapping c = true ∧ use_non_keyframes c = true ∧
                   refinement_iters c ≤ 0 in
  (∀ e, SLAM_setup c out = inl e → SLAM_init c out = inl e) ∧
  (∀ s, SLAM_setup c out = inr s →
     (SLAM_init c out = inr s ↔ ¬ stereo ∧ ¬ ambiguous ∧ ¬ unrefined) ∧
     (¬ stereo → ¬ ambiguous → unrefined →
      SLAM_init c out = inl AssertionError)) ∧
  (∀ self, SLAM_init c out = inr self →
     SLAM_setup c out = inr self ∧
     is_Some (backend self) ∧ printed self = [] ∧
     ∃ names, construct_and_run c out = inr names ∧ length names = 6%nat).
Proof.
  intros stereo ambiguous unrefined. subst stereo ambiguous unrefined.
  split; [by intros e He; rewrite SLAM_init_setup, He|]. split.
  - intros s Hs. rewrite SLAM_init_setup, Hs.
    apply SLAM_setup_fresh in Hs. subst s. unfold sanity_checks. simpl.
    destruct (String.eqb_spec (mode c) "stereo") as [Hst|Hst].
    { split; [split; [done|tauto]|tauto]. }
    destruct (String.eqb (mode c) "prgbd"
              && (optimize_scales (DepthVideo c) && opt_intr (DepthVideo c)))
      eqn:Hamb.
    { apply andb_true_iff in Hamb
        as [Hp%String.eqb_eq [Ho Hi]%andb_true_iff].
      split; [split; [done|tauto]|tauto]. }
    assert (Hna : ¬ (mode c = "prgbd"%string ∧
                     optimize_scales (DepthVideo c) = true ∧
                     opt_intr (DepthVideo c) = true)).
    { intros (Hp%String.eqb_eq & Ho & Hi). by rewrite Hp, Ho, Hi in Hamb. }
    destruct (run_mapping c && use_non_keyframes c
              && negb (0 <? refinement_iters c)) eqn:Hunr.
    { apply andb_true_iff in Hunr
        as [[Hr Hu]%andb_true_iff Hlt%negb_true_iff].
      apply Z.ltb_ge in Hlt. split; [split; [done|tauto]|done]. }
    assert (Hnu : ¬ (run_mapping c = true ∧ use_non_keyframes c = true ∧
                     refinement_iters c ≤ 0)).
    { intros (Hr & Hu & Hle). rewrite Hr, Hu in Hunr. simpl in Hunr.
      apply negb_false_iff, Z.ltb_lt in Hunr. lia. }
    split; [split; [done|done]|tauto].
  - intros self Hself. unfold construct_and_run. rewrite Hself.
    apply SLAM_init_fresh in Hself as (Hs & _ & Hb & Hp & _).
    split; [done|]. split; [by rewrite Hb|]. split; [done|]. by eexists.
Qed.

(** Mapping with non-keyframes and no refinement iterations: the set-up
    passes, and [sanity_checks] raises. *)
Lemma construction_succeeds_iff_witness :
  ∃ s : SLAM (Wk := counting_workers false false),
    SLAM_setup (Wk := counting_workers false false) unrefined_mapping None
    = inr s ∧
    SLAM_init (Wk := counting_workers false false) unrefined_mapping None
    = inl AssertionError.
Proof.
  eexists. split; [vm_compute; reflexivity|].
  destruct (construction_succeeds_iff (Wk := counting_workers false false)
              unrefined_mapping None) as (_ & Hs & _).
  apply (Hs _ ltac:(vm_compute; reflexivity)).
  - done.
  - by intros [? _].
  - repeat split; simpl; lia.
Defined.

(** In floats a crop alone does not keep a focal length: for images of
    width [752] that lose no edge, [458.654 * 752 / 752] is the double
    after [458.654]. *)
Example update_cam_crop_rounds :
  match float_of_int 458654, float_of_int 1000, float_of_int 752 with
  | inr n, inr d, inr W =>
      fdiv n d = S754_finite false 8068726498015576 (-44) ∧
      rescale (Float (fdiv n d)) (Int 752) (Int 0) W
      = inr (S754_finite false 8068726498015577 (-44))
  | _, _, _ => False
  end.
Proof. vm_compute. by split. Qed.

(** * [load_pretrained] *)

Section OrderedDictFacts.
Context {V : Type}.
Implicit Types (d : list (string * V)) (k : string) (v : V).

Lemma od_get_None k d : od_get k d = None ↔ k ∉ d.*1.
Proof.
  unfold od_get. induction d as [|[k' v'] d IH]; simpl.
  - split; [intros _ Hin; by apply elem_of_nil in Hin|done].
  - destruct (String.eqb_spec k' k) as [->|Hne]; simpl.
    + split; [done|]. intros Hn. destruct Hn. by left.
    + rewrite IH. split.
      * intros Hn [Heq|Hin]%elem_of_cons; [by subst|done].
      * intros Hn Hin. apply Hn. by right.
Qed.

Lemma od_set_present k v d :
  k ∈ d.*1 →
  od_set k v d = (λ kv, if String.eqb kv.1 k then (k, v) else kv) <$> d.
Proof.
  intros Hin. unfold od_set.
  assert (existsb (λ kv : string * V, String.eqb kv.1 k) d = true) as ->;
    [|done].
  apply existsb_exists.
  apply list_elem_of_fmap in Hin as ([k' v'] & -> & Hin).
  exists (k', v'). split; [by apply list_elem_of_In|]. apply String.eqb_refl.
Qed.

Lemma od_set_absent k v d : k ∉ d.*1 → od_set k v d = d ++ [(k, v)].
Proof.
  intros Hn. unfold od_set.
  assert (existsb (λ kv : string * V, String.eqb kv.1 k) d = false) as ->;
    [|done].
  apply not_true_is_false.
  intros ([k' v'] & Hin%list_elem_of_In & Heq)%existsb_exists.
  apply String.eqb_eq in Heq. simpl in Heq. subst k'. apply Hn.
  apply list_elem_of_fmap. by exists (k, v').
Qed.

(** Rewriting the entries of one key keeps the keys. *)
Lemma rewrite_key_keys k (g : string * V → V) d :
  ((λ kv, if String.eqb kv.1 k then (kv.1, g kv) else kv) <$> d).*1 = d.*1.
Proof.
  rewrite <- list_fmap_compose. apply list_fmap_ext. intros i [k' v'] _.
  simpl. by destruct (String.eqb k' k).
Qed.

Lemma od_set_keys_present k v d : k ∈ d.*1 → (od_set k v d).*1 = d.*1.
Proof.
  intros Hin. rewrite od_set_present by done.
  rewrite <- (rewrite_key_keys k (λ _, v) d).
  f_equal. apply list_fmap_ext. intros i [k' v'] _. simpl.
  by destruct (String.eqb_spec k' k) as [->|].
Qed.

Lemma od_set_NoDup k v d : NoDup d.*1 → NoDup (od_set k v d).*1.
Proof.
  intros Hd. destruct (decide (k ∈ d.*1)) as [Hin|Hn].
  - by rewrite od_set_keys_present.
  - rewrite od_set_absent, fmap_app by done. simpl.
    apply NoDup_app. split; [done|]. split; [|apply NoDup_singleton].
    intros x Hx ->%list_elem_of_singleton. done.
Qed.

Lemma OrderedDict_NoDup (items : list (string * V)) :
  NoDup (OrderedDict items).*1.
Proof.
  unfold OrderedDict.
  assert (Hgen : ∀ d, NoDup d.*1 →
            NoDup (foldl (λ d kv, od_set kv.1 kv.2 d) d items).*1).
  { induction items as [|kv items IH]; intros d Hd; simpl; [done|].
    by apply IH, od_set_NoDup. }
  apply Hgen. constructor.
Qed.

(** With unique keys, [d[k] = f(d[k])] rewrites the one entry of [k]. *)
Lemma od_set_od_get k (f : V → V) v d :
  NoDup d.*1 → od_get k d = Some v →
  od_set k (f v) d
  = (λ kv, if String.eqb kv.1 k then (kv.1, f kv.2) else kv) <$> d.
Proof.
  intros Hd Hg.
  assert (Hin : k ∈ d.*1).
  { destruct (decide (k ∈ d.*1)) as [|Hn]; [done|].
    apply od_get_None in Hn. congruence. }
  rewrite od_set_present by done. clear Hin.
  induction d as [|[k' v'] d IH]; [done|].
  apply NoDup_cons in Hd as [Hk' Hd]. unfold od_get in Hg. simpl in *.
  destruct (String.eqb_spec k' k) as [->|Hne]; simpl in *.
  - injection Hg as ->. f_equal.
    apply list_fmap_ext. intros i [k'' v''] Hi. simpl.
    destruct (String.eqb_spec k'' k) as [->|]; [|done].
    destruct Hk'. apply list_elem_of_fmap. exists (k, v'').
    split; [done|]. by eapply list_elem_of_lookup_2.
  - f_equal. by apply IH.
Qed.
End OrderedDictFacts.

Section LoadPretrained.
Context `{Wk : Workers}.

Lemma keep_two_present {V : Type} k (d : list (string * list V)) :
  NoDup d.*1 → k ∈ d.*1 →
  keep_two k d
  = inr ((λ kv, if String.eqb kv.1 k then (kv.1, take 2 kv.2) else kv) <$> d).
Proof.
  intros Hd Hin. unfold keep_two.
  destruct (od_get k d) as [v|] eqn:Hg.
  - by rewrite (od_set_od_get k (take 2) v d).
  - by apply od_get_None in Hg.
Qed.

Lemma keep_two_absent {V : Type} k (d : list (string * list V)) :
  k ∉ d.*1 → keep_two k d = inl KeyError.
Proof. intros Hn. unfold keep_two. by apply od_get_None in Hn as ->. Qed.


Lemma narrow_all {V : Type} (d : list (string * list V)) :
  let n := λ (k : string) (kv : string * list V),
             if String.eqb kv.1 k then (kv.1, take 2 kv.2) else kv in
  n "update.delta.2.bias"%string <$>
    (n "update.delta.2.weight"%string <$>
       (n "update.weight.2.bias"%string <$>
          (n "update.weight.2.weight"%string <$> d)))
  = (λ kv, if bool_decide (kv.1 ∈ narrowed) then (kv.1, take 2 kv.2)
           else kv) <$> d.
Proof.
  intros n. rewrite <- !list_fmap_compose. apply list_fmap_ext.
  intros i [k v] _. unfold n. cbn [fst snd compose].
  destruct (String.eqb_spec k "update.weight.2.weight") as [->|H1];
    [vm_compute; reflexivity|cbn [fst snd]].
  destruct (String.eqb_spec k "update.weight.2.bias") as [->|H2];
    [vm_compute; reflexivity|cbn [fst snd]].
  destruct (String.eqb_spec k "update.delta.2.weight") as [->|H3];
    [vm_compute; reflexivity|cbn [fst snd]].
  destruct (String.eqb_spec k "update.delta.2.bias") as [->|H4];
    [vm_compute; reflexivity|cbn [fst snd]].
  simpl. rewrite bool_decide_false; [done|]. unfold narrowed. intros Hin.
  repeat (apply elem_of_cons in Hin as [?|Hin]; [done|]).
  by apply elem_of_nil in Hin.
Qed.

Lemma load_pretrained_cases (p : string) :
  (∀ e, torch_load p = inl e → load_pretrained p = inl e) ∧
  (∀ items, torch_load p = inr items →
     let d := OrderedDict
                ((λ kv, (str_replace "module." "" kv.1, kv.2)) <$> items) in
     let d' := (λ kv, if bool_decide (kv.1 ∈ narrowed)
                      then (kv.1, take 2 kv.2) else kv) <$> d in
     NoDup d.*1 ∧ d'.*1 = d.*1 ∧
     (narrowed ⊆ d.*1 →
      load_pretrained p = (_ ← load_state_dict d'; inr d')) ∧
     (¬ narrowed ⊆ d.*1 → load_pretrained p = inl KeyError)).
Proof.
  split; [by intros e He; unfold load_pretrained; rewrite He|].
  intros items Hitems d d'.
  assert (Hd : NoDup d.*1) by apply OrderedDict_NoDup.
  assert (Hkeys : ∀ k (x : list (string * list Weight)),
            ((λ kv, if String.eqb kv.1 k then (kv.1, take 2 kv.2) else kv)
               <$> x).*1 = x.*1)
    by (intros k x; apply (rewrite_key_keys k (λ kv, take 2 kv.2))).
  split; [done|]. split.
  { subst d'. rewrite <- list_fmap_compose. apply list_fmap_ext.
    intros i [k v] _. simpl. by case_bool_decide. }
  unfold load_pretrained. rewrite Hitems. unfold mbind, exn_bind. fold d.
  destruct (decide ("update.weight.2.weight"%string ∈ d.*1)) as [H1|H1];
    [rewrite (keep_two_present _ d) by done
    |rewrite keep_two_absent by done].
  2: { split; [|done]. intros Hs. destruct H1. apply Hs. unfold narrowed.
       apply elem_of_cons. by left. }
  destruct (decide ("update.weight.2.bias"%string ∈ d.*1)) as [H2|H2];
    [rewrite keep_two_present by (by rewrite ?Hkeys)
    |rewrite keep_two_absent by (by rewrite ?Hkeys)].
  2: { split; [|done]. intros Hs. destruct H2. apply Hs. unfold narrowed.
       do 1 (apply elem_of_cons; right). apply elem_of_cons. by left. }
  destruct (decide ("update.delta.2.weight"%string ∈ d.*1)) as [H3|H3];
    [rewrite keep_two_present by (by rewrite ?Hkeys)
    |rewrite keep_two_absent by (by rewrite ?Hkeys)].
  2: { split; [|done]. intros Hs. destruct H3. apply Hs. unfold narrowed.
       do 2 (apply elem_of_cons; right). apply elem_of_cons. by left. }
  destruct (decide ("update.delta.2.bias"%string ∈ d.*1)) as [H4|H4];
    [rewrite keep_two_present by (by rewrite ?Hkeys)
    |rewrite keep_two_absent by (by rewrite ?Hkeys)].
  2: { split; [|done]. intros Hs. destruct H4. apply Hs. unfold narrowed.
       do 3 (apply elem_of_cons; right). apply elem_of_cons. by left. }
  rewrite (narrow_all d). fold d'. split; [done|].
  intros Hn. destruct Hn. intros k Hk. unfold narrowed in Hk.
  repeat (apply elem_of_cons in Hk as [->|Hk]; [done|]).
  by apply elem_of_nil in Hk.
Qed.
End LoadPretrained.

(** X22.  [load_pretrained] raises what [torch.load] raises.  Otherwise it
    strips [module.] from the keys of the checkpoint, which leaves every key
    once.  When one of the four keys [update.weight.2.weight],
    [update.weight.2.bias], [update.delta.2.weight] and
    [update.delta.2.bias] is then missing it raises [KeyError], and the
    network loads nothing.  When all four are there, the network loads a
    dictionary with the same keys in the same order, in which the entries of
    these four keys are cut to their first two slices and every other entry
    is as loaded; what [load_state_dict] raises is raised. *)
Theorem load_pretrained_narrows `{Wk : Workers} (p : string) :
  (∀ e, torch_load p = inl e → load_pretrained p = inl e) ∧
  (∀ items, torch_load p = inr items →
     let d := OrderedDict
                ((λ kv, (str_replace "module." "" kv.1, kv.2)) <$> items) in
     let d' := (λ kv, if bool_decide (kv.1 ∈ narrowed)
                      then (kv.1, take 2 kv.2) else kv) <$> d in
     NoDup d.*1 ∧ d'.*1 = d.*1 ∧
     (narrowed ⊆ d.*1 →
      load_pretrained p = (_ ← load_state_dict d'; inr d')) ∧
     (¬ narrowed ⊆ d.*1 → load_pretrained p = inl KeyError)).
Proof. apply load_pretrained_cases. Qed.

(** The checkpoint of a wrapped network, with three slices per entry. *)
Lemma load_pretrained_narrows_witness :
  load_pretrained (Wk := counting_workers false false) "droid.pth"
  = inr [("update.weight.2.weight", [1; 2]);
         ("update.weight.2.bias", [4; 5]);
         ("update.delta.2.weight", [7; 8]);
         ("update.delta.2.bias", [10; 11])]%string%nat.
Proof.
  destruct (load_pretrained_narrows (Wk := counting_workers false false)
              "droid.pth") as (_ & Hitems).
  destruct (Hitems _ eq_refl) as (_ & _ & Hall & _).
  rewrite Hall; [vm_compute; reflexivity|].
  intros k Hk. unfold narrowed in Hk.
  repeat (apply elem_of_cons in Hk as [->|Hk];
          [vm_compute; repeat first [by left | right]|]).
  by apply elem_of_nil in Hk.
Defined.

Section TrackingFacts.
Context {Image DepthMap Intrinsic GtPose Mask : Type}.
Implicit Types (fr : @frame Image DepthMap Intrinsic GtPose Mask).
Implicit Types (stream : list (@frame Image DepthMap Intrinsic GtPose Mask)).

(** [timestamp <= t_stop], when there is a [t_stop]. *)
Definition within_stop (t_stop : option Z) fr : Prop :=
  match t_stop with Some s => timestamp fr ≤ s | None => True end.

Lemma unpack_frame_Some (with_masks : bool) fr m :
  unpack_frame with_masks fr = Some m → m = static_mask fr.
Proof.
  unfold unpack_frame.
  destruct with_masks, (static_mask fr); by intros [= <-].
Qed.

(** X10.  On a stream whose items all have the number of entries that the
    unpacking expects, the loop of [tracking] ends without an exception.  It
    stops at the first frame, if any, that is neither before [t_start] nor
    within [t_stop]; of the frames before that one it handles exactly those
    with [timestamp >= t_start], in order: each is put into the queue as an
    image followed by a depth when the stream is shown, and is then handed
    to the frontend.  No later frame is handled, whatever its timestamp. *)
Theorem tracking_selects (with_masks : bool) (mode : string) (t_start : Z)
    (t_stop : option Z) (show_stream : bool) stream :
  Forall (λ fr, is_Some (unpack_frame with_masks fr)) stream →
  ∃ k : nat,
    (∀ fr, fr ∈ take k stream → t_start ≤ timestamp fr →
           within_stop t_stop fr) ∧
    (∀ fr, stream !! k = Some fr →
           t_start ≤ timestamp fr ∧ ¬ within_stop t_stop fr) ∧
    tracking with_masks mode t_start t_stop show_stream stream
    = (concat ((λ fr, process mode show_stream fr (static_mask fr))
                 <$> filter (λ fr, t_start ≤ timestamp fr) (take k stream)),
       true).
Proof.
  induction 1 as [|fr rest [m Hm] Hrest (k & Hin & Hk & IH)].
  - exists O. split; [by intros fr Hfr%elem_of_nil|]. by split.
  - simpl. rewrite Hm. apply unpack_frame_Some in Hm as ->.
    destruct (Z.ltb_spec (timestamp fr) t_start) as [Hlt|Hge].
    + exists (S k). split; [|split; [done|]].
      * intros fr' [->|Hfr']%elem_of_cons Hs; [lia|by apply Hin].
      * rewrite IH. simpl. by rewrite filter_cons_False by lia.
    + destruct t_stop as [s|]; [destruct (Z.ltb_spec s (timestamp fr))|].
      * exists O. split; [by intros fr' Hfr'%elem_of_nil|].
        split; [|done]. intros fr' [= <-]. simpl. split; [done|lia].
      * exists (S k). split; [|split; [done|]].
        -- intros fr' [->|Hfr']%elem_of_cons Hs; [done|by apply Hin].
        -- rewrite IH. simpl. by rewrite filter_cons_True by done.
      * exists (S k). split; [|split; [done|]].
        -- intros fr' [->|Hfr']%elem_of_cons Hs; [done|by apply Hin].
        -- rewrite IH. simpl. by rewrite filter_cons_True by done.
Qed.

End TrackingFacts.

Lemma tracking_selects_witness :
  tracking false "mono" 1 (Some 2) true four_frames
  = ([Put_image 11%nat; Put_depth None; Frontend 1 11%nat None tt tt None],
     true) ∧
  ∃ k : nat,
    (∀ fr, fr ∈ take k four_frames → 1 ≤ timestamp fr →
           within_stop (Some 2) fr) ∧
    (∀ fr, four_frames !! k = Some fr →
           1 ≤ timestamp fr ∧ ¬ within_stop (Some 2) fr) ∧
    tracking false "mono" 1 (Some 2) true four_frames
    = (concat ((λ fr, process "mono" true fr (static_mask fr))
                 <$> filter (λ fr, 1 ≤ timestamp fr) (take k four_frames)),
       true).
Proof.
  split; [reflexivity|].
  apply (tracking_selects false "mono" 1 (Some 2) true four_frames).
  repeat constructor; by eexists.
Defined.

(** ** The log of the backend process *)

(** The messages take turns, a deletion first. *)
Definition alternating (l : list message) : Prop :=
  ∀ (k : nat) (m : message), l !! k = Some m →
    m = if Nat.even k then DeletingBackend else ReinstantiatingBackend.

Lemma alternating_snoc (l : list message) (m : message) :
  alternating l →
  m = (if Nat.even (length l) then DeletingBackend
       else ReinstantiatingBackend) →
  alternating (l ++ [m]).
Proof.
  intros Hl -> k m' Hk. apply lookup_app_Some in Hk as [Hk|[Hge Hk]].
  - by apply Hl.
  - apply list_lookup_singleton_Some in Hk as [Hk <-].
    by replace k with (length l) by lia.
Qed.

Section GlobalBAFacts.
Context `{Wk : Workers}.

(** The five ways one turn of the loop can go. *)
Lemma global_ba_cycle_shape (mem : Z * Z) (self : SLAM) :
  let r := global_ba_cycle mem self in
  (is_Some (backend self) ∧ printed r.1 = printed self ∧
   is_Some (backend r.1) ∧ r.2 = true) ∨
  (is_Some (backend self) ∧ printed r.1 = printed self ++ [DeletingBackend] ∧
   backend r.1 = None ∧ r.2 = false) ∨
  (is_Some (backend self) ∧
   printed r.1 = (printed self ++ [DeletingBackend])
                 ++ [ReinstantiatingBackend] ∧
   is_Some (backend r.1) ∧ r.2 = true) ∨
  (backend self = None ∧
   printed r.1 = printed self ++ [ReinstantiatingBackend] ∧
   is_Some (backend r.1) ∧ r.2 = true) ∨
  (backend self = None ∧ printed r.1 = printed self ∧
   backend r.1 = None ∧ r.2 = false).
Proof.
  unfold global_ba_cycle, ram_safeguard_backend.
  destruct (get_ram_usage mem) as [used free].
  destruct self as [c v mr [b|] pr];
    cbn [backend printed cfg video max_ram_usage];
    destruct (decide (mr < used)%Qc) as [Hmax|Hmax];
    destruct (decide (used ≤ min_ram_default)%Qc) as [Hmin|Hmin];
    rewrite ?(bool_decide_true (mr < used)%Qc) by done;
    rewrite ?(bool_decide_false (mr < used)%Qc) by done;
    rewrite ?(bool_decide_true (used ≤ min_ram_default)%Qc) by done;
    rewrite ?(bool_decide_false (used ≤ min_ram_default)%Qc) by done;
    simpl; eauto 10.
Qed.

(** What the loop keeps: the log alternates, and there is no backend
    exactly when the log is of odd length. *)
Definition log_consistent (self : SLAM) : Prop :=
  alternating (printed self) ∧
  (backend self = None ↔ Nat.odd (length (printed self)) = true).

Lemma global_ba_cycle_log (mem : Z * Z) (self : SLAM) :
  log_consistent self → log_consistent (global_ba_cycle mem self).1.
Proof.
  intros [Halt Hb].
  assert (Hsome : ∀ s : SLAM, is_Some (backend s) → backend s = None → False)
    by (intros s [b ->]; done).
  assert (Hodd : ∀ n : nat, Nat.odd n = negb (Nat.even n))
    by (intros n; by rewrite <- Nat.negb_even).
  assert (Heven : is_Some (backend self) →
                  Nat.even (length (printed self)) = true).
  { intros Hs. destruct (Nat.even _) eqn:He; [done|]. exfalso.
    apply (Hsome self Hs), Hb. by rewrite Hodd, He. }
  assert (Hnone : backend self = None →
                  Nat.even (length (printed self)) = false).
  { intros Hn%Hb. rewrite Hodd in Hn. by destruct (Nat.even _). }
  destruct (global_ba_cycle_shape mem self)
    as [(Hs & Hp & Hs' & _)|[(Hs & Hp & Hs' & _)|[(Hs & Hp & Hs' & _)|
        [(Hs & Hp & Hs' & _)|(Hs & Hp & Hs' & _)]]]];
    unfold log_consistent; rewrite Hp, ?length_app; simpl.
  - split; [done|]. split; [intros Hn; by destruct (Hsome _ Hs' Hn)|].
    by rewrite Hodd, (Heven Hs).
  - split; [apply alternating_snoc; [done|by rewrite (Heven Hs)]|].
    split; [|done]. intros _.
    replace (length (printed self) + 1)%nat with (S (length (printed self)))
      by lia.
    by rewrite Nat.odd_succ, (Heven Hs).
  - split.
    + apply alternating_snoc;
        [apply alternating_snoc; [done|by rewrite (Heven Hs)]|].
      rewrite length_app. simpl.
      replace (length (printed self) + 1)%nat with (S (length (printed self)))
        by lia.
      by rewrite Nat.even_succ, Hodd, (Heven Hs).
    + split; [intros Hn; by destruct (Hsome _ Hs' Hn)|].
      replace (length (printed self) + 1 + 1)%nat
        with (S (S (length (printed self)))) by lia.
      by rewrite Nat.odd_succ, Nat.even_succ, Hodd, (Heven Hs).
  - split; [apply alternating_snoc; [done|by rewrite (Hnone Hs)]|].
    split; [intros Hn; by destruct (Hsome _ Hs' Hn)|].
    replace (length (printed self) + 1)%nat with (S (length (printed self)))
      by lia.
    by rewrite Nat.odd_succ, (Hnone Hs).
  - split; [done|]. split; [by intros _; apply Hb|done].
Qed.

Lemma global_ba_loop_log (mems : list (Z * Z)) (self : SLAM) :
  log_consistent self →
  log_consistent (global_ba_loop mems self).1 ∧
  ((global_ba_loop mems self).2 ≤ length mems)%nat.
Proof.
  revert self. induction mems as [|mem mems IH]; intros self Hself; simpl.
  - by split.
  - destruct (IH _ (global_ba_cycle_log mem self Hself)) as [Hlog Hn].
    split; [done|]. destruct (global_ba_cycle mem self).2; simpl; lia.
Qed.

End GlobalBAFacts.

(** X11.  The backend process of a freshly constructed system, over any
    sequence of memory samples: its deletion and reinstantiation messages
    take turns, a deletion first, and the backend has been deleted for the
    last time exactly when their number is odd; the backend has run at most
    once per turn; the final refinement is run only if [run] is set and the
    backend is there after the last turn, as two passes over
    [[0, t_end]]; and with [run] unset nothing is printed or run at all. *)
Theorem global_ba_log_alternates `{Wk : Workers}
    (do_refinement enable_loop : Backend → bool) (c : config) (self : SLAM)
    (out : option string) (run : bool) (mems : list (Z * Z)) (t_end : Z) :
  SLAM_init c out = inr self →
  let r := global_ba do_refinement enable_loop run mems t_end self in
  alternating (printed r.1.1) ∧
  (r.1.2 ≤ length mems)%nat ∧
  (r.2 ≠ [] →
   run = true ∧ Nat.even (length (printed r.1.1)) = true ∧
   (r.2 = [loop_ba 0 t_end 6; loop_ba 0 t_end 6] ∨
    r.2 = [dense_ba 0 t_end 6; dense_ba 0 t_end 6])) ∧
  (run = false → printed r.1.1 = [] ∧ r.1.2 = O ∧ r.2 = []).
Proof.
  intros Hinit.
  assert (Hself : log_consistent self ∧ printed self = []).
  { apply SLAM_init_fresh in Hinit as (_ & _ & Hb & Hp & _).
    unfold log_consistent. rewrite Hb, Hp.
    split; [|done]. split; [by intros k m Hk|]. by split. }
  destruct Hself as [Hself Hnil].
  unfold global_ba. destruct run; simpl.
  - destruct (global_ba_loop_log mems self Hself) as [[Halt Hb] Hn].
    split; [done|]. split; [done|]. split; [|done].
    destruct (backend (global_ba_loop mems self).1) as [b|] eqn:Hbk;
      [|done].
    intros Hp. split; [done|]. split.
    + destruct (Nat.even _) eqn:He; [done|]. exfalso.
      destruct Hb as [_ Hb]. rewrite ?Hbk in Hb.
      rewrite <- Nat.negb_even, He in Hb. by specialize (Hb eq_refl).
    + destruct (do_refinement b); [|done]. destruct (enable_loop b); auto.
  - rewrite Hnil. split; [by intros k m Hk|]. split; [lia|].
    split; [by destruct (backend self)|]. intros _.
    by destruct (backend self).
Qed.

Lemma global_ba_log_alternates_witness :
  ∃ self : SLAM (Wk := counting_workers false false),
    SLAM_init (config_of "mono" None) None = inr self ∧
    printed (global_ba (λ _, true) (λ _, false) true
               [(5, 100); (60, 100); (5, 100)] 7 self).1.1
    = [DeletingBackend; ReinstantiatingBackend; DeletingBackend] ∧
    alternating (printed (global_ba (λ _, true) (λ _, false) true
                            [(5, 100); (60, 100); (5, 100)] 7 self).1.1).
Proof.
  eexists. split; [vm_compute; reflexivity|].
  split; [vm_compute; reflexivity|].
  match goal with
  | |- alternating (printed (global_ba ?d ?e ?r ?m ?t ?s).1.1) =>
      apply (global_ba_log_alternates (Wk := counting_workers false false)
               d e (config_of "mono" None) s None r m t)
  end.
  vm_compute; reflexivity.
Defined.

(** * [torch_intersect1d] *)

Lemma index_of_nonneg (x : Z) (u : list Z) : 0 ≤ index_of x u.
Proof. induction u as [|y u IH]; simpl; [done|]. case_match; lia. Qed.

Lemma index_at_index_of {B : Type} (g : Z → B) (x : Z) (u : list Z) :
  x ∈ u → index_at (g <$> u) (index_of x u) = Some (g x).
Proof.
  unfold index_at. rewrite bool_decide_true by apply index_of_nonneg.
  induction u as [|y u IH]; [by intros ?%elem_of_nil|].
  intros Hx. simpl. destruct (Z.eqb_spec x y) as [->|Hne]; [done|].
  apply elem_of_cons in Hx as [?|Hx]; [done|].
  pose proof (index_of_nonneg x u).
  replace (Z.to_nat (1 + index_of x u)) with (S (Z.to_nat (index_of x u)))
    by lia.
  by apply IH.
Qed.

Lemma mapM_fmap_Some {B C D : Type} (f : C → option D) (h : B → C)
    (g : B → D) (l : list B) :
  (∀ x, x ∈ l → f (h x) = Some (g x)) →
  mapM f (h <$> l) = Some (g <$> l).
Proof.
  induction l as [|a l IH]; intros Hf; [done|].
  rewrite !fmap_cons, mapM_cons_eq, Hf by (by left). simpl.
  rewrite IH; [done|]. intros x Hx. apply Hf. by right.
Qed.

Lemma gather_inverse_counts (l : list Z) :
  gather ((λ x, count x l) <$> (unique l).1) (unique l).2
  = Some ((λ x, count x l) <$> l).
Proof.
  unfold gather. cbn [unique fst snd].
  apply (mapM_fmap_Some _ _ (λ x, count x l)). intros x Hx.
  apply (index_at_index_of (λ y, count y l)).
  exact (proj2 (elem_of_unique x l) Hx).
Qed.

(** Reading a tensor at the positions where a mask is true. *)
Lemma gather_nonzero {B : Type} (f : B → bool) (pre l : list B) :
  gather (pre ++ l) (nonzero (Z.of_nat (length pre)) (f <$> l))
  = Some (filter (λ x, f x = true) l).
Proof.
  revert pre. induction l as [|a l IH]; intros pre; [done|].
  rewrite fmap_cons. cbn [nonzero].
  specialize (IH (pre ++ [a])). rewrite length_app, <- app_assoc in IH.
  simpl in IH.
  replace (Z.of_nat (length pre + 1)) with (Z.of_nat (length pre) + 1)
    in IH by lia.
  unfold gather in *. destruct (f a) eqn:Hf; cbn [app].
  - rewrite mapM_cons_eq, IH. unfold index_at.
    rewrite bool_decide_true by lia. rewrite Nat2Z.id.
    rewrite lookup_app_r, Nat.sub_diag by lia. simpl.
    by rewrite filter_cons_True.
  - rewrite IH. by rewrite filter_cons_False by (by rewrite Hf).
Qed.

Lemma filter_ext_in {B : Type} (P Q : B → Prop) `{!∀ x, Decision (P x)}
    `{!∀ x, Decision (Q x)} (l : list B) :
  (∀ x, x ∈ l → P x ↔ Q x) → filter P l = filter Q l.
Proof.
  induction l as [|a l IH]; intros Hl; [done|].
  assert (Ha : P a ↔ Q a) by (apply Hl; by left).
  assert (Hrest : filter P l = filter Q l)
    by (apply IH; intros x Hx; apply Hl; by right).
  destruct (decide (P a)) as [HP|HP].
  - rewrite !filter_cons_True by tauto. by rewrite Hrest.
  - rewrite !filter_cons_False by tauto. done.
Qed.

Lemma count_app (x : Z) (l1 l2 : list Z) :
  count x (l1 ++ l2) = count x l1 + count x l2.
Proof. unfold count. rewrite filter_app, length_app. lia. Qed.

Lemma count_not_elem_of (x : Z) (l : list Z) : x ∉ l → count x l = 0.
Proof.
  unfold count. induction l as [|y l IH]; [done|].
  intros [Hne Hl]%not_elem_of_cons.
  rewrite filter_cons_False by done. by apply IH.
Qed.

Lemma count_NoDup (x : Z) (l : list Z) :
  NoDup l → x ∈ l → count x l = 1.
Proof.
  induction 1 as [|y l Hy Hl IH]; [by intros ?%elem_of_nil|].
  intros [->|Hx]%elem_of_cons.
  - unfold count. rewrite filter_cons_True by done. simpl.
    pose proof (count_not_elem_of y l Hy) as H0. unfold count in H0. lia.
  - unfold count. rewrite filter_cons_False by (intros ->; done).
    by apply IH.
Qed.

(** Whatever the arguments, the three results are read off the number of
    times a value occurs in [t1] and [t2] together. *)
Lemma torch_intersect1d_counts (t1 t2 : list Z) :
  torch_intersect1d t1 t2
  = Some (filter (λ x, count x (t1 ++ t2) = 2) t1,
          filter (λ x, count x (t1 ++ t2) ≠ 2) t1,
          filter (λ x, count x (t1 ++ t2) = 1) t2).
Proof.
  unfold torch_intersect1d, unique_counts.
  pose proof (gather_inverse_counts (t1 ++ t2)) as Hg.
  destruct (unique (t1 ++ t2)) as [u inv]. cbn [fst snd] in Hg.
  rewrite Hg. opt_simpl.
  rewrite fmap_app, take_app_length', drop_app_length'
    by (by rewrite length_fmap).
  rewrite <- !list_fmap_compose.
  rewrite (gather_nonzero _ [] t1), (gather_nonzero _ [] t1),
    (gather_nonzero _ [] t2). opt_simpl.
  do 3 f_equal; [f_equal|..]; apply filter_ext_in; intros x _; simpl.
  - by rewrite bool_decide_eq_true.
  - rewrite negb_true_iff, bool_decide_eq_false. done.
  - by rewrite bool_decide_eq_true.
Qed.

(** X12.  On two tensors without repeated values, [torch_intersect1d]
    returns, in the order of its arguments, the values of [t1] that are in
    [t2], the values of [t1] that are not in [t2], and the values of [t2]
    that are not in [t1]. *)
Theorem torch_intersect1d_correct (t1 t2 : list Z) :
  NoDup t1 → NoDup t2 →
  torch_intersect1d t1 t2
  = Some (filter (.∈ t2) t1, filter (.∉ t2) t1, filter (.∉ t1) t2).
Proof.
  intros H1 H2. rewrite torch_intersect1d_counts.
  do 3 f_equal; [f_equal|..]; apply filter_ext_in; intros x Hx;
    rewrite count_app.
  - rewrite (count_NoDup x t1) by done. destruct (decide (x ∈ t2)) as [Hin|Hin].
    + rewrite (count_NoDup x t2) by done. done.
    + rewrite (count_not_elem_of x t2) by done. split; [lia|done].
  - rewrite (count_NoDup x t1) by done. destruct (decide (x ∈ t2)) as [Hin|Hin].
    + rewrite (count_NoDup x t2) by done. split; [lia|done].
    + rewrite (count_not_elem_of x t2) by done. split; [done|lia].
  - rewrite (count_NoDup x t2) by done. destruct (decide (x ∈ t1)) as [Hin|Hin].
    + rewrite (count_NoDup x t1) by done. split; [lia|done].
    + rewrite (count_not_elem_of x t1) by done. done.
Qed.

Lemma torch_intersect1d_correct_witness :
  torch_intersect1d [0; 4; 9] [9; 3; 0; 1; 2] = Some ([0; 9], [4], [3; 1; 2]).
Proof.
  apply (torch_intersect1d_correct [0; 4; 9] [9; 3; 0; 1; 2]);
    apply (bool_decide_unpack _); vm_compute; exact I.
Defined.

(** * The rendering evaluation *)

Section EvalRenderingFacts.
Context `{Rd : Rendering}.

Lemma create_comparison_figure_no_depth (gt_img est_img : Img)
    (est_depth : option Dep) :
  ∃ e, create_comparison_figure gt_img est_img None est_depth = inl e.
Proof.
  unfold create_comparison_figure.
  destruct (same_shape _ _), (same_dtype _ _); simpl; eauto.
Qed.

Lemma eval_frame_returns cams has_gt_depth save_renders monocular i idx acc
    acc' :
  eval_frame cams has_gt_depth save_renders monocular i idx acc = inr acc' →
  (i < length cams)%nat ∧
  (save_renders = true → has_gt_depth = true) ∧
  length (psnr_array acc') = S (length (psnr_array acc)) ∧
  length (ssim_array acc') = S (length (ssim_array acc)) ∧
  length (lpips_array acc') = S (length (lpips_array acc)) ∧
  length (depth_l1 acc')
  = (length (depth_l1 acc) + Nat.b2n has_gt_depth)%nat.
Proof.
  unfold eval_frame. destruct (cams !! i) as [cam|] eqn:Hcam; [|done].
  apply lookup_lt_Some in Hcam.
  destruct (render_frame cam idx) as [[[[gt est] gd] ed]|]; [|done].
  destruct save_renders, has_gt_depth; simpl;
    try (destruct (create_comparison_figure_no_depth gt est None) as [e ->];
         done);
    repeat (case_match; try done); intros [= <-]; simpl;
    rewrite ?length_app; simpl; repeat split; try done; lia.
Qed.

Lemma eval_frames_returns cams has_gt_depth save_renders monocular i tstamps
    acc acc' :
  eval_frames cams has_gt_depth save_renders monocular i tstamps acc
  = inr acc' →
  (i + length tstamps ≤ length cams ∨ tstamps = [])%nat ∧
  (tstamps ≠ [] → save_renders = true → has_gt_depth = true) ∧
  length (psnr_array acc') = (length (psnr_array acc) + length tstamps)%nat ∧
  length (ssim_array acc') = (length (ssim_array acc) + length tstamps)%nat ∧
  length (lpips_array acc')
  = (length (lpips_array acc) + length tstamps)%nat ∧
  length (depth_l1 acc')
  = (length (depth_l1 acc)
     + (if has_gt_depth then length tstamps else O))%nat.
Proof.
  revert i acc. induction tstamps as [|idx rest IH]; intros i acc; simpl.
  - intros [= <-]. repeat split; try done; try lia; auto.
    destruct has_gt_depth; lia.
  - destruct (eval_frame _ _ _ _ _ _ _) as [e|acc1] eqn:Hf; [done|].
    intros Hrest. apply eval_frame_returns in Hf as (Hi & Hd & H1 & H2 & H3 & H4).
    apply IH in Hrest as (Hlen & _ & R1 & R2 & R3 & R4).
    split; [left; destruct Hlen as [Hlen| ->]; simpl; lia|].
    split; [by intros _|].
    rewrite R1, R2, R3, R4, H1, H2, H3, H4.
    repeat split; try lia. destruct has_gt_depth; simpl; lia.
Qed.

End EvalRenderingFacts.

(** X17.  When [eval_rendering] returns, there was a camera for every
    timestamp and it has collected one PSNR, one SSIM and one LPIPS score
    per timestamp, and one depth loss per timestamp exactly if the dataset
    has depth images.  It never returns for a dataset without depth images
    when the renders are saved and there is a timestamp: the figure without
    depth cannot be drawn. *)
Theorem eval_rendering_returns `{Rd : Rendering} (cams : list Cam)
    (tstamps : list Z) (has_gt_depth save_renders monocular : bool)
    (acc : scores) :
  eval_rendering cams tstamps has_gt_depth save_renders monocular = inr acc →
  (length tstamps ≤ length cams)%nat ∧
  (tstamps ≠ [] → save_renders = true → has_gt_depth = true) ∧
  length (psnr_array acc) = length tstamps ∧
  length (ssim_array acc) = length tstamps ∧
  length (lpips_array acc) = length tstamps ∧
  length (depth_l1 acc) = (if has_gt_depth then length tstamps else O).
Proof.
  unfold eval_rendering. destruct prepare; [|done].
  destruct (eval_frames _ _ _ _ _ _ _) as [e|acc'] eqn:Hf; [done|].
  destruct dump; [|done]. intros [= <-].
  apply eval_frames_returns in Hf as ([Hlen| ->] & Hrest); simpl in *;
    (split; [lia|done]).
Qed.

Lemma eval_rendering_returns_witness :
  ∃ acc,
    eval_rendering (Rd := plain_rendering) [tt; tt] [3; 5] true true false
    = inr acc ∧
    length (psnr_array acc) = 2%nat ∧ length (depth_l1 acc) = 2%nat.
Proof.
  eexists. split; [reflexivity|].
  match goal with
  | |- length (psnr_array ?a) = _ ∧ _ =>
      destruct (eval_rendering_returns (Rd := plain_rendering) [tt; tt]
                  [3; 5] true true false a eq_refl)
        as (_ & _ & Hp & _ & _ & Hd)
  end.
  split; [exact Hp|exact Hd].
Defined.

(** * The viewer *)

(** The actors that a dictionary holds. *)
Definition actors (d : gmap Z nat) : list nat := (map_to_list d).*2.

(** The window shows the actors of the two dictionaries, each once, and
    every actor has been created. *)
Definition consistent (v : viewer) : Prop :=
  geometries v ≡ₚ actors (cameras v) ++ actors (points v) ∧
  Forall (λ a, (a < next_actor v)%nat) (geometries v) ∧
  NoDup (geometries v).

Lemma actors_insert (d : gmap Z nat) (k : Z) (a : nat) :
  d !! k = None → actors (<[k := a]> d) ≡ₚ a :: actors d.
Proof. intros Hk. unfold actors. by rewrite map_to_list_insert. Qed.

Lemma actors_delete (d : gmap Z nat) (k : Z) (a : nat) :
  d !! k = Some a → actors d ≡ₚ a :: actors (delete k d).
Proof. intros Hk. unfold actors. by rewrite <- (map_to_list_delete d k a). Qed.

Lemma length_actors (d : gmap Z nat) : length (actors d) = size d.
Proof. unfold actors. by rewrite length_fmap, length_map_to_list. Qed.

Lemma remove_geometry_perm (a : nat) (l : list nat) :
  a ∈ l → l ≡ₚ a :: remove_geometry a l.
Proof.
  induction l as [|b l IH]; [by intros ?%elem_of_nil|].
  intros Ha. simpl. case_decide as Hab; [by subst|].
  apply elem_of_cons in Ha as [?|Ha]; [done|].
  rewrite (IH Ha) at 1. apply perm_swap.
Qed.

Lemma remove_geometry_sublist (a : nat) (l : list nat) :
  remove_geometry a l `sublist_of` l.
Proof.
  induction l as [|b l IH]; [done|]. simpl. case_decide.
  - by apply sublist_cons.
  - by apply sublist_skip.
Qed.

Lemma remove_geometry_Forall (P : nat → Prop) (a : nat) (l : list nat) :
  Forall P l → Forall P (remove_geometry a l).
Proof.
  induction 1 as [|b l Hb Hl IH]; [done|]. simpl. case_decide; [done|].
  by constructor.
Qed.

Lemma forget_spec (k : Z) (d : gmap Z nat) (g rest : list nat)
    (P : nat → Prop) :
  g ≡ₚ actors d ++ rest →
  (forget k d g).1 ≡ₚ actors (forget k d g).2 ++ rest ∧
  (forget k d g).2 !! k = None ∧
  (Forall P g → Forall P (forget k d g).1) ∧
  (NoDup g → NoDup (forget k d g).1) ∧
  dom (forget k d g).2 = dom d ∖ {[k]}.
Proof.
  intros Hg. unfold forget. destruct (d !! k) as [a|] eqn:Hk; simpl.
  - pose proof (actors_delete d k a Hk) as Hd.
    assert (a ∈ g) as Ha by (rewrite Hg, Hd; by left).
    split; [|split; [apply lookup_delete_eq|split; [|split]]].
    + apply (Permutation_cons_inv (a := a)).
      by rewrite <- remove_geometry_perm, Hg, Hd.
    + apply remove_geometry_Forall.
    + intros Hnd. eapply sublist_NoDup; [exact Hnd|].
      apply remove_geometry_sublist.
    + apply dom_delete_L.
  - repeat split; try done. apply not_elem_of_dom in Hk.
    apply set_eq. intros x. rewrite elem_of_difference, elem_of_singleton.
    split; [|by intros [? _]]. intros Hx. split; [done|]. by intros ->.
Qed.

Lemma insert_after_delete (X : gset Z) (k : Z) :
  {[k]} ∪ X ∖ {[k]} = {[k]} ∪ X.
Proof.
  apply set_eq. intros x.
  rewrite !elem_of_union, elem_of_difference, elem_of_singleton.
  destruct (decide (x = k)); tauto.
Qed.

Lemma list_to_set_cons_union (X : gset Z) (k : Z) (ks : list Z) :
  list_to_set ks ∪ ({[k]} ∪ X) = list_to_set (k :: ks) ∪ X.
Proof.
  apply set_eq. intros x. rewrite list_to_set_cons, !elem_of_union. tauto.
Qed.

Lemma list_to_set_nil_union (X : gset Z) : list_to_set [] ∪ X = X.
Proof.
  apply set_eq. intros x. rewrite elem_of_union, elem_of_list_to_set.
  split; [intros [?%elem_of_nil|?]; done|by right].
Qed.

Lemma perm_add2 (X Y G : list nat) (n1 n2 : nat) :
  G ≡ₚ X ++ Y → (G ++ [n1]) ++ [n2] ≡ₚ (n1 :: X) ++ (n2 :: Y).
Proof.
  intros ->. rewrite <- app_assoc. simpl.
  rewrite (Permutation_app_comm (X ++ Y)). simpl. constructor.
  by rewrite <- Permutation_middle.
Qed.

Lemma redraw_consistent (k : Z) (v : viewer) :
  consistent v →
  consistent (redraw k v) ∧
  dom (cameras (redraw k v)) = {[k]} ∪ dom (cameras v) ∧
  dom (points (redraw k v)) = {[k]} ∪ dom (points v) ∧
  dirty (redraw k v) = dirty v.
Proof.
  intros (Hg & Hb & Hnd). unfold redraw, consistent. simpl.
  destruct (forget_spec k (cameras v) (geometries v) (actors (points v))
              (λ a, (a < next_actor v)%nat) Hg)
    as (Hg1 & Hk1 & Hb1 & Hnd1 & Hd1).
  set (c := forget k (cameras v) (geometries v)) in *.
  assert (Hg1' : c.1 ≡ₚ actors (points v) ++ actors c.2)
    by (by rewrite Permutation_app_comm).
  destruct (forget_spec k (points v) c.1 (actors c.2)
              (λ a, (a < next_actor v)%nat) Hg1')
    as (Hg2 & Hk2 & Hb2 & Hnd2 & Hd2).
  set (p := forget k (points v) c.1) in *.
  specialize (Hb2 (Hb1 Hb)). specialize (Hnd2 (Hnd1 Hnd)).
  split; [split; [|split]|split; [|split; [|done]]].
  - rewrite !actors_insert by done. apply perm_add2.
    by rewrite Hg2, Permutation_app_comm.
  - rewrite !Forall_app, !Forall_singleton. split; [split|]; [|lia..].
    eapply Forall_impl; [exact Hb2|]. simpl. lia.
  - rewrite <- app_assoc. apply NoDup_app. split; [done|]. split.
    + intros a Ha [->|[->|?%elem_of_nil]%elem_of_cons]%elem_of_cons;
        try done; rewrite Forall_forall in Hb2; specialize (Hb2 _ Ha); lia.
    + apply NoDup_cons. split; [|apply NoDup_singleton].
      intros ?%list_elem_of_singleton. lia.
  - rewrite dom_insert_L, Hd1. apply insert_after_delete.
  - rewrite dom_insert_L, Hd2. apply insert_after_delete.
Qed.

Lemma redraw_all_consistent (ks : list Z) (v : viewer) :
  consistent v →
  consistent (foldl (λ v k, redraw k v) v ks) ∧
  dom (cameras (foldl (λ v k, redraw k v) v ks))
  = list_to_set ks ∪ dom (cameras v) ∧
  dom (points (foldl (λ v k, redraw k v) v ks))
  = list_to_set ks ∪ dom (points v) ∧
  dirty (foldl (λ v k, redraw k v) v ks) = dirty v.
Proof.
  revert v. induction ks as [|k ks IH]; intros v Hv.
  - cbn [foldl]. by rewrite !list_to_set_nil_union.
  - cbn [foldl]. destruct (redraw_consistent k v Hv) as (Hv' & Hc & Hp & Hd).
    destruct (IH _ Hv') as (Hv'' & Hc' & Hp' & Hd').
    rewrite Hc', Hp', Hc, Hp, Hd', Hd, !list_to_set_cons_union. done.
Qed.

Lemma nonzero_nil (k : Z) (m : list bool) :
  nonzero k m = [] → m = replicate (length m) false.
Proof.
  revert k. induction m as [|b m IH]; intros k; [done|]. simpl.
  destruct b; [done|]. simpl. intros Hm. by rewrite <- (IH _ Hm).
Qed.

Lemma animation_callback_keeps (v : viewer) :
  consistent v →
  consistent (animation_callback v) ∧
  length (dirty (animation_callback v)) = length (dirty v).
Proof.
  intros Hv. unfold animation_callback. case_decide; [done|].
  destruct (redraw_all_consistent (nonzero 0 (dirty v))
              {| dirty := replicate (length (dirty v)) false;
                 counter := counter v; cameras := cameras v;
                 points := points v; geometries := geometries v;
                 next_actor := next_actor v; ix := ix v;
                 filter_thresh := filter_thresh v;
                 camera_scale := camera_scale v;
                 do_reset := do_reset v |} Hv) as (Hc & _ & _ & Hd).
  simpl. split; [exact Hc|]. rewrite Hd. simpl. apply length_replicate.
Qed.

Lemma mark_dirty_length (v : viewer) :
  length (mark_dirty v) = length (dirty v).
Proof.
  unfold mark_dirty. rewrite length_app, length_replicate, length_drop. lia.
Qed.

Lemma handle_keeps (v : viewer) (i : input) :
  consistent v →
  consistent (handle v i) ∧ length (dirty (handle v i)) = length (dirty v).
Proof.
  intros Hv. destruct i; simpl; try (by apply animation_callback_keeps);
    (split; [exact Hv|]); simpl;
    auto using mark_dirty_length, length_replicate.
Qed.

(** X19.  The animation callback of the viewer keeps the window and the
    two dictionaries of actors in step: if the window shows exactly the
    camera and point actors of the dictionaries, each once, it does so
    afterwards, so it holds as many geometries as the dictionaries have
    entries.  Afterwards no frame is dirty, and the frames with a camera
    actor, and those with a point actor, are the ones that had one together
    with the frames that were dirty. *)
Theorem animation_callback_consistent (v : viewer) :
  consistent v →
  let v' := animation_callback v in
  consistent v' ∧
  length (geometries v') = (size (cameras v') + size (points v'))%nat ∧
  dirty v' = replicate (length (dirty v)) false ∧
  dom (cameras v') = list_to_set (nonzero 0 (dirty v)) ∪ dom (cameras v) ∧
  dom (points v') = list_to_set (nonzero 0 (dirty v)) ∪ dom (points v).
Proof.
  intros Hv v'.
  assert (Hlen : ∀ w, consistent w →
            length (geometries w) = (size (cameras w) + size (points w))%nat).
  { intros w (Hg & _). by rewrite Hg, length_app, !length_actors. }
  subst v'. unfold animation_callback. case_decide as Hnone.
  - apply nil_length_inv in Hnone. rewrite Hnone. simpl.
    split; [done|]. split; [by apply Hlen|].
    split; [by eapply nonzero_nil|]. by rewrite !list_to_set_nil_union.
  - set (v0 := {| dirty := replicate (length (dirty v)) false;
                  counter := counter v; cameras := cameras v;
                  points := points v; geometries := geometries v;
                  next_actor := next_actor v; ix := ix v;
                  filter_thresh := filter_thresh v;
                  camera_scale := camera_scale v;
                  do_reset := do_reset v |}).
    destruct (redraw_all_consistent (nonzero 0 (dirty v)) v0 Hv)
      as (Hc & Hdc & Hdp & Hd).
    simpl. split; [exact Hc|]. split; [by apply Hlen|]. by split.
Qed.

Lemma animation_callback_consistent_witness :
  consistent (animation_callback (fresh_viewer 3 2)) ∧
  geometries (animation_callback (animation_callback (fresh_viewer 3 2)))
  = [0; 1; 2; 3; 4; 5]%nat.
Proof.
  split; [|reflexivity].
  apply (animation_callback_consistent (fresh_viewer 3 2)).
  split; [done|]. split; [constructor|constructor].
Defined.

(** X20.  Whatever keys are pressed and however often the animation
    callback runs, from the moment the viewer is set up, the window shows
    exactly the actors of the two dictionaries, each once: it holds as many
    geometries as the dictionaries have entries, and there are as many dirty
    flags as at the start. *)
Theorem viewer_stays_consistent (n c : nat) (inputs : list input) :
  let v := foldl handle (fresh_viewer n c) inputs in
  consistent v ∧
  length (geometries v) = (size (cameras v) + size (points v))%nat ∧
  length (dirty v) = n.
Proof.
  intros v. subst v.
  assert (Hinv : ∀ w, consistent w → length (dirty w) = n →
            consistent (foldl handle w inputs) ∧
            length (dirty (foldl handle w inputs)) = n).
  { induction inputs as [|i inputs IH]; intros w Hw Hn; [done|]. simpl.
    destruct (handle_keeps w i Hw) as [Hw' Hn']. apply IH; [done|lia]. }
  destruct (Hinv (fresh_viewer n c)) as [Hc Hn].
  - split; [done|]. split; constructor.
  - apply length_replicate.
  - split; [exact Hc|]. split; [|exact Hn].
    destruct Hc as (Hg & _). by rewrite Hg, length_app, !length_actors.
Qed.
